(** * chromium-bidi: subscription manager, network utilities, log helper

    A shallow embedding of [SubscriptionManager.ts] (the subscription store
    of the BiDi mapper) together with models of the helpers exercised by
    [NetworkUtils.spec.ts] and [logHelper.spec.ts], and the properties the
    specification states about them. *)

From stdpp Require Import gmap strings list fin_maps sorting pretty.
From Stdlib Require Import Ascii QArith Qround.
Close Scope Q_scope.
Open Scope string_scope.
Open Scope list_scope.

(** * JavaScript [Map] with observable key order

    [Array.from(map.keys())] lists the keys in insertion order, so the outer
    map of the manager, the only one whose keys are enumerated, is an
    association list in insertion order.  [set] on a present key replaces
    the value in place, on an absent key appends; [delete] drops the
    entry. *)
Section JsMap.
Context {K V : Type} `{EqDecision K}.

Fixpoint jm_get (k : K) (m : list (K * V)) : option V :=
  match m with
  | [] => None
  | (k', v) :: m' => if decide (k = k') then Some v else jm_get k m'
  end.

Definition jm_has (k : K) (m : list (K * V)) : bool :=
  bool_decide (is_Some (jm_get k m)).

Fixpoint jm_set (k : K) (v : V) (m : list (K * V)) : list (K * V) :=
  match m with
  | [] => [(k, v)]
  | (k', v') :: m' =>
      if decide (k = k') then (k, v) :: m' else (k', v') :: jm_set k v m'
  end.

Fixpoint jm_delete (k : K) (m : list (K * V)) : list (K * V) :=
  match m with
  | [] => []
  | (k', v') :: m' =>
      if decide (k = k') then m' else (k', v') :: jm_delete k m'
  end.

Definition jm_keys (m : list (K * V)) : list K := m.*1.
End JsMap.

Module SubscriptionManager.

(** ** Collaborators that are not part of the file

    [protocol.js] supplies the event-name constants: for each of the four
    modules the group name [X.AllEvents] and the table
    [Object.values(X.EventNames)].  They are taken as they come. *)
Record Protocol := {
  BrowsingContext_AllEvents : string;
  BrowsingContext_EventNames : list string;
  Log_AllEvents : string;
  Log_EventNames : list string;
  Network_AllEvents : string;
  Network_EventNames : list string;
  Script_AllEvents : string;
  Script_EventNames : list string;
}.

(** Modelled from the spec: [BrowsingContextStorage] (its file is not among
    the sources).  The spec gives it [findTopLevel(id) -> id] and
    [get(id) -> Context | error], the error for an unknown context id being
    [no such frame].  [hasContext id] says whether [getContext(id)]
    returns. *)
Record BrowsingContextStorage := {
  findTopLevelContextId : option string → option string;
  hasContext : string → bool;
}.

(** ** The store

    [#channelToContextToEventMap]: channel (or [null]) to browsing context
    (or [null]) to event name to priority.  The two inner maps are only
    read with [has]/[get]/[size] and written with [set]/[delete], so they
    are finite maps; [null] is [None]. *)
Record SubscriptionManager := {
  subscriptionPriority : N;
  channelToContextToEventMap :
    list (option string * gmap (option string) (gmap string N));
}.

Definition empty_manager : SubscriptionManager :=
  {| subscriptionPriority := 0; channelToContextToEventMap := [] |}.

(** [#subscriptionPriority++] on a JavaScript number: integers are exact up
    to [2^53], where adding one no longer changes the value. *)
Definition next_priority (p : N) : N :=
  if decide (p = 2 ^ 53)%N then p else (p + 1)%N.

(** The priority recorded for [(channel, contextId, event)], if any:
    [map.get(channel)?.get(contextId)?.get(event)]. *)
Definition subscription (s : SubscriptionManager)
    (channel contextId : option string) (event : string) : option N :=
  match jm_get channel (channelToContextToEventMap s) with
  | None => None
  | Some contextToEventMap => contextToEventMap !! contextId ≫= (.!! event)
  end.

(** A JavaScript [Set] of strings, in insertion order. *)
Definition set_add (x : string) (s : list string) : list string :=
  if decide (x ∈ s) then s else s ++ [x].

(** [cartesianProduct(a, b)] for two arrays:
    [a.flatMap((d) => b.map((e) => [d, e].flat()))]. *)
Definition cartesianProduct {A B} (a : list A) (b : list B) : list (A * B) :=
  d ← a; (λ e, (d, e)) <$> b.

(** [a] stands before [b] in [l]. *)
Definition before {A} (a b : A) (l : list A) : Prop :=
  ∃ l1 l2 l3, l = l1 ++ a :: l2 ++ b :: l3.

(** Every subscription of [s] is one of [s'], with its priority. *)
Definition extends (s s' : SubscriptionManager) : Prop :=
  ∀ channel contextId event p,
    subscription s channel contextId event = Some p →
    subscription s' channel contextId event = Some p.

(** Every recorded priority was handed out by the counter already. *)
Definition prioritiesBelowCounter (s : SubscriptionManager) : Prop :=
  ∀ channel contextId event p,
    subscription s channel contextId event = Some p →
    (p < subscriptionPriority s)%N.

Section Manager.
Context (protocol : Protocol) (browsingContextStorage : BrowsingContextStorage).

Definition addEvents (events : list string) (allEvents : list string)
    : list string :=
  foldl (λ allEvents event, set_add event allEvents) allEvents events.

(** [unrollEvents]: the [switch] takes the first matching [case]. *)
Definition unrollEvents (events : list string) : list string :=
  foldl (λ allEvents event,
    if decide (event = BrowsingContext_AllEvents protocol)
    then addEvents (BrowsingContext_EventNames protocol) allEvents
    else if decide (event = Log_AllEvents protocol)
    then addEvents (Log_EventNames protocol) allEvents
    else if decide (event = Network_AllEvents protocol)
    then addEvents (Network_EventNames protocol) allEvents
    else if decide (event = Script_AllEvents protocol)
    then addEvents (Script_EventNames protocol) allEvents
    else set_add event allEvents) [] events.

(** The events one element of the input stands for, read off the
    [switch]; a group is an event that names one of the four tables. *)
Definition isGroup (event : string) : Prop :=
  event = BrowsingContext_AllEvents protocol
  ∨ event = Log_AllEvents protocol
  ∨ event = Network_AllEvents protocol
  ∨ event = Script_AllEvents protocol.

Definition expand (event : string) : list string :=
  if decide (event = BrowsingContext_AllEvents protocol)
  then BrowsingContext_EventNames protocol
  else if decide (event = Log_AllEvents protocol)
  then Log_EventNames protocol
  else if decide (event = Network_AllEvents protocol)
  then Network_EventNames protocol
  else if decide (event = Script_AllEvents protocol)
  then Script_EventNames protocol
  else [event].

(** *** [subscribe]

    The part of [subscribe] below the four group tests, [contextId] being
    the top-level context already: create the missing inner maps, keep an
    existing entry, otherwise record the next priority. *)
Definition subscribeAtomic (event : string) (contextId channel : option string)
    (s : SubscriptionManager) : SubscriptionManager :=
  let outer0 := channelToContextToEventMap s in
  let outer :=
    if jm_has channel outer0 then outer0 else jm_set channel ∅ outer0 in
  let contextToEventMap0 := default ∅ (jm_get channel outer) in
  let contextToEventMap :=
    if decide (is_Some (contextToEventMap0 !! contextId))
    then contextToEventMap0
    else <[contextId := ∅]> contextToEventMap0 in
  let eventMap := default ∅ (contextToEventMap !! contextId) in
  if decide (is_Some (eventMap !! event))
  then
    {| subscriptionPriority := subscriptionPriority s;
       channelToContextToEventMap := jm_set channel contextToEventMap outer |}
  else
    {| subscriptionPriority := next_priority (subscriptionPriority s);
       channelToContextToEventMap :=
         jm_set channel
           (<[contextId := <[event := subscriptionPriority s]> eventMap]>
              contextToEventMap)
           outer |}.

(** [subscribe] calls itself on every name of a group's table, so the
    recursion is bounded by [fuel]; [None] is a call that needs more. *)
Fixpoint subscribe (fuel : nat) (event : string)
    (contextId channel : option string) (s : SubscriptionManager)
    : option SubscriptionManager :=
  match fuel with
  | O => None
  | S fuel =>
      let contextId := findTopLevelContextId browsingContextStorage contextId in
      let each (names : list string) :=
        foldl (λ acc specificEvent,
                 acc ≫= subscribe fuel specificEvent contextId channel)
              (Some s) names in
      if decide (event = BrowsingContext_AllEvents protocol)
      then each (BrowsingContext_EventNames protocol)
      else if decide (event = Log_AllEvents protocol)
      then each (Log_EventNames protocol)
      else if decide (event = Network_AllEvents protocol)
      then each (Network_EventNames protocol)
      else if decide (event = Script_AllEvents protocol)
      then each (Script_EventNames protocol)
      else Some (subscribeAtomic event contextId channel s)
  end.

(** The tables of [protocol.js] name atomic events only. *)
Definition tablesAtomic : Prop :=
  Forall (λ event, ¬ isGroup event)
    (BrowsingContext_EventNames protocol ++ Log_EventNames protocol
     ++ Network_EventNames protocol ++ Script_EventNames protocol).

(** *** [getChannelsSubscribedToEvent] *)

(** [[...new Set([null, maybeTopLevelContextId])]] *)
Definition relevantContexts (maybeTopLevelContextId : option string)
    : list (option string) :=
  match maybeTopLevelContextId with
  | None => [None]
  | Some _ => [None; maybeTopLevelContextId]
  end.

(** [Math.min(...priorities)] of a non-empty array. *)
Definition minimum (p : N) (ps : list N) : N := foldl N.min p ps.

Definition getEventSubscriptionPriorityForChannel (s : SubscriptionManager)
    (eventMethod : string) (contextId channel : option string) : option N :=
  match jm_get channel (channelToContextToEventMap s) with
  | None => None
  | Some contextToEventMap =>
      let maybeTopLevelContextId :=
        findTopLevelContextId browsingContextStorage contextId in
      let priorities :=
        omap (λ c, contextToEventMap !! c ≫= (.!! eventMethod))
             (relevantContexts maybeTopLevelContextId) in
      match priorities with
      | [] => None
      | p :: ps => Some (minimum p ps)
      end
  end.

(** [sort((a, b) => a.priority - b.priority)]: [Array.prototype.sort] is
    stable, and the stable ascending order of a list is unique; it is
    computed here by insertion. *)
Fixpoint insert_by_priority (x : N * option string)
    (l : list (N * option string)) : list (N * option string) :=
  match l with
  | [] => [x]
  | y :: l' =>
      if decide (x.1 ≤ y.1)%N then x :: l else y :: insert_by_priority x l'
  end.

Definition sort_by_priority (l : list (N * option string))
    : list (N * option string) :=
  foldr insert_by_priority [] l.

Definition prioritiesAndChannels (s : SubscriptionManager)
    (eventMethod : string) (contextId : option string)
    : list (N * option string) :=
  omap (λ channel,
          (λ priority, (priority, channel)) <$>
            getEventSubscriptionPriorityForChannel s eventMethod contextId
              channel)
       (jm_keys (channelToContextToEventMap s)).

Definition getChannelsSubscribedToEvent (s : SubscriptionManager)
    (eventMethod : string) (contextId : option string)
    : list (option string) :=
  (sort_by_priority (prioritiesAndChannels s eventMethod contextId)).*2.

(** Reading aids for the properties of [getChannelsSubscribedToEvent]:
    the priorities of the subscriptions of [channel] that apply to an
    emission of [eventMethod] in [contextId] (the global one and the one of
    the top-level context), and the least of them. *)
Definition applies (s : SubscriptionManager) (eventMethod : string)
    (contextId channel : option string) (p : N) : Prop :=
  ∃ key : option string,
    (key = None ∨ key = findTopLevelContextId browsingContextStorage contextId)
    ∧ subscription s channel key eventMethod = Some p.

Definition leastApplying (s : SubscriptionManager) (eventMethod : string)
    (contextId channel : option string) (p : N) : Prop :=
  applies s eventMethod contextId channel p
  ∧ ∀ q, applies s eventMethod contextId channel q → (p ≤ q)%N.

(** *** [unsubscribeAll] *)

Inductive Exception :=
  | InvalidArgumentException (message : string)
  | NoSuchFrameException (contextId : string).

Inductive Completion (A : Type) :=
  | Normal (a : A)
  | Throw (e : Exception).
Global Arguments Normal {A} a.
Global Arguments Throw {A} e.

(** A method that may throw: the completion and the manager it leaves. *)
Definition M (A : Type) : Type :=
  SubscriptionManager → Completion A * SubscriptionManager.

Definition ret {A} (a : A) : M A := λ s, (Normal a, s).
Definition throw {A} (e : Exception) : M A := λ s, (Throw e, s).
Definition bind {A B} (m : M A) (k : A → M B) : M B :=
  λ s, match m s with
       | (Normal a, s') => k a s'
       | (Throw e, s') => (Throw e, s')
       end.

(** [array.map(f)] with an [f] that may throw: left to right, the first
    exception ends the loop. *)
Fixpoint mapM {A B} (f : A → M B) (l : list A) : M (list B) :=
  match l with
  | [] => ret []
  | x :: l' => bind (f x) (λ y, bind (mapM f l') (λ ys, ret (y :: ys)))
  end.

Definition getContext (id : string) : M unit :=
  if hasContext browsingContextStorage id
  then ret ()
  else throw (NoSuchFrameException id).

Definition noSubscriptionFound (event : string) (contextId : option string)
    : string :=
  "Cannot unsubscribe from " +:+ event +:+ ", "
    +:+ default "null" contextId +:+ ". No subscription found.".

(** The closure [#checkUnsubscribe] returns.  It holds on to the two [Map]
    objects it looked up, [eventMap] and [contextToEventMap].  The checks
    of one [unsubscribeAll] change nothing and all name the same channel,
    so every closure holds the same [contextToEventMap] object, and an
    [eventMap] object is known by the context key it was found under. *)
Record Unsubscribe := {
  u_event : string;
  u_eventMap : option string;
  u_channel : option string;
}.

Definition checkUnsubscribe (event : string) (contextId channel : option string)
    : M Unsubscribe :=
  λ s,
  let contextId := findTopLevelContextId browsingContextStorage contextId in
  match jm_get channel (channelToContextToEventMap s) with
  | None =>
      throw (InvalidArgumentException (noSubscriptionFound event contextId)) s
  | Some contextToEventMap =>
      match contextToEventMap !! contextId with
      | None =>
          throw (InvalidArgumentException (noSubscriptionFound event contextId)) s
      | Some eventMap =>
          if decide (is_Some (eventMap !! event))
          then ret {| u_event := event; u_eventMap := contextId;
                      u_channel := channel |} s
          else
            throw (InvalidArgumentException
                     (noSubscriptionFound event contextId)) s
      end
  end.

(** The objects the closures of one call work on: the contents of the
    channel's [eventMap] objects, each under the key that held it when the
    checks ran; the keys the channel's [contextToEventMap] object still
    holds (key [k] holds the [eventMap] object [k]); and the outer map, of
    which only the presence of the channel matters until [release]. *)
Record Objects := {
  eventMaps : gmap (option string) (gmap string N);
  contextKeys : gset (option string);
  outerMap : list (option string * gmap (option string) (gmap string N));
}.

Definition capture (channel : option string) (s : SubscriptionManager)
    : Objects :=
  let contextToEventMap :=
    default ∅ (jm_get channel (channelToContextToEventMap s)) in
  {| eventMaps := contextToEventMap;
     contextKeys := dom contextToEventMap;
     outerMap := channelToContextToEventMap s |}.

(** The body of the closure:
    [eventMap.delete(event)];
    [if (eventMap.size === 0) contextToEventMap.delete(event)];
    [if (contextToEventMap.size === 0) this.#map.delete(channel)].
    The second [delete] is keyed by the event name. *)
Definition runUnsubscribe (u : Unsubscribe) (o : Objects) : Objects :=
  let eventMap := delete (u_event u) (default ∅ (eventMaps o !! u_eventMap u)) in
  let contextKeys' :=
    if decide (size eventMap = 0)
    then contextKeys o ∖ {[Some (u_event u)]}
    else contextKeys o in
  {| eventMaps := <[u_eventMap u := eventMap]> (eventMaps o);
     contextKeys := contextKeys';
     outerMap :=
       if decide (size contextKeys' = 0)
       then jm_delete (u_channel u) (outerMap o)
       else outerMap o |}.

(** What the manager holds once the closures are done: the channel's
    entry, if still there, is its [contextToEventMap] object as it is
    now. *)
Definition release (channel : option string) (priority : N) (o : Objects)
    : SubscriptionManager :=
  {| subscriptionPriority := priority;
     channelToContextToEventMap :=
       if jm_has channel (outerMap o)
       then jm_set channel
              (filter (λ kv, kv.1 ∈ contextKeys o) (eventMaps o))
              (outerMap o)
       else outerMap o |}.

Definition unsubscribeAll (events : list string)
    (contextIds : list (option string)) (channel : option string) : M unit :=
  bind (mapM (λ contextId : option string,
                match contextId with
                | Some id => getContext id
                | None => ret ()
                end) contextIds) (λ _,
  let eventContextPairs := cartesianProduct (unrollEvents events) contextIds in
  bind (mapM (λ '(event, contextId), checkUnsubscribe event contextId channel)
          eventContextPairs) (λ unsubscribes,
  λ s, (Normal (),
        release channel (subscriptionPriority s)
          (foldl (λ o u, runUnsubscribe u o) (capture channel s)
             unsubscribes)))).

(** Reading aids for the properties of [unsubscribeAll]: the pairs the
    call works on, whether a pair has its subscription under the channel,
    and whether the storage knows a context. *)
Definition eventContextPairs (events : list string)
    (contextIds : list (option string)) : list (string * option string) :=
  cartesianProduct (unrollEvents events) contextIds.

Definition recorded (s : SubscriptionManager) (channel : option string)
    (pair : string * option string) : Prop :=
  is_Some (subscription s channel
             (findTopLevelContextId browsingContextStorage pair.2) pair.1).

(** The closure a passing check returns for a pair. *)
Definition closureOf (channel : option string) (pair : string * option string)
    : Unsubscribe :=
  {| u_event := pair.1;
     u_eventMap := findTopLevelContextId browsingContextStorage pair.2;
     u_channel := channel |}.

Definition known (contextId : option string) : Prop :=
  match contextId with
  | Some id => hasContext browsingContextStorage id = true
  | None => True
  end.

(** [unsubscribe]: syntactic sugar for [unsubscribeAll]. *)
Definition unsubscribe (eventName : string) (contextId channel : option string)
    : M unit :=
  unsubscribeAll [eventName] [contextId] channel.

End Manager.

End SubscriptionManager.

(** * Sample instances

    A protocol table with the event names of the WebDriver BiDi modules and
    a storage holding the top-level context [top] with the frame [frame]
    below it. *)
Module Sample.
Import SubscriptionManager.

Definition protocol : Protocol :=
  {| BrowsingContext_AllEvents := "browsingContext";
     BrowsingContext_EventNames :=
       ["browsingContext.load"; "browsingContext.domContentLoaded";
        "browsingContext.contextCreated"; "browsingContext.contextDestroyed"];
     Log_AllEvents := "log";
     Log_EventNames := ["log.entryAdded"];
     Network_AllEvents := "network";
     Network_EventNames :=
       ["network.beforeRequestSent"; "network.responseCompleted";
        "network.fetchError"];
     Script_AllEvents := "script";
     Script_EventNames := ["script.message"] |}.

Definition storage : BrowsingContextStorage :=
  {| findTopLevelContextId := λ contextId,
       if decide (contextId = Some "frame") then Some "top" else contextId;
     hasContext := λ id, bool_decide (id ∈ ["top"; "frame"]) |}.

(** [channel] subscribed to [log.entryAdded] in [top], the first
    subscription of a fresh manager. *)
Definition subscribed_once (channel : option string) : SubscriptionManager :=
  {| subscriptionPriority := 1;
     channelToContextToEventMap :=
       [(channel, {[Some "top" := {["log.entryAdded" := 0%N]}]})] |}.

(** The unnamed channel subscribed to the group [network] in [top]. *)
Definition network_subscribed : SubscriptionManager :=
  {| subscriptionPriority := 3;
     channelToContextToEventMap :=
       [(None, {[Some "top" := {["network.beforeRequestSent" := 0%N;
                                 "network.responseCompleted" := 1%N;
                                 "network.fetchError" := 2%N]}]})] |}.

(** Two channels subscribed to [network.fetchError]: the unnamed one
    globally (priority 0), then [ch] in [top] (priority 1) and globally
    (priority 2). *)
Definition two_channels : SubscriptionManager :=
  {| subscriptionPriority := 3;
     channelToContextToEventMap :=
       [(None, {[None := {["network.fetchError" := 0%N]}]});
        (Some "ch", {[Some "top" := {["network.fetchError" := 1%N]};
                      None := {["network.fetchError" := 2%N]}]})] |}.

End Sample.

(** * Network utilities

    [NetworkUtils.ts] is not among the sources; [NetworkUtils.spec.ts] is.
    The three functions below follow the spec and are checked against the
    expectations of that test file. *)
Module NetworkUtils.

Definition CRLF : string := String "013"%char (String "010"%char EmptyString).

(** A header, its value being of the form [{type: 'string', value}]. *)
Record Header := { name : string; value : string }.

(** The request line of a header as it goes over the wire:
    [name: value\r\n]. *)
Definition headerLine (header : Header) : string :=
  name header +:+ ": " +:+ value header +:+ CRLF.

(** Modelled from the spec: [computeHeadersSize], "the sum over headers of
    [len(name) + len(": ") + len(value) + len("\r\n")]; empty list yields
    0". *)
Definition computeHeadersSize (headers : list Header) : nat :=
  foldr (λ header size,
           (String.length (name header) + String.length ": "
            + String.length (value header) + String.length CRLF + size)%nat)
        0%nat headers.

(** A timing as [getTiming] receives it: [undefined], [NaN] or a finite
    number; a finite double is a rational. *)
Inductive Timing :=
  | TimingUndefined
  | TimingNaN
  | TimingFinite (x : Q).

(** Modelled from the spec: [getTiming], "equals [max(0, floor(x))] for
    finite x; 0 for [undefined]/negative/NaN". *)
Definition getTiming (timing : Timing) : Z :=
  match timing with
  | TimingUndefined => 0
  | TimingNaN => 0
  | TimingFinite x => Z.max 0 (Qfloor x)
  end.

(** The components of a request URL, as the platform's URL parser gives
    them, the protocol without its colon. *)
Record Url := {
  protocol : string;
  hostname : string;
  port : string;
  pathname : string;
  search : string;
}.

(** A pattern of type ["pattern"]: every field may be absent. *)
Record UrlPattern := {
  pattern_protocol : option string;
  pattern_hostname : option string;
  pattern_port : option string;
  pattern_pathname : option string;
  pattern_search : option string;
}.

Definition lowerChar (c : ascii) : ascii :=
  let n := nat_of_ascii c in
  if (65 <=? n)%nat && (n <=? 90)%nat then ascii_of_nat (n + 32) else c.

Fixpoint toLowerCase (s : string) : string :=
  match s with
  | EmptyString => EmptyString
  | String c s' => String (lowerChar c) (toLowerCase s')
  end.

Definition stripQuestionMark (s : string) : string :=
  match s with
  | String "?"%char s' => s'
  | _ => s
  end.

(** An absent field matches anything; a present one is compared with the
    component after both went through [normal]. *)
Definition fieldMatches (normal : string → string) (field : option string)
    (component : string) : bool :=
  match field with
  | None => true
  | Some expected => bool_decide (normal expected = normal component)
  end.

(** Modelled from the spec: [matchUrlPattern] on a structured pattern,
    "each present field must equal the corresponding component of the
    request URL; hostname comparison is case-insensitive; search is
    compared with leading [?] stripped from both sides; absent fields are
    wildcards". *)
Definition matchUrlPattern (pattern : UrlPattern) (url : Url) : bool :=
  fieldMatches id (pattern_protocol pattern) (protocol url)
  && fieldMatches toLowerCase (pattern_hostname pattern) (hostname url)
  && fieldMatches id (pattern_port pattern) (port url)
  && fieldMatches id (pattern_pathname pattern) (pathname url)
  && fieldMatches stripQuestionMark (pattern_search pattern) (search url).

Definition anyUrl : UrlPattern :=
  {| pattern_protocol := None; pattern_hostname := None; pattern_port := None;
     pattern_pathname := None; pattern_search := None |}.

(** The URLs of [NetworkUtils.spec.ts], in components. *)
Definition web_platform_test (search : string) : Url :=
  {| protocol := "https"; hostname := "web-platform.test";
     port := EmptyString; pathname := "/"; search := search |}.

Definition example_test_333 (search : string) : Url :=
  {| protocol := "https"; hostname := "example.test"; port := "333";
     pathname := "/test"; search := search |}.

End NetworkUtils.

(** * Log helper

    [logHelper.ts] is not among the sources; [logHelper.spec.ts] is. *)
Module LogHelper.

(** The remote values of the model: the primitive ones, numbers being
    integers. *)
Inductive RemoteValue :=
  | UndefinedValue
  | NullValue
  | StringValue (value : string)
  | NumberValue (value : Z)
  | BooleanValue (value : bool).

(** The text of a value on its own, the [%s] column of the test table. *)
Definition stringFromArg (arg : RemoteValue) : string :=
  match arg with
  | UndefinedValue => "undefined"
  | NullValue => "null"
  | StringValue value => value
  | NumberValue value => pretty value
  | BooleanValue value => if value then "true" else "false"
  end.

(** [getRemoteValuesText(args, false)]: the texts joined by a space. *)
Definition getRemoteValuesText (args : list RemoteValue) : string :=
  String.concat " " (stringFromArg <$> args).

Inductive Token :=
  | Text (c : ascii)
  | Specifier (c : ascii).

Definition isSpecifier (c : ascii) : bool :=
  bool_decide (c ∈ ["s"; "d"; "i"; "f"; "o"; "O"; "c"]%char).

(** The format string cut at its specifiers, from left to right. *)
Fixpoint tokens (argFormat : string) : list Token :=
  match argFormat with
  | EmptyString => []
  | String a rest =>
      match rest with
      | String c rest' =>
          if bool_decide (a = "%"%char) && isSpecifier c
          then Specifier c :: tokens rest'
          else Text a :: tokens rest
      | EmptyString => [Text a]
      end
  end.

(** How many specifiers a token list holds. *)
Fixpoint specifiers (toks : list Token) : nat :=
  match toks with
  | [] => 0
  | Text _ :: toks' => specifiers toks'
  | Specifier _ :: toks' => S (specifiers toks')
  end.

Definition dquote : string := String "034"%char EmptyString.

Inductive Outcome :=
  | Returns (text : string)
  | Throws (message : string).

Section Formatter.
(** The conversion a specifier applies to the value it consumes: the
    normative table of the spec, of which the properties below use
    nothing. *)
Context (convert : ascii → RemoteValue → string).

(** The loop over the tokens: the output so far and the values left, or
    [None] when a specifier finds no value. *)
Fixpoint format (toks : list Token) (argValues : list RemoteValue)
    (output : string) : option (string * list RemoteValue) :=
  match toks with
  | [] => Some (output, argValues)
  | Text c :: toks' =>
      format toks' argValues (output +:+ String c EmptyString)
  | Specifier c :: toks' =>
      match argValues with
      | [] => None
      | arg :: argValues' => format toks' argValues' (output +:+ convert c arg)
      end
  end.

(** Modelled from the spec: [logMessageFormatter] on the arguments
    [StringValue argFormat :: argValues], "format specifiers in the first
    string argument consume successive remote values; too few values
    throws [less value is provided]; too many throws [more value is
    provided]".  The message is the one [logHelper.spec.ts] expects: the
    lead with a capital, then the text of all the arguments in quotes. *)
Definition logMessageFormatter (argFormat : string)
    (argValues : list RemoteValue) : Outcome :=
  let args := StringValue argFormat :: argValues in
  match format (tokens argFormat) argValues EmptyString with
  | None =>
      Throws ("Less value is provided: " +:+ dquote
              +:+ getRemoteValuesText args +:+ dquote)
  | Some (output, []) => Returns output
  | Some (output, _ :: _) =>
      Throws ("More value is provided: " +:+ dquote
              +:+ getRemoteValuesText args +:+ dquote)
  end.

End Formatter.

(** A conversion for the examples: every specifier prints the text of the
    value, which is what the test table expects of an integer. *)
Definition plainConvert (specifier : ascii) (arg : RemoteValue) : string :=
  stringFromArg arg.

(** [needle] occurs in [text]. *)
Fixpoint occurs (needle text : string) : bool :=
  String.prefix needle text
  || match text with
     | EmptyString => false
     | String _ text' => occurs needle text'
     end.

End LogHelper.

(** * Managers that calls can produce

    The managers reached from the empty one by calls of [subscribe] and
    [unsubscribeAll], and what they have in common. *)
Module Reachable.
Import SubscriptionManager.

(** No two subscriptions carry the same priority. *)
Definition prioritiesDistinct (s : SubscriptionManager) : Prop :=
  ∀ channel1 contextId1 event1 channel2 contextId2 event2 p,
    subscription s channel1 contextId1 event1 = Some p →
    subscription s channel2 contextId2 event2 = Some p →
    channel1 = channel2 ∧ contextId1 = contextId2 ∧ event1 = event2.

(** The context keys the channel's context map holds, emptied ones
    included. *)
Definition contextsOf (s : SubscriptionManager) (channel : option string)
    : gset (option string) :=
  dom (default ∅ (jm_get channel (channelToContextToEventMap s))).

Definition wellFormed (s : SubscriptionManager) : Prop :=
  NoDup (jm_keys (channelToContextToEventMap s))
  ∧ prioritiesBelowCounter s
  ∧ prioritiesDistinct s.

Section Reachable.
Context (protocol : Protocol) (browsingContextStorage : BrowsingContextStorage).

Inductive reachable : SubscriptionManager → Prop :=
  | reachable_empty : reachable empty_manager
  | reachable_subscribe fuel event contextId channel s s' :
      reachable s →
      subscribe protocol browsingContextStorage fuel event contextId channel s
      = Some s' →
      reachable s'
  | reachable_unsubscribeAll events contextIds channel s completion s' :
      reachable s →
      unsubscribeAll protocol browsingContextStorage events contextIds channel s
      = (completion, s') →
      reachable s'.

End Reachable.

End Reachable.

(** * [cartesianProduct] over any number of arrays

    [a.reduce((a, b) => a.flatMap((d) => b.map((e) => [d, e].flat())))]
    on JavaScript values: an element is an array or something else, and
    [flat()] splices the elements that are arrays, one level deep.
    [reduce] without an initial value throws a [TypeError] on an empty
    array ([None] here) and returns the only element of a one-element
    array as it is. *)
Module Variadic.

#[local] Unset Elimination Schemes.
Inductive Value (A : Type) : Type :=
  | Atom (a : A)
  | Array (items : list (Value A)).
#[local] Set Elimination Schemes.
Arguments Atom {A} a.
Arguments Array {A} items.

(** [Array.prototype.flat()] with the default depth 1. *)
Definition flat {A} (l : list (Value A)) : list (Value A) :=
  v ← l; match v with Array items => items | Atom _ => [v] end.

(** [Array.prototype.reduce(f)] without an initial value. *)
Definition reduce {T} (f : T → T → T) (a : list T) : option T :=
  match a with
  | [] => None
  | first :: rest => Some (foldl f first rest)
  end.

(** The callback: [(a, b) => a.flatMap((d) => b.map((e) => [d, e].flat()))]. *)
Definition step {A} (a b : list (Value A)) : list (Value A) :=
  d ← a; (λ e, Array (flat [d; e])) <$> b.

Definition cartesianProduct {A} (a : list (list (Value A)))
    : option (list (Value A)) :=
  reduce step a.

(** Reading aids: an array of values that are not arrays, such an array
    as a value, and the tuples over a list of lists, the first component
    changing slowest. *)
Definition atoms {A} (l : list A) : list (Value A) := Atom <$> l.

Definition tuple {A} (t : list A) : Value A := Array (atoms t).

Fixpoint tuples {A} (ls : list (list A)) : list (list A) :=
  match ls with
  | [] => [[]]
  | l :: ls => x ← l; (x ::.) <$> tuples ls
  end.

End Variadic.

(** * The report on the Web Platform Tests

    The functions of the report generator that work on strings and on the
    rows of a report.  A string is the sequence of its characters; the six
    characters [escapeHtml] looks for, and the separator [/], are ASCII,
    and no part of another character is taken for one of them. *)
Module WptReport.

(** [str.replace(/c/g, r)] for a single character [c]. *)
Fixpoint replaceAll (c : ascii) (r : string) (str : string) : string :=
  match str with
  | EmptyString => EmptyString
  | String a str' =>
      if decide (a = c) then r +:+ replaceAll c r str'
      else String a (replaceAll c r str')
  end.

Definition escapeHtml (str : string) : string :=
  replaceAll "/" "&#47;"
    (replaceAll "'" "&#39;"
       (replaceAll "034" "&quot;"
          (replaceAll ">" "&gt;"
             (replaceAll "<" "&lt;"
                (replaceAll "&" "&amp;" str))))).

(** Reading aids: the entity of one character, the characters of a
    string, and the characters [escapeHtml] replaces. *)
Definition escapeChar (a : ascii) : string :=
  if decide (a = "&"%char) then "&amp;"
  else if decide (a = "<"%char) then "&lt;"
  else if decide (a = ">"%char) then "&gt;"
  else if decide (a = "034"%char) then "&quot;"
  else if decide (a = "'"%char) then "&#39;"
  else if decide (a = "/"%char) then "&#47;"
  else String a EmptyString.

Fixpoint chars (str : string) : list ascii :=
  match str with
  | EmptyString => []
  | String a str' => a :: chars str'
  end.

Definition special : list ascii :=
  ["&"; "<"; ">"; "034"; "'"; "/"]%char.

(** [str.split(c)] for a single character [c]: the parts between the
    separators, at least one. *)
Fixpoint split (c : ascii) (str : string) : list string :=
  match str with
  | EmptyString => [EmptyString]
  | String a str' =>
      if decide (a = c) then EmptyString :: split c str'
      else match split c str' with
           | part :: parts => String a part :: parts
           | [] => [String a EmptyString]
           end
  end.

(** A result of the test run and its subtests, as [flattenSingleTest]
    reads them; a [message] that is [undefined] or [null] is [None]. *)
Record Subtest := {
  subtest_name : string;
  subtest_status : string;
  subtest_message : option string;
}.

Record Test := {
  test_test : string;
  test_status : string;
  test_message : option string;
  test_subtests : list Subtest;
}.

(** A row of the report: [{path, name, status, message}]. *)
Record Row := {
  path : string;
  name : option string;
  status : string;
  message : option string;
}.

Definition flattenSingleTest (test : Test) : list Row :=
  if decide (test_status test ≠ "OK" ∧ length (test_subtests test) = 0)
  then [{| path := test_test test; name := None;
           status := test_status test; message := test_message test |}]
  else (λ subtest,
          {| path := test_test test +:+ "/"
                     +:+ escapeHtml (subtest_name subtest);
             name := Some (subtest_name subtest);
             status := subtest_status subtest;
             message := subtest_message subtest |})
       <$> test_subtests test.

(** ** [groupTests]

    The tree of the rows by the parts of their paths.  A node is the
    object [{group, children, stat, test}]; [children] is a [Map] from a
    part to the node below, whose order of insertion is the order of the
    report.  The root is made with the counters [{all, pass}], every
    other node with [{total, passing}]; the counters are numbers of rows,
    which stay far below [2^53]. *)
Inductive Stat :=
  | RootStat (all pass : nat)
  | NodeStat (total passing : nat).

#[local] Unset Elimination Schemes.
Inductive PathMap :=
  | Node (group : string) (children : list (string * PathMap)) (stat : Stat)
      (test : option Row).
#[local] Set Elimination Schemes.

Definition group (map : PathMap) : string :=
  match map with Node group _ _ _ => group end.
Definition children (map : PathMap) : list (string * PathMap) :=
  match map with Node _ children _ _ => children end.
Definition stat (map : PathMap) : Stat :=
  match map with Node _ _ stat _ => stat end.
Definition test (map : PathMap) : option Row :=
  match map with Node _ _ _ test => test end.

(** [test.path.split('/')], without a leading empty part. *)
Definition partsOf (test : Row) : list string :=
  match split "/" (path test) with
  | EmptyString :: parts => parts
  | parts => parts
  end.

(** [stat.total++; stat.passing += test.status === 'PASS' ? 1 : 0], which
    only nodes below the root see. *)
Definition count (test : Row) (map : PathMap) : PathMap :=
  match map with
  | Node group children (NodeStat total passing) t =>
      Node group children
        (NodeStat (S total)
           (passing + if decide (status test = "PASS") then 1 else 0))
        t
  | Node _ _ (RootStat _ _) _ => map
  end.

(** The node [groupTests] makes for a part it has not seen. *)
Definition newNode (currentPath : string) : PathMap :=
  Node currentPath [] (NodeStat 0 0) None.

(** The inner loop of [groupTests], from the node [map] on with the parts
    still to go; [currentPath] is the path walked so far. *)
Fixpoint addTest (parts : list string) (currentPath : string) (t : Row)
    (map : PathMap) : PathMap :=
  match parts with
  | [] => Node (group map) (children map) (stat map) (Some t)
  | part :: parts =>
      let currentPath := currentPath +:+ "/" +:+ part in
      let children1 :=
        if jm_has part (children map) then children map
        else jm_set part (newNode currentPath) (children map) in
      let child := default (newNode currentPath) (jm_get part children1) in
      Node (group map)
        (jm_set part (addTest parts currentPath t (count t child)) children1)
        (stat map) (test map)
  end.

Definition pathMap (tests : list Row) : PathMap :=
  foldl (λ map t, addTest (partsOf t) "" t map)
    (Node "" [] (RootStat 0 0) None) tests.

(** What [mergeSingleChildren] returns: a row, or the object
    [{message: null, path, name: null, status: null, stat, children}]. *)
#[local] Unset Elimination Schemes.
Inductive Merged :=
  | Leaf (t : Row)
  | Group (path : string) (stat : Stat) (children : list Merged).
#[local] Set Elimination Schemes.

Fixpoint mergeSingleChildren (map : PathMap) : Merged :=
  match map with
  | Node group children stat (Some t) => Leaf t
  | Node group children stat None =>
      let merged :=
        Group group stat
          ((fix each (l : list (string * PathMap)) : list Merged :=
              match l with
              | [] => []
              | (_, child) :: l => mergeSingleChildren child :: each l
              end) children) in
      match children with
      | [(_, child)] =>
          match test child with
          | None => mergeSingleChildren child
          | Some _ => merged
          end
      | _ => merged
      end
  end.

Definition groupTests (tests : option (list Row)) : option Merged :=
  mergeSingleChildren ∘ pathMap <$> tests.

(** Reading aids: the node reached from [map] through the given parts,
    the path [groupTests] gives a node so reached, the groups and the rows
    of a result, and the rows below a path with those of them that
    pass. *)
Fixpoint descend (parts : list string) (map : PathMap) : option PathMap :=
  match parts with
  | [] => Some map
  | part :: parts => jm_get part (children map) ≫= descend parts
  end.

Definition pathFrom (currentPath : string) (parts : list string) : string :=
  foldl (λ currentPath part, currentPath +:+ "/" +:+ part) currentPath parts.

Fixpoint groupsOf (m : Merged) : list (string * Stat) :=
  match m with
  | Leaf _ => []
  | Group path stat children =>
      (path, stat)
      :: (fix each (l : list Merged) : list (string * Stat) :=
            match l with
            | [] => []
            | m :: l => groupsOf m ++ each l
            end) children
  end.

Fixpoint rowsOf (m : Merged) : list Row :=
  match m with
  | Leaf t => [t]
  | Group _ _ children =>
      (fix each (l : list Merged) : list Row :=
         match l with
         | [] => []
         | m :: l => rowsOf m ++ each l
         end) children
  end.

(** Induction on a tree, with the property at hand for the children. *)
Fixpoint PathMap_ind (P : PathMap → Prop)
    (step : ∀ group children stat test,
       Forall (λ kv, P kv.2) children → P (Node group children stat test))
    (map : PathMap) : P map :=
  match map with
  | Node group children stat test =>
      step group children stat test
        ((fix each (l : list (string * PathMap)) : Forall (λ kv, P kv.2) l :=
            match l with
            | [] => List.Forall_nil (λ kv, P kv.2)
            | (part, child) :: l =>
                List.Forall_cons (λ kv, P kv.2) (part, child) l
                  (PathMap_ind P step child) (each l)
            end) children)
  end.

Definition below (parts : list string) (tests : list Row) : list Row :=
  filter (λ t, parts `prefix_of` partsOf t) tests.

Definition passing (tests : list Row) : list Row :=
  filter (λ t, status t = "PASS") tests.

Definition withParts (parts : list string) (tests : list Row) : list Row :=
  filter (λ t, partsOf t = parts) tests.

(** What a node shows, and what the node of a path is to show for the
    rows read so far: nothing when no row is below the path, otherwise
    the path, the numbers of the rows below it and the last row that
    ended there. *)
Definition view (map : PathMap) : string * Stat * option Row :=
  (group map, stat map, test map).

Definition expected (tests : list Row) (parts : list string)
    : option (string * Stat * option Row) :=
  match below parts tests with
  | [] => None
  | _ =>
      Some (pathFrom "" parts,
            NodeStat (length (below parts tests))
              (length (passing (below parts tests))),
            last (withParts parts tests))
  end.

Definition counted (tests : list Row) (root : PathMap) : Prop :=
  group root = ""
  ∧ stat root = RootStat 0 0
  ∧ test root = last (withParts [] tests)
  ∧ (∀ parts, parts ≠ [] → view <$> descend parts root = expected tests parts)
  ∧ (∀ parts map,
       descend parts root = Some map → NoDup (jm_keys (children map))).

(** The row [t] ends at [parts] below [map] and no row ends above it on
    the way; [map'] is found at [parts] below [map] and each node on the
    way has no row and no other child. *)
Fixpoint shown (parts : list string) (map : PathMap) (t : Row) : Prop :=
  match parts with
  | [] => test map = Some t
  | part :: parts =>
      test map = None
      ∧ ∃ child, jm_get part (children map) = Some child
                 ∧ shown parts child t
  end.

(** Every node below has its children under distinct parts. *)
Definition distinctParts (map : PathMap) : Prop :=
  ∀ parts map', descend parts map = Some map' →
    NoDup (jm_keys (children map')).

Fixpoint onlyWay (parts : list string) (map map' : PathMap) : Prop :=
  match parts with
  | [] => map' = map
  | part :: parts =>
      test map = None
      ∧ ∃ child, children map = [(part, child)] ∧ onlyWay parts child map'
  end.

(** The nodes below [map], which stands at the path [above], hold the last
    row that ended at each of them, and every path with a row below it has
    its node. *)
Definition tracks (tests : list Row) (above : list string) (map : PathMap)
    : Prop :=
  (∀ parts map', descend parts map = Some map' →
     test map' = last (withParts (above ++ parts) tests))
  ∧ (∀ parts, below (above ++ parts) tests ≠ [] → is_Some (descend parts map)).

End WptReport.

(** * Facts about the insertion-ordered map *)
Section JsMapFacts.
Context {K V : Type} `{EqDecision K}.
Implicit Types (k : K) (v : V) (m : list (K * V)).

Lemma jm_has_true k m : jm_has k m = true ↔ is_Some (jm_get k m).
Proof. unfold jm_has. by rewrite bool_decide_eq_true. Qed.

Lemma jm_has_false k m : jm_has k m = false ↔ jm_get k m = None.
Proof.
  unfold jm_has. rewrite bool_decide_eq_false, eq_None_not_Some. done.
Qed.

Lemma jm_get_set_eq k v m : jm_get k (jm_set k v m) = Some v.
Proof.
  induction m as [|[k' v'] m IH]; simpl; repeat case_decide; simpl;
    repeat case_decide; congruence.
Qed.

Lemma jm_get_set_ne k k' v m : k ≠ k' → jm_get k' (jm_set k v m) = jm_get k' m.
Proof.
  intros Hne. induction m as [|[k2 v2] m IH]; simpl; repeat case_decide; simpl;
    repeat case_decide; congruence.
Qed.

Lemma jm_set_id k v m : jm_get k m = Some v → jm_set k v m = m.
Proof.
  induction m as [|[k' v'] m IH]; simpl; [done|].
  case_decide; intros Hg; [congruence|]. by rewrite IH.
Qed.

Lemma jm_set_set k v v' m : jm_set k v (jm_set k v' m) = jm_set k v m.
Proof.
  induction m as [|[k2 v2] m IH]; simpl; repeat case_decide; simpl;
    repeat case_decide; congruence.
Qed.

Lemma jm_keys_get k m : k ∈ jm_keys m ↔ is_Some (jm_get k m).
Proof.
  unfold jm_keys. induction m as [|[k' v'] m IH]; simpl.
  - rewrite elem_of_nil. split; [done|]. by intros [? ?].
  - rewrite elem_of_cons, IH. case_decide; [|tauto]. split; eauto.
Qed.

Lemma jm_keys_set_present k v m :
  is_Some (jm_get k m) → jm_keys (jm_set k v m) = jm_keys m.
Proof.
  unfold jm_keys. induction m as [|[k' v'] m IH]; simpl.
  - by intros [? ?].
  - case_decide; simpl; [by subst|]. intros Hs. f_equal. by apply IH.
Qed.

Lemma jm_keys_set_absent k v m :
  jm_get k m = None → jm_keys (jm_set k v m) = jm_keys m ++ [k].
Proof.
  unfold jm_keys. induction m as [|[k' v'] m IH]; simpl; [done|].
  case_decide; [done|]. intros Hg. simpl. f_equal. by apply IH.
Qed.

Lemma jm_keys_delete_subseteq k m : jm_keys (jm_delete k m) ⊆ jm_keys m.
Proof.
  unfold jm_keys. induction m as [|[k' v'] m IH]; simpl; [done|].
  case_decide; simpl; intros x Hx.
  - apply elem_of_cons. by right.
  - apply elem_of_cons in Hx as [->|Hx]; apply elem_of_cons; [by left|].
    right. by apply IH.
Qed.

Lemma jm_get_delete_ne k k' m : k ≠ k' → jm_get k' (jm_delete k m) = jm_get k' m.
Proof.
  intros Hne. induction m as [|[k2 v2] m IH]; simpl; [done|].
  repeat (case_decide; simpl); congruence.
Qed.

Lemma jm_get_delete_eq k m : NoDup (jm_keys m) → jm_get k (jm_delete k m) = None.
Proof.
  unfold jm_keys. induction m as [|[k' v'] m IH]; simpl; [done|].
  rewrite NoDup_cons. intros [Hni Hnd]. case_decide; simpl.
  - subst. apply eq_None_not_Some. by rewrite <-jm_keys_get.
  - case_decide; [done|]. auto.
Qed.

Lemma jm_keys_set_NoDup k v m : NoDup (jm_keys m) → NoDup (jm_keys (jm_set k v m)).
Proof.
  intros Hnd. destruct (jm_get k m) as [v'|] eqn:Hg.
  - by rewrite jm_keys_set_present.
  - rewrite jm_keys_set_absent by done. apply NoDup_app. split; [done|].
    split; [|apply NoDup_singleton].
    intros x Hx ->%list_elem_of_singleton. apply jm_keys_get in Hx.
    rewrite Hg in Hx. by destruct Hx.
Qed.

Lemma jm_keys_delete_NoDup k m : NoDup (jm_keys m) → NoDup (jm_keys (jm_delete k m)).
Proof.
  unfold jm_keys. induction m as [|[k' v'] m IH]; simpl; [done|].
  rewrite NoDup_cons. intros [Hni Hnd]. case_decide; simpl; [done|].
  apply NoDup_cons. split; [|auto].
  intros Hin. apply Hni. by apply (jm_keys_delete_subseteq k m).
Qed.

End JsMapFacts.

(** * [unrollEvents] *)
Section UnrollFacts.
Import SubscriptionManager.
Context (protocol : Protocol).

Lemma elem_of_set_add x y s : x ∈ set_add y s ↔ x = y ∨ x ∈ s.
Proof.
  unfold set_add. case_decide as Hin.
  - split; [by right|]. by intros [->|?].
  - rewrite elem_of_app, list_elem_of_singleton. tauto.
Qed.

Lemma NoDup_set_add y s : NoDup s → NoDup (set_add y s).
Proof.
  unfold set_add. case_decide as Hin; [done|]. intros Hnd.
  apply NoDup_app. split; [done|]. split; [|apply NoDup_singleton].
  by intros x Hx ->%list_elem_of_singleton.
Qed.

Lemma elem_of_addEvents x events allEvents :
  x ∈ addEvents events allEvents ↔ x ∈ allEvents ∨ x ∈ events.
Proof.
  unfold addEvents. revert allEvents.
  induction events as [|e events IH]; intros allEvents; simpl.
  - rewrite elem_of_nil. tauto.
  - rewrite IH, elem_of_set_add, elem_of_cons. tauto.
Qed.

Lemma NoDup_addEvents events allEvents :
  NoDup allEvents → NoDup (addEvents events allEvents).
Proof.
  unfold addEvents. revert allEvents.
  induction events as [|e events IH]; intros allEvents Hnd; simpl; [done|].
  by apply IH, NoDup_set_add.
Qed.

(** Each round of the loop adds what [expand] lists. *)
Lemma unrollEvents_foldl events :
  unrollEvents protocol events
  = foldl (λ allEvents event, addEvents (expand protocol event) allEvents)
      [] events.
Proof.
  unfold unrollEvents. generalize (@nil string).
  induction events as [|e events IH]; intros acc; simpl; [done|].
  rewrite <-IH. f_equal. unfold expand. by repeat case_decide.
Qed.

Lemma elem_of_unroll_from x events acc :
  x ∈ foldl (λ allEvents event, addEvents (expand protocol event) allEvents)
        acc events
  ↔ x ∈ acc ∨ ∃ event, event ∈ events ∧ x ∈ expand protocol event.
Proof.
  revert acc. induction events as [|e events IH]; intros acc; simpl.
  - split; [by left|]. intros [?|(? & []%elem_of_nil & _)]. done.
  - rewrite IH, elem_of_addEvents. split.
    + intros [[?|?]|(e' & ? & ?)]; [by left| |].
      * right. exists e. rewrite elem_of_cons. by split; [left|].
      * right. exists e'. rewrite elem_of_cons. by split; [right|].
    + intros [?|(e' & [->|?]%elem_of_cons & ?)]; [by left; left|by left; right|].
      right. by exists e'.
Qed.

Lemma elem_of_unrollEvents x events :
  x ∈ unrollEvents protocol events
  ↔ ∃ event, event ∈ events ∧ x ∈ expand protocol event.
Proof.
  rewrite unrollEvents_foldl, elem_of_unroll_from, elem_of_nil. tauto.
Qed.

Lemma NoDup_unrollEvents events : NoDup (unrollEvents protocol events).
Proof.
  rewrite unrollEvents_foldl. generalize (NoDup_nil_2 (A:=string)).
  generalize (@nil string).
  induction events as [|e events IH]; intros acc Hnd; simpl; [done|].
  by apply IH, NoDup_addEvents.
Qed.

Lemma expand_atomic event : ¬ isGroup protocol event → expand protocol event = [event].
Proof.
  unfold isGroup, expand. intros Hng. repeat case_decide; tauto.
Qed.

Lemma expand_group_ne group event :
  isGroup protocol group → ¬ isGroup protocol event → group ≠ event.
Proof. intros Hg Hng ->. done. Qed.

(** C10. [unrollEvents] lists every event once, whatever the input repeats:
    the result has no duplicates; it holds the same events as the result
    for the input with its duplicates removed; and when the input holds a
    group together with an atomic event of that group's table, it holds
    the same events as the result for the input without that atomic
    event. *)
Theorem unrollEvents_ignores_repeats (events : list string) :
  NoDup (unrollEvents protocol events)
  ∧ unrollEvents protocol events ≡ₚ unrollEvents protocol (remove_dups events)
  ∧ ∀ group event,
      isGroup protocol group → ¬ isGroup protocol event →
      event ∈ expand protocol group → group ∈ events →
      unrollEvents protocol events
      ≡ₚ unrollEvents protocol (filter (λ e, e ≠ event) events).
Proof.
  split; [apply NoDup_unrollEvents|]. split.
  - apply NoDup_Permutation; [apply NoDup_unrollEvents..|].
    intros x. rewrite !elem_of_unrollEvents.
    by setoid_rewrite elem_of_remove_dups.
  - intros group event Hg Hng Hin Hgin.
    apply NoDup_Permutation; [apply NoDup_unrollEvents..|].
    intros x. rewrite !elem_of_unrollEvents.
    setoid_rewrite list_elem_of_filter. split.
    + intros (e & He & Hx). destruct (decide (e = event)) as [->|Hne].
      * rewrite expand_atomic in Hx by done.
        apply list_elem_of_singleton in Hx as ->.
        exists group. split; [|done]. split; [|done].
        by apply expand_group_ne.
      * by exists e.
    + intros (e & [_ He] & Hx). by exists e.
Qed.

End UnrollFacts.

(** * [subscribe] *)
Section SubscribeFacts.
Import SubscriptionManager.
Context (protocol : Protocol) (storage : BrowsingContextStorage).
Implicit Types (s : SubscriptionManager) (channel contextId : option string).
Implicit Types (event : string).

Lemma subscription_default s channel contextId event :
  subscription s channel contextId event
  = default ∅ (default ∅ (jm_get channel (channelToContextToEventMap s))
                 !! contextId) !! event.
Proof.
  unfold subscription.
  destruct (jm_get channel _) as [cm|]; simpl; [|by rewrite !lookup_empty].
  destruct (cm !! contextId) as [em|]; simpl; [done|by rewrite lookup_empty].
Qed.

(** The outer map after [subscribeAtomic], in one formula. *)
Lemma subscribeAtomic_outer event contextId channel s :
  let cm := default ∅ (jm_get channel (channelToContextToEventMap s)) in
  let em := default ∅ (cm !! contextId) in
  channelToContextToEventMap (subscribeAtomic event contextId channel s)
  = jm_set channel
      (<[contextId :=
           if decide (is_Some (em !! event)) then em
           else <[event := subscriptionPriority s]> em]> cm)
      (channelToContextToEventMap s).
Proof.
  intros cm em. unfold subscribeAtomic.
  set (outer0 := channelToContextToEventMap s) in *.
  assert (default ∅ (jm_get channel
            (if jm_has channel outer0 then outer0 else jm_set channel ∅ outer0))
          = cm) as Hcm.
  { subst cm. destruct (jm_has channel outer0) eqn:Hhas; [done|].
    apply jm_has_false in Hhas. by rewrite jm_get_set_eq, Hhas. }
  rewrite Hcm.
  assert (∀ x : gmap (option string) (gmap string N),
            jm_set channel x
              (if jm_has channel outer0 then outer0 else jm_set channel ∅ outer0)
            = jm_set channel x outer0) as Hset.
  { intros x. destruct (jm_has channel outer0); [done|apply jm_set_set]. }
  assert ((if decide (is_Some (cm !! contextId)) then cm
           else <[contextId := ∅]> cm) = <[contextId := em]> cm) as Hctx.
  { subst em. case_decide as Hs.
    - destruct Hs as [x Hx]. rewrite Hx. simpl. by rewrite insert_id.
    - apply eq_None_not_Some in Hs. by rewrite Hs. }
  rewrite Hctx, lookup_insert_eq. simpl. clear Hctx Hcm.
  destruct (decide (is_Some (em !! event))); simpl; rewrite Hset; [done|].
  by rewrite insert_insert_eq.
Qed.

Lemma subscribeAtomic_priority event contextId channel s :
  subscriptionPriority (subscribeAtomic event contextId channel s)
  = if decide (is_Some (subscription s channel contextId event))
    then subscriptionPriority s
    else next_priority (subscriptionPriority s).
Proof.
  rewrite subscription_default. unfold subscribeAtomic.
  set (outer0 := channelToContextToEventMap s) in *.
  assert (default ∅ (jm_get channel
            (if jm_has channel outer0 then outer0 else jm_set channel ∅ outer0))
          = default ∅ (jm_get channel outer0)) as ->.
  { destruct (jm_has channel outer0) eqn:Hhas; [done|].
    apply jm_has_false in Hhas. by rewrite jm_get_set_eq, Hhas. }
  set (cm := default ∅ (jm_get channel outer0)).
  assert (default ∅ ((if decide (is_Some (cm !! contextId)) then cm
                      else <[contextId := ∅]> cm) !! contextId)
          = default ∅ (cm !! contextId)) as ->.
  { case_decide as Hs; [done|]. apply eq_None_not_Some in Hs.
    by rewrite lookup_insert_eq, Hs. }
  by repeat case_decide.
Qed.

(** What [subscribeAtomic] leaves recorded: the entry it was called for
    keeps its priority or gets the counter's value, every other entry is
    as before. *)
Lemma subscription_subscribeAtomic event contextId channel s channel' contextId' event' :
  subscription (subscribeAtomic event contextId channel s) channel' contextId' event'
  = if decide (channel' = channel ∧ contextId' = contextId ∧ event' = event)
    then Some (default (subscriptionPriority s)
                 (subscription s channel contextId event))
    else subscription s channel' contextId' event'.
Proof.
  rewrite !subscription_default, subscribeAtomic_outer. simpl.
  set (cm := default ∅ (jm_get channel (channelToContextToEventMap s))).
  set (em := default ∅ (cm !! contextId)).
  destruct (decide (channel' = channel)) as [->|Hch].
  - rewrite jm_get_set_eq. simpl. fold cm.
    destruct (decide (contextId' = contextId)) as [->|Hctx].
    + rewrite lookup_insert_eq. simpl. fold em.
      destruct (decide (event' = event)) as [->|Hev].
      * destruct (decide (_ ∧ _ ∧ _)) as [_|Hn]; [|by destruct Hn].
        case_decide as Hs; [by destruct Hs as [p ->]|].
        apply eq_None_not_Some in Hs. by rewrite lookup_insert_eq, Hs.
      * destruct (decide (_ ∧ _ ∧ _)) as [(_ & _ & ?)|_]; [done|].
        case_decide; [done|]. by rewrite lookup_insert_ne.
    + destruct (decide (_ ∧ _ ∧ _)) as [(_ & ? & _)|_]; [done|].
      by rewrite lookup_insert_ne.
  - destruct (decide (_ ∧ _ ∧ _)) as [(? & _ & _)|_]; [done|].
    by rewrite jm_get_set_ne.
Qed.

Lemma subscribeAtomic_subscribed event contextId channel s :
  is_Some (subscription s channel contextId event) →
  subscribeAtomic event contextId channel s = s.
Proof.
  intros Hs.
  pose proof (subscribeAtomic_outer event contextId channel s) as Ho.
  pose proof (subscribeAtomic_priority event contextId channel s) as Hp.
  rewrite decide_True in Hp by done. simpl in Ho.
  rewrite subscription_default in Hs. rewrite decide_True in Ho by done.
  destruct (subscribeAtomic event contextId channel s) as [p' o'].
  destruct s as [p o]. simpl in *. subst p'. f_equal. rewrite Ho. clear Ho.
  destruct (jm_get channel o) as [cm|] eqn:Hcm; simpl in *;
    [|by rewrite !lookup_empty in Hs; destruct Hs].
  destruct (cm !! contextId) as [em|] eqn:Hem; simpl in *;
    [|by rewrite lookup_empty in Hs; destruct Hs].
  rewrite insert_id by done. by apply jm_set_id.
Qed.

Lemma subscribeAtomic_extends event contextId channel s :
  extends s (subscribeAtomic event contextId channel s).
Proof.
  intros ch k e p Hp. rewrite subscription_subscribeAtomic.
  case_decide as Heq; [|done]. destruct Heq as (-> & -> & ->).
  by rewrite Hp.
Qed.

Lemma subscribeAtomic_records event contextId channel s :
  is_Some (subscription (subscribeAtomic event contextId channel s)
             channel contextId event).
Proof.
  rewrite subscription_subscribeAtomic.
  destruct (decide (_ ∧ _ ∧ _)) as [_|Hn]; [eauto|by destruct Hn].
Qed.

Lemma extends_refl s : extends s s.
Proof. by intros ch k e p. Qed.

Lemma extends_trans s1 s2 s3 : extends s1 s2 → extends s2 s3 → extends s1 s3.
Proof. intros H12 H23 ch k e p Hp. by apply H23, H12. Qed.

(** The calls [subscribe] makes for the names of a table. *)
Local Abbreviation each fuel names contextId channel s :=
  (foldl (λ acc specificEvent,
            acc ≫= subscribe protocol storage fuel specificEvent contextId channel)
         (Some s) names).

Lemma subscribe_atomic fuel event contextId channel s :
  ¬ isGroup protocol event →
  subscribe protocol storage (S fuel) event contextId channel s
  = Some (subscribeAtomic event (findTopLevelContextId storage contextId)
            channel s).
Proof.
  unfold isGroup. intros Hng. simpl. repeat case_decide; tauto.
Qed.

Lemma subscribe_group fuel event contextId channel s :
  isGroup protocol event →
  subscribe protocol storage (S fuel) event contextId channel s
  = each fuel (expand protocol event)
      (findTopLevelContextId storage contextId) channel s.
Proof.
  unfold isGroup, expand. intros Hg. simpl. repeat case_decide; tauto.
Qed.

Lemma isGroup_dec event : Decision (isGroup protocol event).
Proof. unfold isGroup. apply _. Defined.

Lemma each_None {A} (f : string → A → option A) names :
  foldl (λ acc x, acc ≫= f x) None names = None.
Proof. induction names as [|x names IH]; simpl; done. Qed.

(** A call that returns only adds subscriptions, and made again on any
    manager that holds what it left, it changes nothing. *)
Lemma subscribe_again fuel :
  ∀ event contextId channel s s1,
    subscribe protocol storage fuel event contextId channel s = Some s1 →
    extends s s1
    ∧ ∀ s2, extends s1 s2 →
        subscribe protocol storage fuel event contextId channel s2 = Some s2.
Proof.
  induction fuel as [|fuel IH]; intros event contextId channel s s1 Hs1;
    [done|].
  destruct (isGroup_dec event) as [Hg|Hng].
  - rewrite subscribe_group in Hs1 by done.
    setoid_rewrite (subscribe_group _ _ _ _ _ Hg).
    revert Hs1. generalize (findTopLevelContextId storage contextId).
    generalize (expand protocol event). clear Hg contextId event.
    intros names k. revert s.
    induction names as [|ev names IHn]; intros s Hs1; simpl in *.
    + injection Hs1 as <-. split; [apply extends_refl|done].
    + destruct (subscribe protocol storage fuel ev k channel s) as [s'|] eqn:Hev;
        simpl in Hs1; [|by rewrite each_None in Hs1].
      destruct (IH _ _ _ _ _ Hev) as [Hext Hagain].
      destruct (IHn _ Hs1) as [Hext' Hagain'].
      split; [by eapply extends_trans|].
      intros s2 H12. rewrite Hagain by (by eapply extends_trans). simpl.
      by apply Hagain'.
  - rewrite subscribe_atomic in Hs1 by done. injection Hs1 as <-.
    split; [apply subscribeAtomic_extends|].
    intros s2 H12. rewrite subscribe_atomic by done. f_equal.
    apply subscribeAtomic_subscribed.
    destruct (subscribeAtomic_records event
                (findTopLevelContextId storage contextId) channel s) as [p Hp].
    exists p. by apply H12.
Qed.

Lemma expand_group_atomic event :
  tablesAtomic protocol → isGroup protocol event →
  Forall (λ e, ¬ isGroup protocol e) (expand protocol event).
Proof.
  unfold tablesAtomic, expand. rewrite !Forall_app.
  intros (? & ? & ? & ?) Hg. repeat case_decide; try done.
  unfold isGroup in Hg. tauto.
Qed.

Lemma each_atomic fuel names contextId channel s :
  Forall (λ e, ¬ isGroup protocol e) names →
  is_Some (each (S fuel) names contextId channel s).
Proof.
  intros Hall. revert s. induction Hall as [|ev names Hev _ IH]; intros s.
  - by eexists.
  - cbn [foldl mbind option_bind]. rewrite subscribe_atomic by done. apply IH.
Qed.

(** With tables of atomic names two levels of calls are all there is. *)
Lemma subscribe_returns (fuel : nat) event contextId channel s :
  tablesAtomic protocol → (2 ≤ fuel)%nat →
  is_Some (subscribe protocol storage fuel event contextId channel s).
Proof.
  intros Htab Hfuel. destruct fuel as [|[|fuel]]; [lia..|].
  destruct (isGroup_dec event) as [Hg|Hng].
  - rewrite subscribe_group by done. by apply each_atomic, expand_group_atomic.
  - rewrite subscribe_atomic by done. by eexists.
Qed.

(** C3. A second [subscribe] with the same arguments, right after the
    first, returns the manager the first one left: nothing is added and
    every priority, the one the first call recorded among them, stays.
    With tables of atomic names the call returns for any fuel of at
    least two. *)
Theorem subscribe_twice event contextId channel s :
  (∀ fuel s1,
     subscribe protocol storage fuel event contextId channel s = Some s1 →
     subscribe protocol storage fuel event contextId channel s1 = Some s1)
  ∧ (tablesAtomic protocol → ∀ fuel : nat, (2 ≤ fuel)%nat →
     is_Some (subscribe protocol storage fuel event contextId channel s)).
Proof.
  split.
  - intros fuel s1 Hs1. destruct (subscribe_again _ _ _ _ _ _ Hs1) as [_ Hagain].
    apply Hagain, extends_refl.
  - intros Htab fuel Hfuel. by apply subscribe_returns.
Qed.

(** ** What every manager built by [subscribe] satisfies *)

Lemma subscribeAtomic_keys_NoDup event contextId channel s :
  NoDup (jm_keys (channelToContextToEventMap s)) →
  NoDup (jm_keys (channelToContextToEventMap
                    (subscribeAtomic event contextId channel s))).
Proof.
  intros Hnd. rewrite subscribeAtomic_outer. by apply jm_keys_set_NoDup.
Qed.

Lemma subscribe_keys_NoDup fuel :
  ∀ event contextId channel s s1,
    subscribe protocol storage fuel event contextId channel s = Some s1 →
    NoDup (jm_keys (channelToContextToEventMap s)) →
    NoDup (jm_keys (channelToContextToEventMap s1)).
Proof.
  induction fuel as [|fuel IH]; intros event contextId channel s s1 Hs1 Hnd;
    [done|].
  destruct (isGroup_dec event) as [Hg|Hng].
  - rewrite subscribe_group in Hs1 by done.
    revert Hs1. generalize (findTopLevelContextId storage contextId).
    generalize (expand protocol event). intros names k. revert s Hnd.
    induction names as [|ev names IHn]; intros s Hnd Hs1; simpl in *.
    + by injection Hs1 as <-.
    + destruct (subscribe protocol storage fuel ev k channel s) as [s'|] eqn:Hev;
        simpl in Hs1; [|by rewrite each_None in Hs1].
      apply (IHn s'); [by eapply IH|done].
  - rewrite subscribe_atomic in Hs1 by done. injection Hs1 as <-.
    by apply subscribeAtomic_keys_NoDup.
Qed.

(** A new subscription gets the counter's value, which is above every
    priority recorded so far: later subscriptions compare higher.  The
    counter is an exact integer below [2^53]. *)
Lemma subscribeAtomic_newer event contextId channel s :
  prioritiesBelowCounter s →
  subscription s channel contextId event = None →
  subscription (subscribeAtomic event contextId channel s)
    channel contextId event
  = Some (subscriptionPriority s)
  ∧ ∀ channel' contextId' event' p,
      subscription s channel' contextId' event' = Some p →
      (p < subscriptionPriority s)%N.
Proof.
  intros Hbelow Hnone. split; [|exact Hbelow].
  rewrite subscription_subscribeAtomic, Hnone.
  by destruct (decide (_ ∧ _ ∧ _)) as [_|Hn]; [|destruct Hn].
Qed.

Lemma subscribeAtomic_below event contextId channel s :
  (subscriptionPriority s < 2 ^ 53)%N →
  prioritiesBelowCounter s →
  prioritiesBelowCounter (subscribeAtomic event contextId channel s).
Proof.
  intros Hrange Hbelow ch k e p. rewrite subscription_subscribeAtomic.
  rewrite subscribeAtomic_priority. unfold next_priority.
  destruct (decide (is_Some (subscription s channel contextId event)))
    as [[q Hq]|Hnone].
  - rewrite Hq. simpl. destruct (decide (_ ∧ _ ∧ _)) as [_|_].
    + intros [= <-]. by eapply Hbelow.
    + apply Hbelow.
  - apply eq_None_not_Some in Hnone. rewrite Hnone. simpl.
    destruct (decide (_ ∧ _ ∧ _)) as [_|_].
    + intros [= <-]. case_decide; lia.
    + intros Hp. apply Hbelow in Hp. case_decide; lia.
Qed.

End SubscribeFacts.

(** * [getChannelsSubscribedToEvent] *)
Section ChannelFacts.
Import SubscriptionManager.
Context (storage : BrowsingContextStorage).
Implicit Types (s : SubscriptionManager) (channel contextId : option string).
Implicit Types (l : list (N * option string)).

Local Abbreviation byPriority :=
  (λ a b : N * option string, (a.1 ≤ b.1)%N).

Lemma insert_by_priority_perm x l : insert_by_priority x l ≡ₚ x :: l.
Proof.
  induction l as [|y l IH]; simpl; [done|]. case_decide; [done|].
  rewrite IH. apply Permutation_swap.
Qed.

Lemma sort_by_priority_perm l : sort_by_priority l ≡ₚ l.
Proof.
  induction l as [|x l IH]; simpl; [done|].
  by rewrite insert_by_priority_perm, IH.
Qed.

Lemma insert_by_priority_sorted x l :
  StronglySorted byPriority l → StronglySorted byPriority (insert_by_priority x l).
Proof.
  induction l as [|y l IH]; simpl; intros Hs.
  - apply StronglySorted_cons. split; [by apply Forall_nil|done].
  - apply StronglySorted_cons in Hs as [Hy Hs]. case_decide as Hle.
    + apply StronglySorted_cons. split; [|by apply StronglySorted_cons].
      apply Forall_cons. split; [done|].
      eapply Forall_impl; [exact Hy|]. simpl. intros z Hz. lia.
    + apply StronglySorted_cons. split; [|by apply IH].
      rewrite insert_by_priority_perm. apply Forall_cons. split; [lia|done].
Qed.

Lemma sort_by_priority_sorted l : StronglySorted byPriority (sort_by_priority l).
Proof.
  induction l as [|x l IH]; simpl; [constructor|].
  by apply insert_by_priority_sorted.
Qed.

(** In a list sorted by priority the entry of the strictly smaller
    priority comes first. *)
Lemma sorted_before l (a b : N * option string) :
  StronglySorted byPriority l → a ∈ l → b ∈ l → (a.1 < b.1)%N →
  before a.2 b.2 l.*2.
Proof.
  intros Hs Ha Hb Hlt.
  apply list_elem_of_split in Ha as (l1 & l2 & ->).
  apply StronglySorted_app in Hs as (Hcross & _ & Hs2).
  apply StronglySorted_cons in Hs2 as [Ha2 _].
  apply elem_of_app in Hb as [Hb|Hb].
  - assert (b.1 ≤ a.1)%N as Hba; [|lia].
    apply (Hcross b a Hb). apply elem_of_cons. by left.
  - apply elem_of_cons in Hb as [->|Hb]; [lia|].
    apply list_elem_of_split in Hb as (l2a & l2b & ->).
    exists l1.*2, l2a.*2, l2b.*2.
    by rewrite fmap_app, fmap_cons, fmap_app, fmap_cons.
Qed.

(** The priority of a channel is the least of those that apply. *)
Lemma getEventSubscriptionPriorityForChannel_Some s eventMethod contextId channel p :
  getEventSubscriptionPriorityForChannel storage s eventMethod contextId channel
  = Some p
  ↔ leastApplying storage s eventMethod contextId channel p.
Proof.
  unfold getEventSubscriptionPriorityForChannel, leastApplying, applies,
    subscription.
  destruct (jm_get channel _) as [cm|]; simpl.
  2: { split; [done|]. by intros [(k & _ & ?) _]. }
  destruct (findTopLevelContextId storage contextId) as [top|]; simpl.
  - destruct (cm !! None ≫= (.!! eventMethod)) as [p1|] eqn:H1;
      destruct (cm !! Some top ≫= (.!! eventMethod)) as [p2|] eqn:H2; simpl.
    + unfold minimum; simpl. split.
      * intros [= <-]. split.
        -- destruct (N.min_spec p1 p2) as [[_ ->]|[_ ->]]; eauto.
        -- intros q (k & [-> | ->] & Hq); rewrite ?H1, ?H2 in Hq;
             injection Hq as <-; lia.
      * intros [(k & Hk & Hp) Hleast]. f_equal.
        assert (p ≤ p1)%N by (apply Hleast; eauto).
        assert (p ≤ p2)%N by (apply Hleast; eauto).
        destruct Hk as [-> | ->]; rewrite ?H1, ?H2 in Hp; injection Hp as <-; lia.
    + unfold minimum; simpl. split.
      * intros [= <-]. split; [eauto|].
        intros q (k & [-> | ->] & Hq); rewrite ?H1, ?H2 in Hq; [|done].
        injection Hq as <-. lia.
      * intros [(k & [-> | ->] & Hp) _]; rewrite ?H1, ?H2 in Hp; done.
    + unfold minimum; simpl. split.
      * intros [= <-]. split; [eauto|].
        intros q (k & [-> | ->] & Hq); rewrite ?H1, ?H2 in Hq; [done|].
        injection Hq as <-. lia.
      * intros [(k & [-> | ->] & Hp) _]; rewrite ?H1, ?H2 in Hp; done.
    + split; [done|].
      intros [(k & [-> | ->] & Hp) _]; rewrite ?H1, ?H2 in Hp; done.
  - destruct (cm !! None ≫= (.!! eventMethod)) as [p1|] eqn:H1; simpl.
    + unfold minimum; simpl. split.
      * intros [= <-]. split; [eauto|].
        intros q (k & [-> | ->] & Hq); rewrite H1 in Hq; injection Hq as <-; lia.
      * intros [(k & [-> | ->] & Hp) _]; rewrite H1 in Hp; done.
    + split; [done|].
      intros [(k & [-> | ->] & Hp) _]; rewrite H1 in Hp; done.
Qed.

Lemma elem_of_prioritiesAndChannels s eventMethod contextId p channel :
  (p, channel) ∈ prioritiesAndChannels storage s eventMethod contextId
  ↔ leastApplying storage s eventMethod contextId channel p.
Proof.
  unfold prioritiesAndChannels. rewrite list_elem_of_omap.
  rewrite <-getEventSubscriptionPriorityForChannel_Some. split.
  - intros (ch & _ & Hch).
    destruct (getEventSubscriptionPriorityForChannel _ _ _ _ ch) as [q|] eqn:Hq;
      simpl in Hch; [|done].
    by injection Hch as <- <-.
  - intros Hp. exists channel. rewrite Hp. split; [|done].
    apply jm_keys_get. unfold getEventSubscriptionPriorityForChannel in Hp.
    destruct (jm_get channel _); [eauto|done].
Qed.

Lemma prioritiesAndChannels_channels s eventMethod contextId :
  (prioritiesAndChannels storage s eventMethod contextId).*2
  = filter (λ channel,
              is_Some (getEventSubscriptionPriorityForChannel storage s
                         eventMethod contextId channel))
      (jm_keys (channelToContextToEventMap s)).
Proof.
  unfold prioritiesAndChannels.
  induction (jm_keys (channelToContextToEventMap s)) as [|ch chs IH];
    [done|].
  cbn [omap list_omap].
  destruct (getEventSubscriptionPriorityForChannel _ _ _ _ ch) as [q|] eqn:Hq;
    simpl.
  - rewrite filter_cons_True by (rewrite Hq; eauto). by rewrite <-IH.
  - rewrite filter_cons_False by (rewrite Hq; by intros [? ?]). done.
Qed.

Lemma applies_least s eventMethod contextId channel p :
  applies storage s eventMethod contextId channel p →
  ∃ q, leastApplying storage s eventMethod contextId channel q.
Proof.
  unfold leastApplying, applies. intros (k & Hk & Hp).
  destruct (subscription s channel None eventMethod) as [p1|] eqn:H1;
    destruct (subscription s channel
                (findTopLevelContextId storage contextId) eventMethod)
      as [p2|] eqn:H2.
  - exists (N.min p1 p2). split.
    + destruct (N.min_spec p1 p2) as [[_ ->]|[_ ->]]; eauto.
    + intros q (k' & [-> | ->] & Hq); rewrite ?H1, ?H2 in Hq;
        injection Hq as <-; lia.
  - exists p1. split; [eauto|].
    intros q (k' & [-> | ->] & Hq); rewrite ?H1, ?H2 in Hq; [|done].
    injection Hq as <-. lia.
  - exists p2. split; [eauto|].
    intros q (k' & [-> | ->] & Hq); rewrite ?H1, ?H2 in Hq; [done|].
    injection Hq as <-. lia.
  - destruct Hk as [-> | ->]; rewrite ?H1, ?H2 in Hp; done.
Qed.

Lemma leastApplying_both s eventMethod contextId channel p1 p2 :
  subscription s channel None eventMethod = Some p1 →
  subscription s channel (findTopLevelContextId storage contextId) eventMethod
  = Some p2 →
  leastApplying storage s eventMethod contextId channel (N.min p1 p2).
Proof.
  intros H1 H2. split.
  - destruct (N.min_spec p1 p2) as [[_ ->]|[_ ->]]; [exists None|eexists]; eauto.
  - intros q (k' & [-> | ->] & Hq); rewrite ?H1, ?H2 in Hq;
      injection Hq as <-; lia.
Qed.

Lemma sorted_priorities l :
  StronglySorted byPriority l → Sorted N.le l.*1.
Proof.
  intros Hs. apply StronglySorted_Sorted.
  induction Hs as [|x l Hs IH Hx]; simpl; constructor; [done|].
  by apply Forall_fmap.
Qed.

Lemma elem_of_sorted s eventMethod contextId p channel :
  (p, channel)
    ∈ sort_by_priority (prioritiesAndChannels storage s eventMethod contextId)
  ↔ leastApplying storage s eventMethod contextId channel p.
Proof.
  by rewrite sort_by_priority_perm, elem_of_prioritiesAndChannels.
Qed.

(** C2. The channels [getChannelsSubscribedToEvent] returns are those that
    hold a subscription to the event under the key [null] or under the
    top-level context of the emitting one; they come in ascending order
    of priority, the priority of a channel being the least of its
    subscriptions that apply; and no channel is listed twice. *)
Theorem getChannelsSubscribedToEvent_exact s eventMethod contextId :
  let channels := getChannelsSubscribedToEvent storage s eventMethod contextId in
  (∀ channel,
     channel ∈ channels
     ↔ ∃ key p,
         (key = None ∨ key = findTopLevelContextId storage contextId)
         ∧ subscription s channel key eventMethod = Some p)
  ∧ (∃ priorities,
       Forall2 (leastApplying storage s eventMethod contextId)
         channels priorities
       ∧ Sorted N.le priorities)
  ∧ (NoDup (jm_keys (channelToContextToEventMap s)) → NoDup channels).
Proof.
  unfold getChannelsSubscribedToEvent. simpl.
  set (sorted := sort_by_priority
                   (prioritiesAndChannels storage s eventMethod contextId)).
  split; [|split].
  - intros channel. rewrite list_elem_of_fmap. split.
    + intros ([p ch] & -> & Hin). apply elem_of_sorted in Hin as [Happ _].
      destruct Happ as (key & Hkey & Hp). by exists key, p.
    + intros (key & p & Hkey & Hp).
      destruct (applies_least s eventMethod contextId channel p) as [q Hq];
        [by exists key|].
      exists (q, channel). split; [done|]. by apply elem_of_sorted.
  - exists sorted.*1. split.
    + apply Forall2_fmap, Forall2_same_length_lookup_2; [done|].
      intros i [p ch] [p' ch'] H1 H2. simplify_eq. simpl.
      apply elem_of_sorted. by eapply list_elem_of_lookup_2.
    + apply sorted_priorities, sort_by_priority_sorted.
  - intros Hnd. subst sorted. rewrite sort_by_priority_perm.
    rewrite prioritiesAndChannels_channels. by apply NoDup_filter.
Qed.

(** C9. A channel subscribed to the event both globally and for the
    top-level context of the emitting one is ranked by the smaller of the
    two priorities: a channel whose priority is below that minimum stands
    before it in the result, one whose priority is above stands after. *)
Theorem channel_ranked_by_minimum s eventMethod contextId channel p1 p2 :
  subscription s channel None eventMethod = Some p1 →
  subscription s channel (findTopLevelContextId storage contextId) eventMethod
  = Some p2 →
  let channels := getChannelsSubscribedToEvent storage s eventMethod contextId in
  getEventSubscriptionPriorityForChannel storage s eventMethod contextId channel
  = Some (N.min p1 p2)
  ∧ channel ∈ channels
  ∧ ∀ channel' q,
      leastApplying storage s eventMethod contextId channel' q →
      ((q < N.min p1 p2)%N → before channel' channel channels)
      ∧ ((N.min p1 p2 < q)%N → before channel channel' channels).
Proof.
  intros H1 H2 channels.
  pose proof (leastApplying_both _ _ _ _ _ _ H1 H2) as Hmin.
  split; [by apply getEventSubscriptionPriorityForChannel_Some|].
  apply elem_of_sorted in Hmin.
  split.
  - subst channels. unfold getChannelsSubscribedToEvent.
    apply list_elem_of_fmap. by exists (N.min p1 p2, channel).
  - intros channel' q Hq. apply elem_of_sorted in Hq.
    pose proof (sort_by_priority_sorted
                  (prioritiesAndChannels storage s eventMethod contextId))
      as Hsorted.
    split; intros Hlt.
    + by apply (sorted_before _ (q, channel') (N.min p1 p2, channel)).
    + by apply (sorted_before _ (N.min p1 p2, channel) (q, channel')).
Qed.

End ChannelFacts.

(** * [unsubscribeAll] *)
Section UnsubscribeFacts.
Import SubscriptionManager.
Context (protocol : Protocol) (storage : BrowsingContextStorage).
Implicit Types (s : SubscriptionManager) (channel contextId : option string).
Implicit Types (o : Objects) (u : Unsubscribe).

Local Abbreviation closure := (closureOf storage).

Lemma mapM_state {A B} (f : A → M B) (l : list A) s :
  (∀ x, (f x s).2 = s) → (mapM f l s).2 = s.
Proof.
  intros Hf. induction l as [|x l IH]; simpl; [done|].
  unfold bind at 1. specialize (Hf x).
  destruct (f x s) as [[y|e] s'] eqn:Hx; simpl in Hf; subst s'; [|done].
  unfold bind. destruct (mapM f l s) as [[ys|e] s']; simpl in *; by subst.
Qed.

Lemma mapM_cons {A B} (f : A → M B) (x : A) (l : list A) s :
  mapM f (x :: l) s
  = match f x s with
    | (Normal y, s') =>
        match mapM f l s' with
        | (Normal ys, s'') => (Normal (y :: ys), s'')
        | (Throw e, s'') => (Throw e, s'')
        end
    | (Throw e, s') => (Throw e, s')
    end.
Proof.
  simpl. unfold bind at 1. destruct (f x s) as [[y|e] s']; [|done].
  unfold bind, ret. by destruct (mapM f l s') as [[ys|e] s''].
Qed.

Lemma checkUnsubscribe_cases event contextId channel s :
  (recorded storage s channel (event, contextId)
   ∧ checkUnsubscribe storage event contextId channel s
     = (Normal (closure channel (event, contextId)), s))
  ∨ (¬ recorded storage s channel (event, contextId)
     ∧ checkUnsubscribe storage event contextId channel s
       = (Throw (InvalidArgumentException
                   (noSubscriptionFound event
                      (findTopLevelContextId storage contextId))), s)).
Proof.
  unfold recorded, subscription, checkUnsubscribe. simpl.
  destruct (jm_get channel _) as [cm|]; [|right; split; [by intros [? ?]|done]].
  destruct (cm !! _) as [em|]; simpl;
    [|right; split; [by intros [? ?]|done]].
  case_decide; [by left|by right].
Qed.

Lemma checkUnsubscribe_state event contextId channel s :
  (checkUnsubscribe storage event contextId channel s).2 = s.
Proof.
  by destruct (checkUnsubscribe_cases event contextId channel s)
    as [[_ ->]|[_ ->]].
Qed.

Lemma getContext_state id s : (getContext storage id s).2 = s.
Proof. unfold getContext. by destruct (hasContext storage id). Qed.

(** The loop over the contexts: it passes when all are known, and throws
    for the first unknown one. *)
Lemma assert_contexts_cases (contextIds : list (option string)) s :
  let assertKnown := λ contextId : option string,
    match contextId with
    | Some id => getContext storage id
    | None => ret ()
    end in
  (Forall (known storage) contextIds
   ∧ ∃ units, mapM assertKnown contextIds s = (Normal units, s))
  ∨ (∃ id, Some id ∈ contextIds ∧ hasContext storage id = false
     ∧ mapM assertKnown contextIds s = (Throw (NoSuchFrameException id), s)).
Proof.
  intros assertKnown. induction contextIds as [|c cs IH]; simpl.
  - left. split; [constructor|by eexists].
  - unfold bind at 1. destruct c as [id|]; simpl.
    + unfold getContext. destruct (hasContext storage id) eqn:Hid; simpl.
      * unfold bind, ret. simpl.
        destruct IH as [[Hall [us ->]]|(id' & Hin & Hid' & ->)].
        -- left. split; [constructor; [exact Hid|done]|by eexists].
        -- right. exists id'. rewrite elem_of_cons. auto.
      * right. exists id. rewrite elem_of_cons. auto.
    + unfold bind, ret. simpl.
      destruct IH as [[Hall [us ->]]|(id' & Hin & Hid' & ->)].
      * left. split; [constructor; [exact I|done]|by eexists].
      * right. exists id'. rewrite elem_of_cons. auto.
Qed.

(** The loop over the pairs: all closures, or the exception of the first
    pair without a subscription. *)
Lemma check_pairs_cases (pairs : list (string * option string)) channel s :
  let check := λ '(event, contextId),
    checkUnsubscribe storage event contextId channel in
  (Forall (recorded storage s channel) pairs
   ∧ mapM check pairs s = (Normal (closure channel <$> pairs), s))
  ∨ (Exists (λ pair, ¬ recorded storage s channel pair) pairs
     ∧ ∃ message,
         mapM check pairs s = (Throw (InvalidArgumentException message), s)).
Proof.
  intros check. induction pairs as [|[event contextId] pairs IH].
  - left. split; [constructor|done].
  - assert (check (event, contextId) s
            = checkUnsubscribe storage event contextId channel s) as Hcheck
      by done.
    destruct (checkUnsubscribe_cases event contextId channel s)
      as [[Hrec Hc]|[Hrec Hc]].
    + destruct IH as [[Hall Hm]|[Hex [msg Hm]]].
      * left. split; [by constructor|].
        by rewrite mapM_cons, Hcheck, Hc, Hm.
      * right. split; [by apply Exists_cons_tl|]. exists msg.
        by rewrite mapM_cons, Hcheck, Hc, Hm.
    + right. split; [by apply Exists_cons_hd|]. eexists.
      by rewrite mapM_cons, Hcheck, Hc.
Qed.

Lemma Forall_Exists_not {A} (P : A → Prop) (l : list A) :
  Forall P l → Exists (λ x, ¬ P x) l → False.
Proof.
  intros Hall Hex. apply Exists_exists in Hex as (x & Hin & Hx).
  rewrite Forall_forall in Hall. by apply Hx, Hall.
Qed.

(** The closures only take events out of the [eventMap] objects. *)
Lemma runUnsubscribe_removed u o key event :
  eventMaps o !! key ≫= (.!! event) = None →
  eventMaps (runUnsubscribe u o) !! key ≫= (.!! event) = None.
Proof.
  intros Hnone. unfold runUnsubscribe. simpl.
  destruct (decide (u_eventMap u = key)) as [<-|Hne].
  - rewrite lookup_insert_eq. simpl.
    destruct (decide (u_event u = event)) as [<-|Hev];
      [by rewrite lookup_delete_eq|].
    rewrite lookup_delete_ne by done.
    destruct (eventMaps o !! u_eventMap u); simpl in *; [done|].
    by rewrite lookup_empty.
  - by rewrite lookup_insert_ne.
Qed.

Lemma runUnsubscribe_removes u o :
  eventMaps (runUnsubscribe u o) !! u_eventMap u ≫= (.!! u_event u) = None.
Proof.
  unfold runUnsubscribe. simpl. rewrite lookup_insert_eq. simpl.
  by rewrite lookup_delete_eq.
Qed.

Lemma run_all_removed (us : list Unsubscribe) o key event :
  eventMaps o !! key ≫= (.!! event) = None →
  eventMaps (foldl (λ o u, runUnsubscribe u o) o us) !! key ≫= (.!! event)
  = None.
Proof.
  revert o. induction us as [|u us IH]; intros o Hnone; simpl; [done|].
  by apply IH, runUnsubscribe_removed.
Qed.

Lemma run_all_removes (us : list Unsubscribe) o u :
  u ∈ us →
  eventMaps (foldl (λ o u, runUnsubscribe u o) o us)
    !! u_eventMap u ≫= (.!! u_event u)
  = None.
Proof.
  revert o. induction us as [|u' us IH]; intros o Hin; simpl.
  - by apply elem_of_nil in Hin.
  - apply elem_of_cons in Hin as [->|Hin]; [|by apply IH].
    apply run_all_removed, runUnsubscribe_removes.
Qed.

Lemma subscription_release channel priority o key event :
  eventMaps o !! key ≫= (.!! event) = None →
  subscription (release channel priority o) channel key event = None.
Proof.
  intros Hnone. unfold subscription, release. simpl.
  destruct (jm_has channel (outerMap o)) eqn:Hhas.
  - rewrite jm_get_set_eq.
    destruct (filter _ (eventMaps o) !! key) as [em|] eqn:Hem; simpl; [|done].
    apply map_lookup_filter_Some in Hem as [Hem _]. by rewrite Hem in Hnone.
  - apply jm_has_false in Hhas. by rewrite Hhas.
Qed.

(** With no closure to run the manager is as it was. *)
Lemma release_capture channel s :
  release channel (subscriptionPriority s) (capture channel s) = s.
Proof.
  destruct s as [priority outer]. unfold release, capture. simpl. f_equal.
  destruct (jm_has channel outer) eqn:Hhas; [|done].
  apply jm_has_true in Hhas as [cm Hcm]. rewrite Hcm. simpl.
  apply jm_set_id. rewrite Hcm. f_equal. apply map_eq. intros key.
  destruct (cm !! key) as [em|] eqn:Hem; symmetry.
  - apply map_lookup_filter_Some. split; [done|]. simpl.
    apply elem_of_dom. eauto.
  - apply map_lookup_filter_None. left. done.
Qed.

Lemma runUnsubscribe_kept u o key event p :
  eventMaps (runUnsubscribe u o) !! key ≫= (.!! event) = Some p →
  eventMaps o !! key ≫= (.!! event) = Some p.
Proof.
  unfold runUnsubscribe. simpl.
  destruct (decide (u_eventMap u = key)) as [<-|Hne].
  - rewrite lookup_insert_eq. simpl.
    destruct (decide (u_event u = event)) as [<-|Hev];
      [by rewrite lookup_delete_eq|].
    rewrite lookup_delete_ne by done.
    destruct (eventMaps o !! u_eventMap u); simpl; [done|].
    by rewrite lookup_empty.
  - by rewrite lookup_insert_ne.
Qed.

Lemma run_all_kept (us : list Unsubscribe) o key event p :
  eventMaps (foldl (λ o u, runUnsubscribe u o) o us) !! key ≫= (.!! event)
  = Some p →
  eventMaps o !! key ≫= (.!! event) = Some p.
Proof.
  revert o. induction us as [|u us IH]; intros o Hp; simpl in *; [done|].
  by eapply runUnsubscribe_kept, IH.
Qed.

(** The closures of a call touch the outer map at the channel only, and
    leave its keys without duplicates. *)
Lemma run_all_outer (pairs : list (string * option string)) channel o :
  let o' := foldl (λ o u, runUnsubscribe u o) o (closure channel <$> pairs) in
  (∀ channel', channel' ≠ channel →
     jm_get channel' (outerMap o') = jm_get channel' (outerMap o))
  ∧ (NoDup (jm_keys (outerMap o)) → NoDup (jm_keys (outerMap o'))).
Proof.
  revert o. induction pairs as [|pair pairs IH]; intros o; simpl; [done|].
  destruct (IH (runUnsubscribe (closure channel pair) o)) as [Hget Hnd].
  split.
  - intros channel' Hne. rewrite Hget by done. unfold runUnsubscribe. simpl.
    case_decide; [|done]. by rewrite jm_get_delete_ne.
  - intros Hnd0. apply Hnd. unfold runUnsubscribe. simpl.
    case_decide; [|done]. by apply jm_keys_delete_NoDup.
Qed.

Lemma unsubscribeAll_unfold events (contextIds : list (option string)) channel s :
  unsubscribeAll protocol storage events contextIds channel s
  = match mapM (λ contextId : option string,
                  match contextId with
                  | Some id => getContext storage id
                  | None => ret ()
                  end) contextIds s with
    | (Normal _, s1) =>
        match mapM (λ '(event, contextId),
                      checkUnsubscribe storage event contextId channel)
                (eventContextPairs protocol events contextIds) s1 with
        | (Normal unsubscribes, s2) =>
            (Normal (),
             release channel (subscriptionPriority s2)
               (foldl (λ o u, runUnsubscribe u o) (capture channel s2)
                  unsubscribes))
        | (Throw e, s2) => (Throw e, s2)
        end
    | (Throw e, s1) => (Throw e, s1)
    end.
Proof.
  unfold unsubscribeAll, eventContextPairs. unfold bind at 1.
  destruct (mapM _ contextIds s) as [[units|e] s1]; [|done].
  unfold bind. by destruct (mapM _ _ s1) as [[us|e] s2].
Qed.

(** Nothing is written before the last check has passed. *)
Lemma unsubscribeAll_throws_unchanged events contextIds channel s e s' :
  unsubscribeAll protocol storage events contextIds channel s = (Throw e, s') →
  s' = s.
Proof.
  rewrite unsubscribeAll_unfold.
  pose proof (mapM_state
                (λ contextId : option string,
                   match contextId with
                   | Some id => getContext storage id
                   | None => ret ()
                   end) contextIds s) as Hassert.
  destruct (mapM _ contextIds s) as [[units|e1] s1]; simpl in Hassert.
  - rewrite Hassert by (intros [id|]; [apply getContext_state|done]).
    pose proof (mapM_state
                  (λ '(event, contextId),
                     checkUnsubscribe storage event contextId channel)
                  (eventContextPairs protocol events contextIds) s) as Hcheck.
    destruct (mapM _ _ s) as [[us|e2] s2]; simpl in Hcheck; [done|].
    intros [= _ <-]. apply Hcheck. intros [event contextId].
    apply checkUnsubscribe_state.
  - intros [= _ <-]. apply Hassert.
    intros [id|]; [apply getContext_state|done].
Qed.

(** C1, as the code has it.  A call that throws leaves the manager as it
    was.  When the storage knows every context of the call: if some pair
    of an unrolled event and a context has no subscription under the
    channel, the call throws [InvalidArgumentException]; if every pair has
    one, the call returns and no pair has a subscription afterwards.  When
    the storage does not know some context, the call throws that
    context's [NoSuchFrameException]. *)
Theorem unsubscribeAll_all_or_nothing events contextIds channel s :
  let pairs := eventContextPairs protocol events contextIds in
  let call := unsubscribeAll protocol storage events contextIds channel s in
  (∀ e s', call = (Throw e, s') → s' = s)
  ∧ (Forall (known storage) contextIds →
     (Exists (λ pair, ¬ recorded storage s channel pair) pairs →
      ∃ message, call = (Throw (InvalidArgumentException message), s))
     ∧ (Forall (recorded storage s channel) pairs →
        ∃ s', call = (Normal (), s')
              ∧ Forall (λ pair, ¬ recorded storage s' channel pair) pairs))
  ∧ (¬ Forall (known storage) contextIds →
     ∃ id, Some id ∈ contextIds ∧ hasContext storage id = false
           ∧ call = (Throw (NoSuchFrameException id), s)).
Proof.
  intros pairs call. subst call.
  split; [intros e s'; apply unsubscribeAll_throws_unchanged|].
  rewrite unsubscribeAll_unfold. fold pairs.
  destruct (assert_contexts_cases contextIds s)
    as [[Hknown [units ->]]|(id & Hin & Hid & ->)].
  - destruct (check_pairs_cases pairs channel s)
      as [[Hall ->]|[Hex [message ->]]].
    + split; [|done]. intros _. split.
      * intros Hex. by destruct (Forall_Exists_not _ _ Hall Hex).
      * intros _. eexists. split; [done|].
        apply Forall_forall. intros pair Hpair. unfold recorded.
        rewrite subscription_release; [by intros [? ?]|].
        apply (run_all_removes _ _ (closure channel pair)).
        by apply list_elem_of_fmap_2.
    + split; [|done]. intros _. split.
      * intros _. by exists message.
      * intros Hall. by destruct (Forall_Exists_not _ _ Hall Hex).
  - split.
    + intros Hknown. rewrite Forall_forall in Hknown.
      specialize (Hknown _ Hin). simpl in Hknown. congruence.
    + intros _. by exists id.
Qed.

(** A call that returns only removes: what is recorded afterwards was
    recorded before with the same priority, other channels are as they
    were, the counter is, and the outer keys stay without duplicates. *)
Lemma unsubscribeAll_only_removes events contextIds channel s s' :
  unsubscribeAll protocol storage events contextIds channel s = (Normal (), s') →
  extends s' s
  ∧ subscriptionPriority s' = subscriptionPriority s
  ∧ (∀ channel' contextId event,
       channel' ≠ channel →
       subscription s' channel' contextId event
       = subscription s channel' contextId event)
  ∧ (NoDup (jm_keys (channelToContextToEventMap s)) →
     NoDup (jm_keys (channelToContextToEventMap s'))).
Proof.
  rewrite unsubscribeAll_unfold.
  destruct (assert_contexts_cases contextIds s)
    as [[_ [units ->]]|(id & _ & _ & ->)]; [|done].
  destruct (check_pairs_cases (eventContextPairs protocol events contextIds)
              channel s) as [[_ ->]|[_ [message ->]]]; [|done].
  intros [= <-].
  destruct (run_all_outer (eventContextPairs protocol events contextIds)
              channel (capture channel s)) as [Hget Hnd].
  set (o' := foldl _ _ _) in *. simpl in Hget, Hnd.
  assert (∀ channel' contextId event,
            channel' ≠ channel →
            subscription (release channel (subscriptionPriority s) o')
              channel' contextId event
            = subscription s channel' contextId event) as Hother.
  { intros channel' k e Hne. unfold subscription, release. simpl.
    destruct (jm_has channel (outerMap o'));
      rewrite ?jm_get_set_ne by done; by rewrite Hget. }
  split; [|split; [done|split; [done|]]].
  - intros channel' k e p Hp.
    destruct (decide (channel' = channel)) as [->|Hne];
      [|by rewrite Hother in Hp].
    unfold subscription, release in Hp. simpl in Hp.
    destruct (jm_has channel (outerMap o')) eqn:Hhas.
    + rewrite jm_get_set_eq in Hp.
      destruct (filter _ (eventMaps o') !! k) as [em|] eqn:Hem; [|done].
      apply map_lookup_filter_Some in Hem as [Hem _].
      assert (eventMaps o' !! k ≫= (.!! e) = Some p) as Hp'
        by (by rewrite Hem).
      apply run_all_kept in Hp'. unfold capture in Hp'. simpl in Hp'.
      unfold subscription.
      by destruct (jm_get channel (channelToContextToEventMap s)).
    + apply jm_has_false in Hhas. by rewrite Hhas in Hp.
  - intros Hnd0. unfold release. simpl.
    destruct (jm_has channel (outerMap o')); [apply jm_keys_set_NoDup|]; auto.
Qed.

Lemma unsubscribeAll_below events contextIds channel s s' e :
  unsubscribeAll protocol storage events contextIds channel s = (e, s') →
  prioritiesBelowCounter s → prioritiesBelowCounter s'.
Proof.
  intros Hcall Hbelow. destruct e as [[]|e].
  - apply unsubscribeAll_only_removes in Hcall as (Hext & Hp & _).
    intros ch k ev p Hsub. rewrite Hp. by eapply Hbelow, Hext.
  - by rewrite (unsubscribeAll_throws_unchanged _ _ _ _ _ _ Hcall).
Qed.

(** Removing the last event of a context leaves the context behind with
    an empty event map, unless the event happens to be named like a
    context of the channel: the closure deletes the key [event]. *)
Lemma unsubscribe_last_event_keeps_context event contextId channel s cm p :
  ¬ isGroup protocol event →
  known storage contextId →
  jm_get channel (channelToContextToEventMap s) = Some cm →
  cm !! findTopLevelContextId storage contextId = Some {[event := p]} →
  cm !! Some event = None →
  unsubscribe protocol storage event contextId channel s
  = (Normal (),
     {| subscriptionPriority := subscriptionPriority s;
        channelToContextToEventMap :=
          jm_set channel (<[findTopLevelContextId storage contextId := ∅]> cm)
            (channelToContextToEventMap s) |}).
Proof.
  intros Hatomic Hknown Hcm Hem Hkey. unfold unsubscribe.
  rewrite unsubscribeAll_unfold.
  assert (eventContextPairs protocol [event] [contextId] = [(event, contextId)])
    as ->.
  { unfold eventContextPairs, unrollEvents, isGroup in *. simpl.
    by repeat case_decide; try tauto. }
  rewrite mapM_cons.
  assert (match contextId with
          | Some id => getContext storage id
          | None => ret ()
          end s = (Normal (), s)) as ->.
  { destruct contextId as [id|]; [|done]. unfold getContext. simpl in Hknown.
    by rewrite Hknown. }
  simpl mapM at 1. unfold ret at 1. rewrite mapM_cons.
  assert (checkUnsubscribe storage event contextId channel s
          = (Normal (closure channel (event, contextId)), s)) as ->.
  { unfold checkUnsubscribe. rewrite Hcm, Hem.
    rewrite decide_True by (rewrite lookup_singleton_eq; eauto). done. }
  simpl mapM. unfold ret. simpl foldl. f_equal.
  unfold release, runUnsubscribe, capture. simpl. rewrite Hcm. simpl.
  rewrite Hem. simpl. rewrite delete_singleton_eq.
  destruct (decide (size (∅ : gmap string N) = 0)) as [_|Hn];
    [|by rewrite map_size_empty in Hn].
  assert (dom cm ∖ {[Some event]} = dom cm) as ->.
  { apply not_elem_of_dom in Hkey. apply set_eq. intros key.
    rewrite elem_of_difference, elem_of_singleton. split; [tauto|].
    intros Hin. split; [done|]. by intros ->. }
  assert (size (dom cm) ≠ 0) as Hsize.
  { intros Hzero. apply size_empty_inv in Hzero.
    assert (findTopLevelContextId storage contextId ∈ dom cm) as Hin
      by (apply elem_of_dom; eauto).
    rewrite Hzero in Hin. by apply elem_of_empty in Hin. }
  rewrite decide_False by done.
  assert (jm_has channel (channelToContextToEventMap s) = true) as ->
    by (apply jm_has_true; eauto).
  f_equal. f_equal. apply map_eq. intros key.
  destruct (<[_ := ∅]> cm !! key) as [em|] eqn:Hkeyem.
  - apply map_lookup_filter_Some. split; [done|]. simpl.
    apply elem_of_dom. apply lookup_insert_Some in Hkeyem as [[<- _]|[_ ?]]; eauto.
  - by apply map_lookup_filter_None; left.
Qed.

End UnsubscribeFacts.

(** * Network utilities *)
Section NetworkFacts.
Import NetworkUtils.

Lemma string_length_app (s1 s2 : string) :
  String.length (s1 +:+ s2) = (String.length s1 + String.length s2)%nat.
Proof.
  induction s1 as [|a s1 IH]; [done|].
  change (String a s1 +:+ s2) with (String a (s1 +:+ s2)). simpl. by rewrite IH.
Qed.

Lemma headerLine_length header :
  String.length (headerLine header)
  = (String.length (name header) + String.length (value header) + 4)%nat.
Proof.
  unfold headerLine. rewrite !string_length_app. simpl. lia.
Qed.

Lemma computeHeadersSize_cons header headers :
  computeHeadersSize (header :: headers)
  = (String.length (name header) + 2 + String.length (value header) + 2
     + computeHeadersSize headers)%nat.
Proof. done. Qed.

Lemma sum_list_cons (x : nat) (l : list nat) :
  sum_list (x :: l) = (x + sum_list l)%nat.
Proof. done. Qed.

(** The expectation of [NetworkUtils.spec.ts]. *)
Example computeHeadersSize_test :
  computeHeadersSize
    [{| name := "Content-Type"; value := "text/html" |};
     {| name := "Content-Length"; value := "123" |}]
  = 46%nat.
Proof. reflexivity. Qed.

(** C5, with the length of the example put right.  [computeHeadersSize]
    adds, per header, the length of the name, of the value and four more,
    which is the length of the text [name: value\r\n]; no header gives 0;
    the header [A: B] gives the length of its line, which is 6. *)
Theorem computeHeadersSize_sum (headers : list Header) :
  computeHeadersSize headers
  = sum_list ((λ header,
                 String.length (name header) + String.length (value header) + 4)%nat
              <$> headers)
  ∧ computeHeadersSize headers
    = sum_list (String.length ∘ headerLine <$> headers)
  ∧ computeHeadersSize [] = 0%nat
  ∧ computeHeadersSize [{| name := "A"; value := "B" |}]
    = String.length ("A: B" +:+ CRLF)
  ∧ String.length ("A: B" +:+ CRLF) = 6%nat.
Proof.
  split; [|split; [|done]].
  - induction headers as [|header headers IH]; [done|].
    rewrite fmap_cons, sum_list_cons, computeHeadersSize_cons, IH. lia.
  - induction headers as [|header headers IH]; [done|].
    rewrite fmap_cons, sum_list_cons, computeHeadersSize_cons, IH. simpl.
    rewrite headerLine_length. lia.
Qed.

(** C5 as the spec words it gives the header [A: B] the size 5. *)
Lemma computeHeadersSize_A_B_not_5 :
  computeHeadersSize [{| name := "A"; value := "B" |}] = 6%nat
  ∧ computeHeadersSize [{| name := "A"; value := "B" |}] ≠ 5%nat.
Proof. split; [reflexivity|discriminate]. Qed.

(** The expectations of [NetworkUtils.spec.ts]. *)
Example getTiming_tests :
  getTiming TimingUndefined = 0%Z
  ∧ getTiming (TimingFinite (-1)) = 0%Z
  ∧ getTiming (TimingFinite 1) = 1%Z.
Proof. by vm_compute. Qed.

(** C7. On a finite number [getTiming] is the floor, or 0 when that is
    negative; it is 0 on [undefined], on [NaN] and on every negative
    number, and never negative. *)
Theorem getTiming_floor :
  (∀ x, getTiming (TimingFinite x) = Z.max 0 (Qfloor x))
  ∧ getTiming TimingUndefined = 0%Z
  ∧ getTiming TimingNaN = 0%Z
  ∧ (∀ x, (x < 0)%Q → getTiming (TimingFinite x) = 0%Z)
  ∧ (∀ timing, (0 ≤ getTiming timing)%Z).
Proof.
  split; [done|]. split; [done|]. split; [done|]. split.
  - intros x Hx. simpl.
    assert (Qfloor x < 0)%Z; [|lia].
    pose proof (Qfloor_le x) as Hle.
    assert (inject_Z (Qfloor x) < inject_Z 0)%Q as Hlt
      by (eapply Qle_lt_trans; [exact Hle|exact Hx]).
    by rewrite <-Zlt_Qlt in Hlt.
  - intros [| |x]; simpl; lia.
Qed.

Lemma fieldMatches_spec normal field component :
  fieldMatches normal field component = true
  ↔ ∀ expected, field = Some expected → normal expected = normal component.
Proof.
  destruct field as [expected|]; simpl.
  - rewrite bool_decide_eq_true. split; [by intros ? ? [= <-]|auto].
  - split; [done|auto].
Qed.

Lemma toLowerCase_hostname :
  toLowerCase "WEB-PLATFORM.TEST" = "web-platform.test".
Proof. reflexivity. Qed.

(** The object patterns [NetworkUtils.spec.ts] expects to match. *)
Example matchUrlPattern_tests :
  matchUrlPattern
    {| pattern_protocol := Some "https"; pattern_hostname := Some "example.test";
       pattern_port := Some "333"; pattern_pathname := Some "/test";
       pattern_search := Some "?query" |}
    (example_test_333 "?query") = true
  ∧ matchUrlPattern
      {| pattern_protocol := None; pattern_hostname := None;
         pattern_port := None; pattern_pathname := None;
         pattern_search := Some "?query" |}
      (example_test_333 "?query") = true
  ∧ matchUrlPattern
      {| pattern_protocol := Some "https"; pattern_hostname := Some "example.test";
         pattern_port := Some "333"; pattern_pathname := Some "/test";
         pattern_search := Some "?query+another" |}
      (example_test_333 "?query+another") = true.
Proof. by vm_compute. Qed.

(** C6. A structured pattern matches a URL exactly when every field it
    has equals the URL's component, hostnames compared in lower case and
    searches without their leading [?]; a field it lacks matches
    anything.  The pattern with only the empty search does not match
    [https://web-platform.test/?search]; the pattern with only the
    hostname [WEB-PLATFORM.TEST] matches [https://web-platform.test/]. *)
Theorem matchUrlPattern_fields (pattern : UrlPattern) (url : Url) :
  (matchUrlPattern pattern url = true
   ↔ (∀ v, pattern_protocol pattern = Some v → v = protocol url)
     ∧ (∀ v, pattern_hostname pattern = Some v →
             toLowerCase v = toLowerCase (hostname url))
     ∧ (∀ v, pattern_port pattern = Some v → v = port url)
     ∧ (∀ v, pattern_pathname pattern = Some v → v = pathname url)
     ∧ (∀ v, pattern_search pattern = Some v →
             stripQuestionMark v = stripQuestionMark (search url)))
  ∧ matchUrlPattern anyUrl url = true
  ∧ matchUrlPattern
      {| pattern_protocol := None; pattern_hostname := None;
         pattern_port := None; pattern_pathname := None;
         pattern_search := Some EmptyString |}
      (web_platform_test "?search") = false
  ∧ matchUrlPattern
      {| pattern_protocol := None;
         pattern_hostname := Some "WEB-PLATFORM.TEST";
         pattern_port := None; pattern_pathname := None;
         pattern_search := None |}
      (web_platform_test EmptyString) = true.
Proof.
  split; [|by vm_compute].
  unfold matchUrlPattern. rewrite !andb_true_iff, !fieldMatches_spec.
  unfold id. tauto.
Qed.

End NetworkFacts.

(** * Log helper *)
Section LogFacts.
Import LogHelper.
Context (convert : ascii → RemoteValue → string).

(** The loop fails exactly when the specifiers outnumber the values, and
    otherwise leaves the values the specifiers did not consume. *)
Lemma format_values toks :
  ∀ argValues output,
    ((length argValues < specifiers toks)%nat →
     format convert toks argValues output = None)
    ∧ ((specifiers toks ≤ length argValues)%nat →
       ∃ output',
         format convert toks argValues output
         = Some (output', drop (specifiers toks) argValues)).
Proof.
  induction toks as [|[c|c] toks IH]; intros argValues output; simpl.
  - split; [lia|]. intros _. by eexists.
  - apply IH.
  - destruct argValues as [|arg argValues]; simpl.
    + split; [done|lia].
    + destruct (IH argValues (output +:+ convert c arg)) as [Hless Hmore].
      split; intros Hlen; [apply Hless|apply Hmore]; lia.
Qed.

(** C8, with the message the test file expects.  When the specifiers
    outnumber the values the formatter throws [Less value is provided:]
    and, when values are left over, [More value is provided:], in both
    cases followed by the quoted text of all the arguments as they were
    given, joined by spaces; with as many values as specifiers it
    returns. *)
Theorem logMessageFormatter_value_count (argFormat : string)
    (argValues : list RemoteValue) :
  let args := StringValue argFormat :: argValues in
  ((length argValues < specifiers (tokens argFormat))%nat →
   logMessageFormatter convert argFormat argValues
   = Throws ("Less value is provided: " +:+ dquote
             +:+ getRemoteValuesText args +:+ dquote))
  ∧ ((specifiers (tokens argFormat) < length argValues)%nat →
     logMessageFormatter convert argFormat argValues
     = Throws ("More value is provided: " +:+ dquote
               +:+ getRemoteValuesText args +:+ dquote))
  ∧ (length argValues = specifiers (tokens argFormat) →
     ∃ output, logMessageFormatter convert argFormat argValues = Returns output).
Proof.
  intros args. unfold logMessageFormatter. fold args.
  destruct (format_values (tokens argFormat) argValues EmptyString)
    as [Hless Hmore].
  split; [|split].
  - intros Hlen. by rewrite Hless.
  - intros Hlen. destruct Hmore as [output ->]; [lia|].
    destruct (drop _ argValues) as [|arg rest] eqn:Hdrop; [|done].
    apply (f_equal length) in Hdrop. rewrite length_drop in Hdrop.
    simpl in Hdrop. lia.
  - intros Hlen. destruct Hmore as [output ->]; [lia|].
    rewrite <-Hlen, drop_all. by eexists.
Qed.

End LogFacts.

(** * The properties on the sample instances *)
Section Samples.
Import SubscriptionManager.

(** A decidable closed proposition, settled by evaluating its decision. *)
Ltac decide_by_evaluation := apply (bool_decide_unpack _); by vm_compute.

Lemma sample_tablesAtomic : tablesAtomic Sample.protocol.
Proof. unfold tablesAtomic, isGroup. decide_by_evaluation. Defined.

(** The sample managers are what [subscribe] builds from the empty one. *)
Lemma subscribed_once_reached :
  Forall (λ channel,
            subscribe Sample.protocol Sample.storage 1 "log.entryAdded"
              (Some "frame") channel empty_manager
            = Some (Sample.subscribed_once channel))
    [None; Some "ch"].
Proof. repeat constructor; by vm_compute. Qed.

Lemma two_channels_reached :
  (s1 ← subscribe Sample.protocol Sample.storage 1 "network.fetchError" None
          None empty_manager;
   s2 ← subscribe Sample.protocol Sample.storage 1 "network.fetchError"
          (Some "frame") (Some "ch") s1;
   subscribe Sample.protocol Sample.storage 1 "network.fetchError" None
     (Some "ch") s2)
  = Some Sample.two_channels.
Proof. by vm_compute. Qed.

Lemma unrollEvents_ignores_repeats_sample :
  unrollEvents Sample.protocol ["network"; "network.fetchError"; "log"; "log"]
  ≡ₚ unrollEvents Sample.protocol ["network"; "log"; "log"].
Proof.
  apply (proj2 (proj2 (unrollEvents_ignores_repeats Sample.protocol
                         ["network"; "network.fetchError"; "log"; "log"]))
           "network" "network.fetchError").
  - unfold isGroup. simpl. auto.
  - unfold isGroup. simpl. intros [H|[H|[H|H]]]; discriminate H.
  - decide_by_evaluation.
  - decide_by_evaluation.
Defined.

Lemma subscribe_twice_sample :
  subscribe Sample.protocol Sample.storage 2 "network" (Some "frame") None
    Sample.network_subscribed
  = Some Sample.network_subscribed
  ∧ is_Some (subscribe Sample.protocol Sample.storage 2 "network"
               (Some "frame") None empty_manager).
Proof.
  split.
  - apply (proj1 (subscribe_twice Sample.protocol Sample.storage "network"
                    (Some "frame") None empty_manager) 2).
    by vm_compute.
  - apply (proj2 (subscribe_twice Sample.protocol Sample.storage "network"
                    (Some "frame") None empty_manager)).
    + exact sample_tablesAtomic.
    + lia.
Defined.

Lemma getChannelsSubscribedToEvent_exact_sample :
  NoDup (getChannelsSubscribedToEvent Sample.storage Sample.two_channels
           "network.fetchError" (Some "frame")).
Proof.
  apply (proj2 (proj2 (getChannelsSubscribedToEvent_exact Sample.storage
                         Sample.two_channels "network.fetchError"
                         (Some "frame")))).
  decide_by_evaluation.
Defined.

Lemma channel_ranked_by_minimum_sample :
  getEventSubscriptionPriorityForChannel Sample.storage Sample.two_channels
    "network.fetchError" (Some "frame") (Some "ch")
  = Some 1%N
  ∧ Some "ch" ∈ getChannelsSubscribedToEvent Sample.storage
                  Sample.two_channels "network.fetchError" (Some "frame")
  ∧ ∀ channel' q,
      leastApplying Sample.storage Sample.two_channels "network.fetchError"
        (Some "frame") channel' q →
      ((q < 1)%N →
       before channel' (Some "ch")
         (getChannelsSubscribedToEvent Sample.storage Sample.two_channels
            "network.fetchError" (Some "frame")))
      ∧ ((1 < q)%N →
         before (Some "ch") channel'
           (getChannelsSubscribedToEvent Sample.storage Sample.two_channels
              "network.fetchError" (Some "frame"))).
Proof.
  apply (channel_ranked_by_minimum Sample.storage Sample.two_channels
           "network.fetchError" (Some "frame") (Some "ch") 2 1);
    reflexivity.
Defined.

Lemma unsubscribeAll_all_or_nothing_sample :
  ∃ s', unsubscribeAll Sample.protocol Sample.storage ["log"] [Some "frame"]
          None (Sample.subscribed_once None)
        = (Normal (), s')
        ∧ Forall (λ pair, ¬ recorded Sample.storage s' None pair)
            (eventContextPairs Sample.protocol ["log"] [Some "frame"]).
Proof.
  apply (proj1 (proj2 (unsubscribeAll_all_or_nothing Sample.protocol
                         Sample.storage ["log"] [Some "frame"] None
                         (Sample.subscribed_once None)))).
  - repeat constructor.
  - repeat constructor. unfold recorded. vm_compute. by eexists.
Defined.

(** C1, as the spec words it, fails when a context of the call is not in
    the storage: the pair has no subscription, yet the exception is
    [NoSuchFrameException], thrown by the loop that asserts the contexts
    before any pair is checked. *)
Lemma unsubscribeAll_unknown_context :
  ¬ recorded Sample.storage (Sample.subscribed_once None) None
      ("log.entryAdded", Some "gone")
  ∧ unsubscribeAll Sample.protocol Sample.storage ["log.entryAdded"]
      [Some "gone"] None (Sample.subscribed_once None)
    = (Throw (NoSuchFrameException "gone"), Sample.subscribed_once None)
  ∧ ∀ message,
      unsubscribeAll Sample.protocol Sample.storage ["log.entryAdded"]
        [Some "gone"] None (Sample.subscribed_once None)
      ≠ (Throw (InvalidArgumentException message), Sample.subscribed_once None).
Proof.
  split; [|split].
  - unfold recorded. vm_compute. by intros [? ?].
  - by vm_compute.
  - intros message. by vm_compute.
Qed.

(** C4 on the code: after the only subscription of a channel is removed,
    the channel still holds the context with an empty event map.  The
    closure deletes the key [event] from the context map where the key is
    the context. *)
Lemma unsubscribeAll_keeps_empty_eventMap :
  unsubscribeAll Sample.protocol Sample.storage ["log.entryAdded"]
    [Some "top"] (Some "ch") (Sample.subscribed_once (Some "ch"))
  = (Normal (),
     {| subscriptionPriority := 1;
        channelToContextToEventMap := [(Some "ch", {[Some "top" := ∅]})] |}).
Proof. by vm_compute. Qed.

(** The expectations of [logHelper.spec.ts] and of the spec's scenario. *)
Example logMessageFormatter_tests :
  LogHelper.logMessageFormatter LogHelper.plainConvert
    "test string %i string test"
    [LogHelper.NumberValue 1; LogHelper.NumberValue 2]
  = LogHelper.Throws
      ("More value is provided: " +:+ LogHelper.dquote
       +:+ "test string %i string test 1 2" +:+ LogHelper.dquote)
  ∧ LogHelper.logMessageFormatter LogHelper.plainConvert
      "test string %i %i string test" [LogHelper.NumberValue 1]
    = LogHelper.Throws
        ("Less value is provided: " +:+ LogHelper.dquote
         +:+ "test string %i %i string test 1" +:+ LogHelper.dquote)
  ∧ LogHelper.logMessageFormatter LogHelper.plainConvert "%d %s"
      [LogHelper.NumberValue 42; LogHelper.StringValue "x"]
    = LogHelper.Returns "42 x".
Proof. by vm_compute. Qed.

Lemma logMessageFormatter_value_count_sample :
  LogHelper.logMessageFormatter LogHelper.plainConvert "%i %i"
    [LogHelper.NumberValue 1]
  = LogHelper.Throws
      ("Less value is provided: " +:+ LogHelper.dquote
       +:+ LogHelper.getRemoteValuesText
             [LogHelper.StringValue "%i %i"; LogHelper.NumberValue 1]
       +:+ LogHelper.dquote).
Proof.
  apply (proj1 (logMessageFormatter_value_count LogHelper.plainConvert "%i %i"
                  [LogHelper.NumberValue 1])).
  vm_compute. lia.
Defined.

(** C8 as the spec words it has the formatted text in the message.  With
    one specifier and two values the formatted text is
    [test string 1 string test] and one value is left; the message holds
    the format string as given, and neither the formatted text nor the
    lead in lower case occurs in it.  With two specifiers and one value
    the text formatted so far is [test string 1], and the message again
    holds the arguments as given. *)
Lemma logMessageFormatter_message_unformatted :
  LogHelper.format LogHelper.plainConvert
    (LogHelper.tokens "test string %i string test")
    [LogHelper.NumberValue 1; LogHelper.NumberValue 2] EmptyString
  = Some ("test string 1 string test", [LogHelper.NumberValue 2])
  ∧ (∃ message,
       LogHelper.logMessageFormatter LogHelper.plainConvert
         "test string %i string test"
         [LogHelper.NumberValue 1; LogHelper.NumberValue 2]
       = LogHelper.Throws message
       ∧ LogHelper.occurs "test string %i string test 1 2" message = true
       ∧ LogHelper.occurs "test string 1 string test" message = false
       ∧ LogHelper.occurs "more value is provided" message = false)
  ∧ LogHelper.format LogHelper.plainConvert
      (LogHelper.tokens "test string %i") [LogHelper.NumberValue 1] EmptyString
    = Some ("test string 1", [])
  ∧ ∃ message,
      LogHelper.logMessageFormatter LogHelper.plainConvert
        "test string %i %i string test" [LogHelper.NumberValue 1]
      = LogHelper.Throws message
      ∧ LogHelper.occurs "test string %i %i string test 1" message = true
      ∧ LogHelper.occurs "test string 1" message = false
      ∧ LogHelper.occurs "less value is provided" message = false.
Proof.
  split; [by vm_compute|]. split; [eexists; by vm_compute|].
  split; [by vm_compute|]. eexists. by vm_compute.
Qed.

End Samples.

(** * More on the subscription manager *)
Section ManagerFacts.
Import SubscriptionManager Reachable.
Context (protocol : Protocol) (storage : BrowsingContextStorage).
Implicit Types (s : SubscriptionManager) (channel contextId : option string).
Implicit Types (event : string).

(** A relation that holds of every [subscribeAtomic] step, is reflexive
    and transitive, holds of every returning [subscribe]. *)
Lemma subscribe_steps (R : SubscriptionManager → SubscriptionManager → Prop) :
  (∀ s, R s s) →
  (∀ s1 s2 s3, R s1 s2 → R s2 s3 → R s1 s3) →
  (∀ event contextId channel s, R s (subscribeAtomic event contextId channel s)) →
  ∀ fuel event contextId channel s s1,
    subscribe protocol storage fuel event contextId channel s = Some s1 →
    R s s1.
Proof.
  intros Hrefl Htrans Hstep fuel.
  induction fuel as [|fuel IH]; intros event contextId channel s s1 Hs1;
    [done|].
  destruct (isGroup_dec protocol event) as [Hg|Hng].
  - rewrite subscribe_group in Hs1 by done.
    revert Hs1. generalize (findTopLevelContextId storage contextId).
    generalize (expand protocol event). intros names k. revert s.
    induction names as [|ev names IHn]; intros s Hs1; simpl in *.
    + by injection Hs1 as <-.
    + destruct (subscribe protocol storage fuel ev k channel s) as [s'|] eqn:Hev;
        simpl in Hs1; [|by rewrite each_None in Hs1].
      eapply Htrans; [by eapply IH|by apply IHn].
  - rewrite subscribe_atomic in Hs1 by done. injection Hs1 as <-.
    apply Hstep.
Qed.

Lemma next_priority_le p : (p ≤ next_priority p)%N.
Proof. unfold next_priority. case_decide; lia. Qed.

Lemma subscribeAtomic_counter_le event contextId channel s :
  (subscriptionPriority s
   ≤ subscriptionPriority (subscribeAtomic event contextId channel s))%N.
Proof.
  rewrite subscribeAtomic_priority. case_decide; [lia|apply next_priority_le].
Qed.

Lemma subscribeAtomic_distinct event contextId channel s :
  prioritiesBelowCounter s → prioritiesDistinct s →
  prioritiesDistinct (subscribeAtomic event contextId channel s).
Proof.
  intros Hbelow Hdistinct ch1 k1 e1 ch2 k2 e2 p.
  rewrite !subscription_subscribeAtomic.
  destruct (subscription s channel contextId event) as [q|] eqn:Hq; simpl.
  - destruct (decide (ch1 = _ ∧ _ ∧ _)) as [(-> & -> & ->)|_];
      destruct (decide (ch2 = _ ∧ _ ∧ _)) as [(-> & -> & ->)|_]; try done.
    + intros [= <-] H2. by eapply Hdistinct.
    + intros H1 [= <-]. by eapply Hdistinct.
    + apply Hdistinct.
  - destruct (decide (ch1 = _ ∧ _ ∧ _)) as [(-> & -> & ->)|_];
      destruct (decide (ch2 = _ ∧ _ ∧ _)) as [(-> & -> & ->)|_]; try done.
    + intros [= <-] H2. apply Hbelow in H2. lia.
    + intros H1 [= <-]. apply Hbelow in H1. lia.
    + apply Hdistinct.
Qed.

Lemma subscribeAtomic_wellFormed event contextId channel s :
  (subscriptionPriority s < 2 ^ 53)%N →
  wellFormed s → wellFormed (subscribeAtomic event contextId channel s).
Proof.
  intros Hrange (Hnd & Hbelow & Hdistinct). split; [|split].
  - by apply subscribeAtomic_keys_NoDup.
  - by apply subscribeAtomic_below.
  - by apply subscribeAtomic_distinct.
Qed.

Lemma subscribe_wellFormed fuel event contextId channel s s1 :
  subscribe protocol storage fuel event contextId channel s = Some s1 →
  (subscriptionPriority s ≤ subscriptionPriority s1)%N
  ∧ ((subscriptionPriority s1 < 2 ^ 53)%N → wellFormed s → wellFormed s1).
Proof.
  apply (subscribe_steps
           (λ s s1, (subscriptionPriority s ≤ subscriptionPriority s1)%N
                    ∧ ((subscriptionPriority s1 < 2 ^ 53)%N →
                       wellFormed s → wellFormed s1))).
  - intros s0. split; [lia|done].
  - intros s1' s2 s3 [Hle12 H12] [Hle23 H23]. split; [lia|].
    intros Hrange Hwf. apply H23; [done|]. apply H12; [lia|done].
  - intros e k ch s0. pose proof (subscribeAtomic_counter_le e k ch s0).
    split; [done|]. intros Hrange. apply subscribeAtomic_wellFormed. lia.
Qed.

Lemma extends_wellFormed s s' :
  extends s' s → subscriptionPriority s' = subscriptionPriority s →
  NoDup (jm_keys (channelToContextToEventMap s')) →
  wellFormed s → wellFormed s'.
Proof.
  intros Hext Hp Hnd' (_ & Hbelow & Hdistinct). split; [done|]. split.
  - intros ch k e p Hsub. rewrite Hp. by eapply Hbelow, Hext.
  - intros ch1 k1 e1 ch2 k2 e2 p H1 H2.
    eapply Hdistinct; by apply Hext.
Qed.

Lemma unsubscribeAll_wellFormed events contextIds channel s completion s' :
  unsubscribeAll protocol storage events contextIds channel s = (completion, s') →
  subscriptionPriority s' = subscriptionPriority s
  ∧ (wellFormed s → wellFormed s').
Proof.
  intros Hcall. destruct completion as [[]|e].
  - apply unsubscribeAll_only_removes in Hcall as (Hext & Hp & _ & Hnd).
    split; [done|]. intros Hwf. apply (extends_wellFormed s); try done.
    apply Hnd, Hwf.
  - by rewrite (unsubscribeAll_throws_unchanged _ _ _ _ _ _ _ _ Hcall).
Qed.

Lemma reachable_invariant s :
  reachable protocol storage s →
  (subscriptionPriority s < 2 ^ 53)%N →
  wellFormed s.
Proof.
  induction 1 as [|fuel event contextId channel s s' _ IH Hcall
                  |events contextIds channel s completion s' _ IH Hcall];
    intros Hrange.
  - split; [constructor|]. split; [by intros ch k e p|].
    by intros ch1 k1 e1 ch2 k2 e2 p.
  - apply subscribe_wellFormed in Hcall as [Hle Hwf].
    apply Hwf; [done|]. apply IH. lia.
  - apply unsubscribeAll_wellFormed in Hcall as [Hp Hwf].
    apply Hwf, IH. by rewrite <-Hp.
Qed.

(** X1. In every manager reached from the empty one by calls of
    [subscribe] and [unsubscribeAll], as long as the counter is below
    [2^53]: the outer map lists no channel twice, every recorded priority
    is below the counter, and no two subscriptions share a priority. *)
Theorem reachable_wellFormed s :
  reachable protocol storage s →
  (subscriptionPriority s < 2 ^ 53)%N →
  NoDup (jm_keys (channelToContextToEventMap s))
  ∧ (∀ channel contextId event p,
       subscription s channel contextId event = Some p →
       (p < subscriptionPriority s)%N)
  ∧ (∀ channel1 contextId1 event1 channel2 contextId2 event2 p,
       subscription s channel1 contextId1 event1 = Some p →
       subscription s channel2 contextId2 event2 = Some p →
       channel1 = channel2 ∧ contextId1 = contextId2 ∧ event1 = event2).
Proof. apply reachable_invariant. Qed.

Lemma is_Some_subscribeAtomic event contextId channel s channel' contextId' event' :
  is_Some (subscription (subscribeAtomic event contextId channel s)
             channel' contextId' event')
  ↔ is_Some (subscription s channel' contextId' event')
    ∨ (channel' = channel ∧ contextId' = contextId ∧ event' = event).
Proof.
  rewrite subscription_subscribeAtomic.
  destruct (decide (_ ∧ _ ∧ _)) as [Heq|Hne].
  - split; [by right|]. intros _. eauto.
  - split; [by left|]. by intros [?|?].
Qed.

(** X2. [subscribe] to an atomic event returns; afterwards the event is
    recorded under the channel and the top-level context, with the
    priority it had or else with the value of the counter, which then
    moves on; every other subscription is as it was. *)
Theorem subscribe_atomic_postcondition fuel event contextId channel s :
  ¬ isGroup protocol event →
  let top := findTopLevelContextId storage contextId in
  ∃ s1,
    subscribe protocol storage (S fuel) event contextId channel s = Some s1
    ∧ subscription s1 channel top event
      = Some (default (subscriptionPriority s)
                (subscription s channel top event))
    ∧ (∀ channel' contextId' event',
         ¬ (channel' = channel ∧ contextId' = top ∧ event' = event) →
         subscription s1 channel' contextId' event'
         = subscription s channel' contextId' event')
    ∧ subscriptionPriority s1
      = if decide (is_Some (subscription s channel top event))
        then subscriptionPriority s
        else next_priority (subscriptionPriority s).
Proof.
  intros Hatomic top. eexists. split; [by apply subscribe_atomic|].
  split; [|split].
  - rewrite subscription_subscribeAtomic.
    by destruct (decide (_ ∧ _ ∧ _)) as [_|Hn]; [|destruct Hn].
  - intros channel' contextId' event' Hne.
    rewrite subscription_subscribeAtomic.
    by destruct (decide (_ ∧ _ ∧ _)).
  - apply subscribeAtomic_priority.
Qed.

Lemma each_atomic_postcondition fuel names contextId channel s :
  Forall (λ e, ¬ isGroup protocol e) names →
  ∃ s1,
    foldl (λ acc specificEvent,
             acc ≫= subscribe protocol storage (S fuel) specificEvent
                      contextId channel)
          (Some s) names
    = Some s1
    ∧ extends s s1
    ∧ ∀ channel' contextId' event',
        is_Some (subscription s1 channel' contextId' event')
        ↔ is_Some (subscription s channel' contextId' event')
          ∨ (channel' = channel
             ∧ contextId' = findTopLevelContextId storage contextId
             ∧ event' ∈ names).
Proof.
  intros Hall. revert s. induction Hall as [|ev names Hev _ IH]; intros s.
  - exists s. split; [done|]. split; [apply extends_refl|].
    intros ch k e. split; [by left|]. intros [?|(_ & _ & []%elem_of_nil)]. done.
  - cbn [foldl mbind option_bind]. rewrite subscribe_atomic by done.
    destruct (IH (subscribeAtomic ev (findTopLevelContextId storage contextId)
                    channel s)) as (s1 & Hs1 & Hext & Hiff).
    exists s1. split; [done|]. split.
    + eapply extends_trans; [apply subscribeAtomic_extends|done].
    + intros ch k e. rewrite Hiff, is_Some_subscribeAtomic, elem_of_cons.
      split.
      * intros [[?|(-> & -> & ->)]|(-> & -> & ?)]; auto.
      * intros [?|(-> & -> & [->|?])]; auto.
Qed.

(** X3. With tables of atomic names, [subscribe] to a group returns and
    records every event of the group's table under the channel and the
    top-level context (the storage being asked for the top level once by
    the outer call and once more by each inner one); what was recorded
    stays, with its priority, and nothing else is added. *)
Theorem subscribe_group_postcondition fuel event contextId channel s :
  tablesAtomic protocol → isGroup protocol event →
  let top := findTopLevelContextId storage
               (findTopLevelContextId storage contextId) in
  ∃ s1,
    subscribe protocol storage (S (S fuel)) event contextId channel s = Some s1
    ∧ extends s s1
    ∧ ∀ channel' contextId' event',
        is_Some (subscription s1 channel' contextId' event')
        ↔ is_Some (subscription s channel' contextId' event')
          ∨ (channel' = channel ∧ contextId' = top
             ∧ event' ∈ expand protocol event).
Proof.
  intros Htab Hg top. rewrite subscribe_group by done.
  by apply each_atomic_postcondition, expand_group_atomic.
Qed.

End ManagerFacts.

(** * Delivery after [subscribe] and [unsubscribeAll] *)
Section DeliveryFacts.
Import SubscriptionManager Reachable.
Context (protocol : Protocol) (storage : BrowsingContextStorage).
Implicit Types (s : SubscriptionManager) (channel contextId : option string).
Implicit Types (event : string).

Lemma elem_of_getChannels s eventMethod contextId channel :
  channel ∈ getChannelsSubscribedToEvent storage s eventMethod contextId
  ↔ ∃ p, applies storage s eventMethod contextId channel p.
Proof.
  unfold getChannelsSubscribedToEvent. rewrite list_elem_of_fmap. split.
  - intros ([p ch] & -> & Hin). apply elem_of_sorted in Hin as [Happ _].
    by exists p.
  - intros [p Hp]. destruct (applies_least _ _ _ _ _ _ Hp) as [q Hq].
    exists (q, channel). split; [done|]. by apply elem_of_sorted.
Qed.

Lemma getChannels_NoDup s eventMethod contextId :
  NoDup (jm_keys (channelToContextToEventMap s)) →
  NoDup (getChannelsSubscribedToEvent storage s eventMethod contextId).
Proof.
  intros Hnd. unfold getChannelsSubscribedToEvent.
  rewrite sort_by_priority_perm, prioritiesAndChannels_channels.
  by apply NoDup_filter.
Qed.

Lemma StronglySorted_strengthen {A} (R R' : A → A → Prop) (l : list A) :
  StronglySorted R l → NoDup l →
  (∀ x y, x ∈ l → y ∈ l → x ≠ y → R x y → R' x y) →
  StronglySorted R' l.
Proof.
  induction 1 as [|x l Hs IH Hx]; intros Hnd Himp; [constructor|].
  apply NoDup_cons in Hnd as [Hni Hnd]. constructor.
  - apply IH; [done|]. intros y z Hy Hz. apply Himp; by apply elem_of_cons; right.
  - rewrite Forall_forall in Hx |- *. intros y Hy. apply Himp.
    + apply elem_of_cons. by left.
    + apply elem_of_cons. by right.
    + by intros ->.
    + by apply Hx.
Qed.

(** X4. When the outer map lists no channel twice and no two
    subscriptions share a priority, the channels come out of
    [getChannelsSubscribedToEvent] in strictly ascending order of their
    priorities (for each channel the least that applies), so the order of
    the result does not depend on the order of the outer map. *)
Theorem getChannels_strictly_ascending s eventMethod contextId :
  NoDup (jm_keys (channelToContextToEventMap s)) →
  prioritiesDistinct s →
  ∃ priorities,
    Forall2 (leastApplying storage s eventMethod contextId)
      (getChannelsSubscribedToEvent storage s eventMethod contextId)
      priorities
    ∧ StronglySorted N.lt priorities.
Proof.
  intros Hnd Hdistinct.
  pose proof (getChannels_NoDup s eventMethod contextId Hnd) as Hnd'.
  unfold getChannelsSubscribedToEvent in *.
  set (sorted := sort_by_priority
                   (prioritiesAndChannels storage s eventMethod contextId))
    in *.
  exists sorted.*1. split.
  - apply Forall2_fmap, Forall2_same_length_lookup_2; [done|].
    intros i [p ch] [p' ch'] H1 H2. simplify_eq. simpl.
    apply elem_of_sorted. by eapply list_elem_of_lookup_2.
  - apply (StronglySorted_fmap fst (λ a b : N * option string, (a.1 < b.1)%N));
      [done|].
    apply (StronglySorted_strengthen (λ a b, (a.1 ≤ b.1)%N));
      [apply sort_by_priority_sorted|by eapply NoDup_fmap_1|].
    intros [p1 ch1] [p2 ch2] H1 H2 Hne Hle. simpl in *.
    destruct (decide (p1 = p2)) as [->|?]; [|lia].
    apply elem_of_sorted in H1 as [(k1 & _ & H1) _].
    apply elem_of_sorted in H2 as [(k2 & _ & H2) _].
    destruct (Hdistinct _ _ _ _ _ _ _ H1 H2) as (-> & _). done.
Qed.

(** X5. After [subscribe] to an atomic event, the channels delivered to
    are those delivered to before and, for that event in every context
    whose top level is the one subscribed (in every context, when the
    subscription is global), the subscribing channel. *)
Theorem subscribe_then_delivered fuel event contextId channel s :
  ¬ isGroup protocol event →
  ∃ s1,
    subscribe protocol storage (S fuel) event contextId channel s = Some s1
    ∧ ∀ channel' eventMethod contextId',
        channel' ∈ getChannelsSubscribedToEvent storage s1 eventMethod contextId'
        ↔ channel' ∈ getChannelsSubscribedToEvent storage s eventMethod
                       contextId'
          ∨ (channel' = channel ∧ eventMethod = event
             ∧ (findTopLevelContextId storage contextId = None
                ∨ findTopLevelContextId storage contextId
                  = findTopLevelContextId storage contextId')).
Proof.
  intros Hatomic. eexists. split; [by apply subscribe_atomic|].
  intros channel' eventMethod contextId'. rewrite !elem_of_getChannels.
  set (top := findTopLevelContextId storage contextId).
  assert (∀ s0, (∃ p, applies storage s0 eventMethod contextId' channel' p)
                ↔ is_Some (subscription s0 channel' None eventMethod)
                  ∨ is_Some (subscription s0 channel'
                               (findTopLevelContextId storage contextId')
                               eventMethod)) as Happ.
  { intros s0. unfold applies. split.
    - intros (p & k & [-> | ->] & Hp); eauto.
    - intros [[p Hp]|[p Hp]]; exists p; eauto. }
  rewrite !Happ, !is_Some_subscribeAtomic. split.
  - intros [[?|(-> & Hk & ->)]|[?|(-> & Hk & ->)]]; auto.
  - intros [[?|?]|(-> & -> & [Hk|Hk])]; auto.
Qed.

End DeliveryFacts.

(** * More on [unsubscribeAll] *)
Section UnsubscribeMore.
Import SubscriptionManager Reachable.
Context (protocol : Protocol) (storage : BrowsingContextStorage).
Implicit Types (s : SubscriptionManager) (channel contextId : option string).
Implicit Types (o : Objects) (u : Unsubscribe).

(** A call returns only when every context is known and every pair has
    its subscription; the manager it leaves is what the closures made. *)
Lemma unsubscribeAll_returns events contextIds channel s s' :
  unsubscribeAll protocol storage events contextIds channel s = (Normal (), s') →
  Forall (known storage) contextIds
  ∧ Forall (recorded storage s channel)
      (eventContextPairs protocol events contextIds)
  ∧ s' = release channel (subscriptionPriority s)
           (foldl (λ o u, runUnsubscribe u o) (capture channel s)
              (closureOf storage channel
                 <$> eventContextPairs protocol events contextIds)).
Proof.
  rewrite unsubscribeAll_unfold.
  destruct (assert_contexts_cases storage contextIds s)
    as [[Hknown [units ->]]|(id & _ & _ & ->)]; [|done].
  destruct (check_pairs_cases storage
              (eventContextPairs protocol events contextIds) channel s)
    as [[Hall ->]|[_ [message ->]]]; [|done].
  by intros [= <-].
Qed.

Lemma unsubscribeAll_removes_pairs events contextIds channel s s' :
  unsubscribeAll protocol storage events contextIds channel s = (Normal (), s') →
  ∀ pair, pair ∈ eventContextPairs protocol events contextIds →
    subscription s' channel (findTopLevelContextId storage pair.2) pair.1
    = None.
Proof.
  intros (_ & _ & ->)%unsubscribeAll_returns pair Hpair.
  apply subscription_release.
  apply (run_all_removes _ _ (closureOf storage channel pair)).
  by apply list_elem_of_fmap_2.
Qed.

Lemma runUnsubscribe_untouched u o key event :
  ¬ (u_eventMap u = key ∧ u_event u = event) →
  eventMaps (runUnsubscribe u o) !! key ≫= (.!! event)
  = eventMaps o !! key ≫= (.!! event).
Proof.
  intros Hne. unfold runUnsubscribe. simpl.
  destruct (decide (u_eventMap u = key)) as [<-|Hkey].
  - rewrite lookup_insert_eq. simpl.
    rewrite lookup_delete_ne by (intros ?; by apply Hne).
    destruct (eventMaps o !! u_eventMap u); simpl; [done|].
    by rewrite lookup_empty.
  - by rewrite lookup_insert_ne.
Qed.

Lemma run_all_untouched (us : list Unsubscribe) o key event :
  (∀ u, u ∈ us → ¬ (u_eventMap u = key ∧ u_event u = event)) →
  eventMaps (foldl (λ o u, runUnsubscribe u o) o us) !! key ≫= (.!! event)
  = eventMaps o !! key ≫= (.!! event).
Proof.
  revert o. induction us as [|u us IH]; intros o Hne; simpl; [done|].
  rewrite IH by (intros u' Hu'; apply Hne, elem_of_cons; by right).
  apply runUnsubscribe_untouched, Hne, elem_of_cons. by left.
Qed.

(** As long as no closure deletes a key the context map holds, the
    closures leave its keys and the outer map alone. *)
Lemma run_all_keeps_keys (us : list Unsubscribe) o :
  size (contextKeys o) ≠ 0 →
  (∀ u, u ∈ us → Some (u_event u) ∉ contextKeys o) →
  contextKeys (foldl (λ o u, runUnsubscribe u o) o us) = contextKeys o
  ∧ outerMap (foldl (λ o u, runUnsubscribe u o) o us) = outerMap o.
Proof.
  revert o. induction us as [|u us IH]; intros o Hsize Hkeys; simpl; [done|].
  assert (Some (u_event u) ∉ contextKeys o) as Hu
    by (apply Hkeys, elem_of_cons; by left).
  assert (contextKeys (runUnsubscribe u o) = contextKeys o) as Hsame.
  { unfold runUnsubscribe. simpl. case_decide; [|done].
    apply set_eq. intros key.
    rewrite elem_of_difference, elem_of_singleton. split; [tauto|].
    intros Hin. split; [done|]. by intros ->. }
  assert (outerMap (runUnsubscribe u o) = outerMap o) as Houter.
  { unfold runUnsubscribe in Hsame |- *. simpl in *. rewrite Hsame.
    by rewrite decide_False. }
  destruct (IH (runUnsubscribe u o)) as [Hkeys' Houter'].
  - by rewrite Hsame.
  - intros u' Hu'. rewrite Hsame. apply Hkeys, elem_of_cons. by right.
  - by rewrite Hkeys', Houter', Hsame, Houter.
Qed.

Lemma elem_of_cartesianProduct {A B} (a : list A) (b : list B) (d : A) (e : B) :
  (d, e) ∈ cartesianProduct a b ↔ d ∈ a ∧ e ∈ b.
Proof.
  unfold cartesianProduct. rewrite list_elem_of_bind. split.
  - intros (d' & (e' & [= -> ->] & He)%list_elem_of_fmap & Hd). done.
  - intros [Hd He]. exists d. split; [|done].
    apply list_elem_of_fmap. by exists e.
Qed.

Lemma runUnsubscribe_dom u o :
  dom (eventMaps o) ⊆ dom (eventMaps (runUnsubscribe u o)).
Proof.
  unfold runUnsubscribe. simpl. intros key Hkey.
  rewrite dom_insert. apply elem_of_union. by right.
Qed.

Lemma run_all_dom (us : list Unsubscribe) o :
  dom (eventMaps o)
  ⊆ dom (eventMaps (foldl (λ o u, runUnsubscribe u o) o us)).
Proof.
  revert o. induction us as [|u us IH]; intros o; simpl; [done|].
  etrans; [apply (runUnsubscribe_dom u)|apply IH].
Qed.

Lemma unsubscribeAll_effect events contextIds channel s s' :
  unsubscribeAll protocol storage events contextIds channel s = (Normal (), s') →
  (∀ event, event ∈ unrollEvents protocol events →
     Some event ∉ contextsOf s channel) →
  (∀ pair, pair ∈ eventContextPairs protocol events contextIds →
     subscription s' channel (findTopLevelContextId storage pair.2) pair.1
     = None)
  ∧ (∀ contextId event,
       (∀ pair, pair ∈ eventContextPairs protocol events contextIds →
          ¬ (findTopLevelContextId storage pair.2 = contextId
             ∧ pair.1 = event)) →
       subscription s' channel contextId event
       = subscription s channel contextId event)
  ∧ (∀ channel' contextId event,
       channel' ≠ channel →
       subscription s' channel' contextId event
       = subscription s channel' contextId event)
  ∧ subscriptionPriority s' = subscriptionPriority s
  ∧ jm_keys (channelToContextToEventMap s')
    = jm_keys (channelToContextToEventMap s)
  ∧ contextsOf s' channel = contextsOf s channel.
Proof.
  intros Hcall Hnames.
  split; [by apply (unsubscribeAll_removes_pairs _ _ _ _ _ Hcall)|].
  destruct (unsubscribeAll_only_removes _ _ _ _ _ _ _ Hcall)
    as (_ & Hcounter & Hother & _).
  cut ((∀ contextId event,
          (∀ pair, pair ∈ eventContextPairs protocol events contextIds →
             ¬ (findTopLevelContextId storage pair.2 = contextId
                ∧ pair.1 = event)) →
          subscription s' channel contextId event
          = subscription s channel contextId event)
       ∧ jm_keys (channelToContextToEventMap s')
         = jm_keys (channelToContextToEventMap s)
       ∧ contextsOf s' channel = contextsOf s channel); [tauto|].
  apply unsubscribeAll_returns in Hcall as (_ & Hrecorded & ->).
  set (pairs := eventContextPairs protocol events contextIds) in *.
  destruct (decide (pairs = [])) as [->|Hne].
  { change (closureOf storage channel <$> []) with (@nil Unsubscribe).
    cbn [foldl]. by rewrite release_capture. }
  assert (∃ pair0, pair0 ∈ pairs) as [pair0 Hpair0].
  { destruct pairs as [|p ps]; [done|]. exists p. apply elem_of_cons. by left. }
  rewrite Forall_forall in Hrecorded.
  (* the channel has its context map, which holds a key *)
  destruct (Hrecorded _ Hpair0) as [p0 Hp0]. unfold subscription in Hp0.
  destruct (jm_get channel (channelToContextToEventMap s)) as [cm|] eqn:Hcm;
    [|done].
  assert (contextsOf s channel = dom cm) as Hcontexts
    by (unfold contextsOf; by rewrite Hcm).
  assert (size (dom cm) ≠ 0) as Hsize.
  { intros Hzero. apply size_empty_inv in Hzero.
    destruct (cm !! findTopLevelContextId storage pair0.2) as [em|] eqn:Hem;
      [|done].
    assert (findTopLevelContextId storage pair0.2 ∈ dom cm) as Hin
      by (apply elem_of_dom; eauto).
    rewrite Hzero in Hin. by apply elem_of_empty in Hin. }
  set (us := closureOf storage channel <$> pairs).
  assert (capture channel s
          = {| eventMaps := cm; contextKeys := dom cm;
               outerMap := channelToContextToEventMap s |}) as Hcapture
    by (unfold capture; by rewrite Hcm).
  destruct (run_all_keeps_keys us (capture channel s)) as [Hkeys Houter].
  { by rewrite Hcapture. }
  { intros u (pair & -> & Hpair)%list_elem_of_fmap. rewrite Hcapture. simpl.
    rewrite <-Hcontexts. apply Hnames. destruct pair as [event contextId].
    by apply elem_of_cartesianProduct in Hpair as [? _]. }
  set (o' := foldl (λ o u, runUnsubscribe u o) (capture channel s) us) in *.
  rewrite Hcapture in Hkeys, Houter. simpl in Hkeys, Houter.
  assert (jm_has channel (channelToContextToEventMap s) = true) as Hhas
    by (apply jm_has_true; eauto).
  assert (channelToContextToEventMap
            (release channel (subscriptionPriority s) o')
          = jm_set channel (filter (λ kv, kv.1 ∈ dom cm) (eventMaps o'))
              (channelToContextToEventMap s)) as Hrelease.
  { unfold release. simpl. by rewrite Houter, Hkeys, Hhas. }
  assert (dom (filter (λ kv : option string * gmap string N, kv.1 ∈ dom cm)
                 (eventMaps o')) = dom cm) as Hdom.
  { apply set_eq. intros key. rewrite elem_of_dom. split.
    - intros [em Hem]. by apply map_lookup_filter_Some in Hem as [_ ?].
    - intros Hkey.
      assert (key ∈ dom (eventMaps o')) as [em Hem]%elem_of_dom.
      { apply (run_all_dom us (capture channel s)). by rewrite Hcapture. }
      exists em. by apply map_lookup_filter_Some. }
  split; [|split].
  - intros contextId event Hnone. unfold subscription at 1.
    rewrite Hrelease, jm_get_set_eq.
    assert (eventMaps o' !! contextId ≫= (.!! event)
            = cm !! contextId ≫= (.!! event)) as Hsame.
    { subst o'. rewrite run_all_untouched; [by rewrite Hcapture|].
      intros u (pair & -> & Hpair)%list_elem_of_fmap. simpl.
      by apply Hnone. }
    unfold subscription. rewrite Hcm, <-Hsame.
    destruct (filter _ (eventMaps o') !! contextId) as [em|] eqn:Hem.
    + apply map_lookup_filter_Some in Hem as [Hem _]. by rewrite Hem.
    + apply map_lookup_filter_None in Hem as [Hem|Hem]; [by rewrite Hem|].
      destruct (eventMaps o' !! contextId) as [em|] eqn:Hem'; [|done].
      assert (contextId ∉ dom cm) as Hni by (by apply (Hem em)).
      apply not_elem_of_dom in Hni. rewrite Hsame, Hni. done.
  - rewrite Hrelease. apply jm_keys_set_present. eauto.
  - unfold contextsOf at 1. rewrite Hrelease, jm_get_set_eq. simpl.
    by rewrite Hdom, Hcontexts.
Qed.

(** X6. When no context of the channel is named like an event of the
    call, a returning [unsubscribeAll] removes the subscriptions of its
    pairs and nothing else: every other subscription of the channel and
    of the other channels is as it was, and so are the counter, the
    channels of the outer map and the contexts of the channel, those
    whose event map is now empty included. *)
Theorem unsubscribeAll_exact events contextIds channel s s' :
  unsubscribeAll protocol storage events contextIds channel s = (Normal (), s') →
  (∀ event, event ∈ unrollEvents protocol events →
     Some event ∉ contextsOf s channel) →
  (∀ pair, pair ∈ eventContextPairs protocol events contextIds →
     subscription s' channel (findTopLevelContextId storage pair.2) pair.1
     = None)
  ∧ (∀ contextId event,
       (∀ pair, pair ∈ eventContextPairs protocol events contextIds →
          ¬ (findTopLevelContextId storage pair.2 = contextId
             ∧ pair.1 = event)) →
       subscription s' channel contextId event
       = subscription s channel contextId event)
  ∧ (∀ channel' contextId event,
       channel' ≠ channel →
       subscription s' channel' contextId event
       = subscription s channel' contextId event)
  ∧ subscriptionPriority s' = subscriptionPriority s
  ∧ jm_keys (channelToContextToEventMap s')
    = jm_keys (channelToContextToEventMap s)
  ∧ contextsOf s' channel = contextsOf s channel.
Proof. apply unsubscribeAll_effect. Qed.

(** X7. After a returning [unsubscribeAll], a channel that had no global
    subscription to an event of the call is no longer delivered that
    event in the contexts of the call's pairs, nor in any context with
    the same top level. *)
Theorem unsubscribe_then_not_delivered events contextIds channel s s'
    event contextId contextId' :
  unsubscribeAll protocol storage events contextIds channel s = (Normal (), s') →
  (event, contextId) ∈ eventContextPairs protocol events contextIds →
  findTopLevelContextId storage contextId'
  = findTopLevelContextId storage contextId →
  subscription s channel None event = None →
  channel ∉ getChannelsSubscribedToEvent storage s' event contextId'.
Proof.
  intros Hcall Hpair Htop Hglobal. rewrite elem_of_getChannels.
  intros (p & key & [-> | ->] & Hp).
  - destruct (unsubscribeAll_only_removes _ _ _ _ _ _ _ Hcall) as (Hext & _).
    apply Hext in Hp. by rewrite Hglobal in Hp.
  - rewrite Htop in Hp.
    pose proof (unsubscribeAll_removes_pairs _ _ _ _ _ Hcall _ Hpair) as Hgone.
    simpl in Hgone. by rewrite Hgone in Hp.
Qed.

Lemma cartesianProduct_nil_r {A B} (a : list A) :
  cartesianProduct a (@nil B) = [].
Proof. unfold cartesianProduct. by induction a. Qed.

(** X8. With nothing to remove, because no event is left after unrolling
    or no context is given, [unsubscribeAll] returns and leaves the
    manager as it was, provided the storage knows the contexts. *)
Theorem unsubscribeAll_nothing_to_do events contextIds channel s :
  Forall (known storage) contextIds →
  unrollEvents protocol events = [] ∨ contextIds = [] →
  unsubscribeAll protocol storage events contextIds channel s = (Normal (), s).
Proof.
  intros Hknown Hempty. rewrite unsubscribeAll_unfold.
  destruct (assert_contexts_cases storage contextIds s)
    as [[_ [units ->]]|(id & Hin & Hid & _)].
  - assert (eventContextPairs protocol events contextIds = []) as ->.
    { unfold eventContextPairs. destruct Hempty as [-> | ->]; [done|].
      apply cartesianProduct_nil_r. }
    simpl. by rewrite release_capture.
  - rewrite Forall_forall in Hknown. specialize (Hknown _ Hin).
    simpl in Hknown. congruence.
Qed.

Lemma check_pairs_first_missing (l1 l2 : list (string * option string))
    pair channel s :
  Forall (recorded storage s channel) l1 →
  ¬ recorded storage s channel pair →
  mapM (λ '(event, contextId),
          checkUnsubscribe storage event contextId channel)
    (l1 ++ pair :: l2) s
  = (Throw (InvalidArgumentException
              (noSubscriptionFound pair.1
                 (findTopLevelContextId storage pair.2))), s).
Proof.
  intros Hall Hmissing. induction Hall as [|[event contextId] l1 Hrec _ IH].
  - destruct pair as [event contextId]. simpl app. rewrite mapM_cons.
    cbv beta iota.
    by destruct (checkUnsubscribe_cases storage event contextId channel s)
      as [[? _]|[_ ->]].
  - simpl app. rewrite mapM_cons. cbv beta iota.
    destruct (checkUnsubscribe_cases storage event contextId channel s)
      as [[_ ->]|[? _]]; [|done].
    by rewrite IH.
Qed.

(** X9. When the storage knows the contexts and some pair has no
    subscription, the exception of [unsubscribeAll] names the first such
    pair in the order of the product (events outermost): its event and
    the top-level context looked up, [null] for the global one. *)
Theorem unsubscribeAll_names_first_missing events contextIds channel s
    l1 pair l2 :
  Forall (known storage) contextIds →
  eventContextPairs protocol events contextIds = l1 ++ pair :: l2 →
  Forall (recorded storage s channel) l1 →
  ¬ recorded storage s channel pair →
  unsubscribeAll protocol storage events contextIds channel s
  = (Throw (InvalidArgumentException
              ("Cannot unsubscribe from " +:+ pair.1 +:+ ", "
               +:+ default "null" (findTopLevelContextId storage pair.2)
               +:+ ". No subscription found.")), s).
Proof.
  intros Hknown Hpairs Hall Hmissing. rewrite unsubscribeAll_unfold.
  destruct (assert_contexts_cases storage contextIds s)
    as [[_ [units ->]]|(id & Hin & Hid & _)].
  - by rewrite Hpairs, check_pairs_first_missing.
  - rewrite Forall_forall in Hknown. specialize (Hknown _ Hin).
    simpl in Hknown. congruence.
Qed.

End UnsubscribeMore.

(** * [subscribe] followed by [unsubscribe] *)
Section RoundTrip.
Import SubscriptionManager Reachable.
Context (protocol : Protocol) (storage : BrowsingContextStorage).
Implicit Types (s : SubscriptionManager) (channel contextId : option string).
Implicit Types (event : string).

Lemma unrollEvents_atomic event :
  ¬ isGroup protocol event → unrollEvents protocol [event] = [event].
Proof.
  unfold isGroup, unrollEvents. intros Hatomic. simpl.
  repeat case_decide; tauto || done.
Qed.

(** The priority of a channel is read off its subscriptions. *)
Lemma priority_ext s s' eventMethod contextId channel :
  (∀ key event, subscription s' channel key event
                = subscription s channel key event) →
  getEventSubscriptionPriorityForChannel storage s' eventMethod contextId
    channel
  = getEventSubscriptionPriorityForChannel storage s eventMethod contextId
      channel.
Proof.
  intros Hsame.
  assert (∀ p, applies storage s' eventMethod contextId channel p
               ↔ applies storage s eventMethod contextId channel p) as Happ.
  { intros p. unfold applies. by setoid_rewrite Hsame. }
  assert (∀ p, leastApplying storage s' eventMethod contextId channel p
               ↔ leastApplying storage s eventMethod contextId channel p)
    as Hleast.
  { intros p. unfold leastApplying. rewrite Happ. by setoid_rewrite Happ. }
  destruct (getEventSubscriptionPriorityForChannel storage s' eventMethod
              contextId channel) as [p|] eqn:Hp.
  - symmetry. apply getEventSubscriptionPriorityForChannel_Some, Hleast.
    by apply getEventSubscriptionPriorityForChannel_Some.
  - destruct (getEventSubscriptionPriorityForChannel storage s eventMethod
                contextId channel) as [q|] eqn:Hq; [|done].
    apply getEventSubscriptionPriorityForChannel_Some, Hleast,
      getEventSubscriptionPriorityForChannel_Some in Hq. congruence.
Qed.

(** Channels come and go at the end of the outer map without a change to
    the list of an event, as long as the subscriptions are the same. *)
Lemma getChannels_ext s s' eventMethod contextId :
  (∀ channel key event, subscription s' channel key event
                        = subscription s channel key event) →
  (jm_keys (channelToContextToEventMap s')
   = jm_keys (channelToContextToEventMap s)
   ∨ ∃ channel, jm_get channel (channelToContextToEventMap s) = None
       ∧ jm_keys (channelToContextToEventMap s')
         = jm_keys (channelToContextToEventMap s) ++ [channel]) →
  getChannelsSubscribedToEvent storage s' eventMethod contextId
  = getChannelsSubscribedToEvent storage s eventMethod contextId.
Proof.
  intros Hsame Hkeys. unfold getChannelsSubscribedToEvent. do 2 f_equal.
  unfold prioritiesAndChannels.
  assert (∀ l : list (option string),
            omap (λ channel,
                    (λ priority, (priority, channel)) <$>
                      getEventSubscriptionPriorityForChannel storage s'
                        eventMethod contextId channel) l
            = omap (λ channel,
                      (λ priority, (priority, channel)) <$>
                        getEventSubscriptionPriorityForChannel storage s
                          eventMethod contextId channel) l) as Hmap.
  { intros l. induction l as [|channel l IH]; [done|]. simpl.
    rewrite (priority_ext s s') by (intros; apply Hsame).
    destruct (getEventSubscriptionPriorityForChannel storage s eventMethod
                contextId channel); simpl; [f_equal|]; apply IH. }
  destruct Hkeys as [->|(channel & Hnone & ->)]; [apply Hmap|].
  rewrite Hmap, omap_app. simpl.
  unfold getEventSubscriptionPriorityForChannel at 2. rewrite Hnone. simpl.
  by rewrite app_nil_r.
Qed.

Lemma contextsOf_subscribeAtomic event contextId channel s :
  contextsOf (subscribeAtomic event contextId channel s) channel
  = {[contextId]} ∪ contextsOf s channel.
Proof.
  unfold contextsOf. rewrite subscribeAtomic_outer, jm_get_set_eq. simpl.
  by rewrite dom_insert_L.
Qed.

Lemma keys_subscribeAtomic event contextId channel s :
  jm_keys (channelToContextToEventMap
             (subscribeAtomic event contextId channel s))
  = jm_keys (channelToContextToEventMap s)
  ∨ ∃ channel', jm_get channel' (channelToContextToEventMap s) = None
      ∧ jm_keys (channelToContextToEventMap
                   (subscribeAtomic event contextId channel s))
        = jm_keys (channelToContextToEventMap s) ++ [channel'].
Proof.
  rewrite subscribeAtomic_outer.
  destruct (jm_get channel (channelToContextToEventMap s)) as [cm|] eqn:Hget.
  - left. by apply jm_keys_set_present.
  - right. exists channel. split; [done|]. by apply jm_keys_set_absent.
Qed.

(** A returning [unsubscribeAll] whose checks all pass. *)
Lemma unsubscribeAll_passes events contextIds channel s :
  Forall (known storage) contextIds →
  Forall (recorded storage s channel)
    (eventContextPairs protocol events contextIds) →
  ∃ s', unsubscribeAll protocol storage events contextIds channel s
        = (Normal (), s').
Proof.
  intros Hknown Hrecorded. rewrite unsubscribeAll_unfold.
  destruct (assert_contexts_cases storage contextIds s)
    as [[_ [units ->]]|(id & Hin & Hid & _)].
  2: { rewrite Forall_forall in Hknown. specialize (Hknown _ Hin).
       simpl in Hknown. congruence. }
  destruct (check_pairs_cases storage
              (eventContextPairs protocol events contextIds) channel s)
    as [[_ ->]|[Hex _]].
  - by eexists.
  - apply Exists_exists in Hex as (pair & Hin & Hnot).
    rewrite Forall_forall in Hrecorded. destruct Hnot. by apply Hrecorded.
Qed.

(** X10. Subscribing to an atomic event that was not subscribed and then
    unsubscribing from it brings every subscription and every list of
    channels back to what they were, provided the event name is not the
    name of a context of the channel.  The manager is not the one it was:
    the counter has moved on, and the context stays under the channel. *)
Theorem subscribe_unsubscribe_round_trip fuel event contextId channel s :
  ¬ isGroup protocol event →
  known storage contextId →
  subscription s channel (findTopLevelContextId storage contextId) event
  = None →
  findTopLevelContextId storage contextId ≠ Some event →
  Some event ∉ contextsOf s channel →
  ∃ s1 s2,
    subscribe protocol storage (S fuel) event contextId channel s = Some s1
    ∧ unsubscribe protocol storage event contextId channel s1
      = (Normal (), s2)
    ∧ (∀ channel' contextId' event',
         subscription s2 channel' contextId' event'
         = subscription s channel' contextId' event')
    ∧ (∀ eventMethod contextId',
         getChannelsSubscribedToEvent storage s2 eventMethod contextId'
         = getChannelsSubscribedToEvent storage s eventMethod contextId')
    ∧ subscriptionPriority s2 = next_priority (subscriptionPriority s)
    ∧ findTopLevelContextId storage contextId ∈ contextsOf s2 channel.
Proof.
  intros Hatomic Hknown Hnew Htop Hname.
  set (top := findTopLevelContextId storage contextId) in *.
  set (s1 := subscribeAtomic event top channel s).
  assert (eventContextPairs protocol [event] [contextId]
          = [(event, contextId)]) as Hpairs.
  { unfold eventContextPairs. by rewrite unrollEvents_atomic. }
  destruct (unsubscribeAll_passes [event] [contextId] channel s1)
    as [s2 Hcall].
  { by repeat constructor. }
  { rewrite Hpairs. repeat constructor. unfold recorded. simpl. fold top.
    unfold s1. rewrite subscription_subscribeAtomic.
    by destruct (decide (_ ∧ _ ∧ _)) as [_|Hn]; [|destruct Hn]. }
  exists s1, s2. split; [by apply subscribe_atomic|]. split; [done|].
  destruct (unsubscribeAll_effect protocol storage _ _ _ _ _ Hcall)
    as (Hgone & Hkept & Hother & Hcounter & Hkeys & Hcontexts).
  { intros event' Hin. rewrite unrollEvents_atomic in Hin by done.
    apply list_elem_of_singleton in Hin as ->. unfold s1.
    rewrite contextsOf_subscribeAtomic, elem_of_union, elem_of_singleton.
    intros [Heq|Hin]; [by apply Htop|by apply Hname]. }
  assert (∀ channel' contextId' event',
            subscription s2 channel' contextId' event'
            = subscription s channel' contextId' event') as Hsame.
  { intros channel' contextId' event'.
    destruct (decide (channel' = channel ∧ contextId' = top ∧ event' = event))
      as [(-> & -> & ->)|Hne].
    - rewrite Hnew. apply (Hgone (event, contextId)). rewrite Hpairs.
      by apply list_elem_of_singleton.
    - transitivity (subscription s1 channel' contextId' event').
      + destruct (decide (channel' = channel)) as [->|Hch]; [|by apply Hother].
        apply Hkept. intros pair Hin [Hctx Hev]. rewrite Hpairs in Hin.
        apply list_elem_of_singleton in Hin as ->. simpl in *. by apply Hne.
      + unfold s1. rewrite subscription_subscribeAtomic.
        by destruct (decide (_ ∧ _ ∧ _)). }
  split; [done|]. split; [|split].
  - intros eventMethod contextId'. apply getChannels_ext; [done|].
    rewrite Hkeys. apply keys_subscribeAtomic.
  - rewrite Hcounter. unfold s1. rewrite subscribeAtomic_priority.
    destruct (decide (is_Some _)) as [[p Hp]|_]; [congruence|done].
  - rewrite Hcontexts. unfold s1.
    rewrite contextsOf_subscribeAtomic, elem_of_union, elem_of_singleton.
    by left.
Qed.
End RoundTrip.

(** * [cartesianProduct] over any number of arrays *)
Section VariadicFacts.
Import Variadic.
Context {A : Type}.
Implicit Types (l : list A) (ls : list (list A)) (T : list (list A)).

(** One round of the reduction on tuples built so far. *)
Lemma product_step T l :
  step (tuple <$> T) (atoms l)
  = tuple <$> (t ← T; (λ x, t ++ [x]) <$> l).
Proof.
  unfold step, atoms. induction T as [|t T IH]; [done|].
  rewrite fmap_cons, !bind_cons, fmap_app, IH. f_equal.
  rewrite <-!list_fmap_compose. apply list_fmap_ext. intros _ x _. simpl.
  unfold flat, tuple, atoms. simpl. by rewrite fmap_app.
Qed.

Lemma product_fold ls : ∀ T,
  foldl step (tuple <$> T) (atoms <$> ls)
  = tuple <$> (t ← T; (t ++.) <$> tuples ls).
Proof.
  induction ls as [|l ls IH]; intros T.
  - simpl. f_equal. induction T as [|t T IHT]; [done|].
    rewrite bind_cons. simpl. by rewrite app_nil_r, <-IHT.
  - rewrite fmap_cons. cbn [foldl]. rewrite product_step, IH. f_equal.
    clear IH. induction T as [|t T IHT]; [done|].
    rewrite !bind_cons, bind_app, IHT. f_equal. clear IHT.
    cbn [tuples]. induction l as [|x l IHl]; [done|].
    rewrite fmap_cons, !bind_cons, fmap_app, IHl. f_equal.
    rewrite <-list_fmap_compose. apply list_fmap_ext. intros _ t' _. simpl.
    by rewrite <-app_assoc.
Qed.

(** X11. For two or more arrays whose elements are not arrays,
    [cartesianProduct] returns the tuples over them, one element of each
    array in the order of the arrays, the first component changing
    slowest. *)
Theorem cartesianProduct_tuples l1 l2 ls :
  cartesianProduct (atoms <$> l1 :: l2 :: ls)
  = Some (tuple <$> tuples (l1 :: l2 :: ls)).
Proof.
  unfold cartesianProduct, reduce. rewrite !fmap_cons. f_equal. cbn [foldl].
  assert (step (atoms l1) (atoms l2)
          = tuple <$> (x ← l1; (λ y, [x; y]) <$> l2)) as ->.
  { unfold step, atoms. induction l1 as [|x l1 IH]; [done|].
    rewrite fmap_cons, !bind_cons, fmap_app, IH. f_equal.
    rewrite <-!list_fmap_compose. by apply list_fmap_ext. }
  rewrite product_fold. f_equal. cbn [tuples].
  induction l1 as [|x l1 IH]; [done|].
  rewrite !bind_cons, bind_app, IH. f_equal. clear IH.
  induction l2 as [|y l2 IH]; [done|].
  rewrite fmap_cons, !bind_cons, fmap_app, IH. f_equal.
  rewrite <-!list_fmap_compose. by apply list_fmap_ext.
Qed.

(** X12. The pairs [unsubscribeAll] works on are those of the source's
    [cartesianProduct]: on two arrays of values that are not arrays, the
    result is the array of the two-element arrays [[d, e]], in the order
    of the pairs of the two-array model. *)
Theorem cartesianProduct_pairs {X Y} (f : X → A) (g : Y → A)
    (a : list X) (b : list Y) :
  cartesianProduct [Atom ∘ f <$> a; Atom ∘ g <$> b]
  = Some ((λ pair : X * Y, Array [Atom (f pair.1); Atom (g pair.2)])
            <$> SubscriptionManager.cartesianProduct a b).
Proof.
  unfold cartesianProduct, reduce, SubscriptionManager.cartesianProduct.
  f_equal. cbn [foldl]. unfold step.
  induction a as [|d a IH]; [done|].
  rewrite fmap_cons, !bind_cons, fmap_app, IH. f_equal.
  rewrite <-!list_fmap_compose. by apply list_fmap_ext.
Qed.

(** X13. Elements that are arrays are spliced: the product of two arrays
    of arrays holds the concatenations, not pairs of arrays. *)
Theorem cartesianProduct_splices (a b : list (list (Value A))) :
  cartesianProduct [Array <$> a; Array <$> b]
  = Some (Array <$> (d ← a; (d ++.) <$> b)).
Proof.
  unfold cartesianProduct, reduce. f_equal. cbn [foldl]. unfold step.
  induction a as [|d a IH]; [done|].
  rewrite fmap_cons, !bind_cons, fmap_app, IH. f_equal.
  rewrite <-!list_fmap_compose. apply list_fmap_ext. intros _ e _. simpl.
  unfold flat. simpl. by rewrite app_nil_r.
Qed.
End VariadicFacts.

(** * The report on the Web Platform Tests: strings *)
Section ReportStrings.
Import WptReport.
Implicit Types (a c : ascii) (str r : string).

Lemma append_cons a str1 str2 :
  String a str1 +:+ str2 = String a (str1 +:+ str2).
Proof. done. Qed.

Lemma append_empty_l str : "" +:+ str = str.
Proof. done. Qed.

Lemma append_empty_r str : str +:+ "" = str.
Proof. induction str as [|a str IH]; [done|]. by rewrite append_cons, IH. Qed.

Lemma append_assoc str1 str2 str3 :
  (str1 +:+ str2) +:+ str3 = str1 +:+ str2 +:+ str3.
Proof.
  induction str1 as [|a str1 IH]; [done|]. by rewrite !append_cons, IH.
Qed.

Lemma chars_app str1 str2 : chars (str1 +:+ str2) = chars str1 ++ chars str2.
Proof.
  induction str1 as [|a str1 IH]; [done|].
  rewrite append_cons. simpl. by rewrite IH.
Qed.

Lemma replaceAll_cons c r a str :
  replaceAll c r (String a str)
  = if decide (a = c) then r +:+ replaceAll c r str
    else String a (replaceAll c r str).
Proof. done. Qed.

Lemma replaceAll_app c r str1 str2 :
  replaceAll c r (str1 +:+ str2) = replaceAll c r str1 +:+ replaceAll c r str2.
Proof.
  induction str1 as [|a str1 IH]; [done|].
  rewrite append_cons, !replaceAll_cons, IH. case_decide; [|done].
  by rewrite append_assoc.
Qed.

(** The six replacements amount to one pass over the string. *)
Lemma escapeHtml_cons a str :
  escapeHtml (String a str) = escapeChar a +:+ escapeHtml str.
Proof.
  unfold escapeHtml, escapeChar.
  repeat (rewrite replaceAll_cons; case_decide; [subst|]);
    rewrite ?replaceAll_app; try done.
Qed.

Lemma escapeHtml_empty : escapeHtml "" = "".
Proof. done. Qed.

Lemma escapeHtml_app str1 str2 :
  escapeHtml (str1 +:+ str2) = escapeHtml str1 +:+ escapeHtml str2.
Proof.
  induction str1 as [|a str1 IH]; [done|].
  by rewrite append_cons, !escapeHtml_cons, IH, append_assoc.
Qed.

(** The entity of a character: the character itself, or text that starts
    with [&] and goes on without any of the six characters. *)
Lemma escapeChar_cases a :
  ((a ∉ special) ∧ escapeChar a = String a "")
  ∨ (a ∈ special
     ∧ ∃ rest, escapeChar a = String "&" rest
         ∧ rest ≠ "" ∧ Forall (λ c, c ∉ special) (chars rest)).
Proof.
  unfold escapeChar, special. repeat case_decide; subst.
  1-6: right; split; [apply (bool_decide_unpack _); by vm_compute|];
       eexists; split; [done|]; split; [done|];
       apply (bool_decide_unpack _); by vm_compute.
  left. split; [|done]. rewrite !elem_of_cons, elem_of_nil. tauto.
Qed.

(** X14. The six chained replacements of [escapeHtml] amount to one pass
    that writes the entity of each character: text written by an
    earlier replacement is not escaped again by a later one. *)
Theorem escapeHtml_one_pass str :
  escapeHtml str = foldr (λ a out, escapeChar a +:+ out) "" (chars str).
Proof.
  induction str as [|a str IH]; [done|].
  rewrite escapeHtml_cons. simpl. by rewrite IH.
Qed.

Lemma escapeHtml_chars str :
  Forall (λ c, c ∉ ["<"; ">"; "034"; "'"; "/"]%char) (chars (escapeHtml str))
  ∧ ("&"%char ∈ chars (escapeHtml str)
     ↔ Exists (λ a, a ∈ special) (chars str)).
Proof.
  induction str as [|a str [IH1 IH2]].
  - split; [constructor|]. simpl. rewrite Exists_nil, elem_of_nil. done.
  - rewrite escapeHtml_cons, chars_app. split.
    + apply Forall_app. split; [|done].
      destruct (escapeChar_cases a) as [[Ha ->]|[_ (rest & -> & _ & Hrest)]].
      * repeat constructor. intros Hin. apply Ha. unfold special.
        by apply elem_of_cons; right.
      * simpl. constructor; [apply (bool_decide_unpack _); by vm_compute|].
        eapply Forall_impl; [exact Hrest|]. intros c Hc Hin. apply Hc.
        unfold special. by apply elem_of_cons; right.
    + simpl. rewrite Exists_cons, elem_of_app, IH2.
      destruct (escapeChar_cases a) as [[Ha ->]|[Ha (rest & -> & _ & Hrest)]].
      * simpl. rewrite list_elem_of_singleton. split; [|tauto].
        intros [Heq|?]; [|tauto]. subst a. destruct Ha.
        apply (bool_decide_unpack _); by vm_compute.
      * simpl. split; [tauto|]. intros _. left. by apply elem_of_cons; left.
Qed.

(** X15. The text [escapeHtml] returns holds none of [<], [>], the double
    quote, the single quote and [/]; it holds [&] exactly when the
    argument holds one of the six characters. *)
Theorem escapeHtml_safe str :
  Forall (λ c, c ∉ ["<"; ">"; "034"; "'"; "/"]%char) (chars (escapeHtml str))
  ∧ ("&"%char ∈ chars (escapeHtml str)
     ↔ Exists (λ a, a ∈ special) (chars str)).
Proof. apply escapeHtml_chars. Qed.

Lemma length_append str1 str2 :
  String.length (str1 +:+ str2)
  = (String.length str1 + String.length str2)%nat.
Proof.
  induction str1 as [|a str1 IH]; [done|]. rewrite append_cons. simpl.
  by rewrite IH.
Qed.

Lemma length_escapeHtml str :
  (String.length str ≤ String.length (escapeHtml str))%nat.
Proof.
  induction str as [|a str IH]; [done|].
  rewrite escapeHtml_cons, length_append.
  destruct (escapeChar_cases a) as [[_ ->]|[_ (rest & -> & _ & _)]];
    simpl; lia.
Qed.

(** No entity is the beginning of another, and no other character
    begins one. *)
Lemma escapeChar_prefix_free a b str1 str2 :
  escapeChar a +:+ str1 = escapeChar b +:+ str2 → a = b ∧ str1 = str2.
Proof.
  unfold escapeChar. repeat case_decide; subst;
    rewrite ?append_cons, ?append_empty_l; intros Heq; by simplify_eq.
Qed.

Lemma escapeHtml_eq str1 str2 :
  escapeHtml str1 = escapeHtml str2 → str1 = str2.
Proof.
  revert str2. induction str1 as [|a str1 IH]; intros [|b str2].
  - done.
  - rewrite escapeHtml_cons.
    by destruct (escapeChar_cases b) as [[_ ->]|[_ (rest & -> & _)]].
  - rewrite escapeHtml_cons.
    by destruct (escapeChar_cases a) as [[_ ->]|[_ (rest & -> & _)]].
  - rewrite !escapeHtml_cons. intros [-> Heq]%escapeChar_prefix_free.
    f_equal. by apply IH.
Qed.

(** X16. [escapeHtml] loses nothing: two strings with the same escaped
    text are the same string. *)
Theorem escapeHtml_inj str1 str2 :
  escapeHtml str1 = escapeHtml str2 → str1 = str2.
Proof. apply escapeHtml_eq. Qed.

Lemma escapeHtml_fixed str :
  escapeHtml str = str ↔ Forall (λ a, a ∉ special) (chars str).
Proof.
  induction str as [|a str IH]; [by split; [constructor|]|].
  rewrite escapeHtml_cons. simpl. rewrite Forall_cons, <-IH.
  destruct (escapeChar_cases a) as [[Ha ->]|[Ha (rest & -> & Hrest & _)]].
  - rewrite append_cons, append_empty_l. split; [|by intros [_ ->]].
    by intros [= ->].
  - rewrite append_cons. split; [|tauto]. intros [= _ Heq]. exfalso.
    pose proof (length_escapeHtml str) as Hlen.
    apply (f_equal String.length) in Heq. rewrite length_append in Heq.
    destruct rest; [done|]. simpl in Heq. lia.
Qed.

(** X17. Escaping an escaped text changes it again exactly when the
    original holds one of the six characters: [escapeHtml] is not to be
    applied twice. *)
Theorem escapeHtml_twice str :
  escapeHtml (escapeHtml str) = escapeHtml str
  ↔ Forall (λ a, a ∉ special) (chars str).
Proof.
  rewrite escapeHtml_fixed.
  destruct (escapeHtml_chars str) as [Hnone Hamp].
  rewrite (Forall_Exists_neg (λ a, a ∈ special) (chars str)) at 1.
  rewrite <-Hamp. split.
  - intros Hall Hin. rewrite Forall_forall in Hall. apply (Hall _ Hin).
    apply (bool_decide_unpack _); by vm_compute.
  - intros Hno. rewrite Forall_forall in Hnone. apply Forall_forall.
    intros c Hc Hspecial. specialize (Hnone c Hc). unfold special in Hspecial.
    apply elem_of_cons in Hspecial as [->|Hspecial]; [by apply Hno|].
    by apply Hnone.
Qed.

Lemma split_nonempty c str : split c str ≠ [].
Proof.
  destruct str as [|a str]; [done|]. simpl. case_decide; [done|].
  by destruct (split c str).
Qed.

Lemma split_no_separator c str : c ∉ chars str → split c str = [str].
Proof.
  induction str as [|a str IH]; [done|]. simpl. rewrite not_elem_of_cons.
  intros [Hne Hnot]. rewrite IH by done. by case_decide.
Qed.

Lemma split_app c str1 str2 :
  split c (str1 +:+ String c str2) = split c str1 ++ split c str2.
Proof.
  induction str1 as [|a str1 IH].
  - rewrite append_empty_l. simpl. by case_decide.
  - rewrite append_cons. simpl. rewrite IH. case_decide; [done|].
    pose proof (split_nonempty c str1). by destruct (split c str1).
Qed.

Lemma split_subtest_path str name :
  split "/" (str +:+ "/" +:+ escapeHtml name)
  = split "/" str ++ [escapeHtml name].
Proof.
  rewrite append_cons, append_empty_l, split_app. f_equal.
  apply split_no_separator.
  destruct (escapeHtml_chars name) as [Hnone _].
  rewrite Forall_forall in Hnone. intros Hin. apply (Hnone _ Hin).
  apply (bool_decide_unpack _); by vm_compute.
Qed.

End ReportStrings.

(** * The report on the Web Platform Tests: the tree of the rows *)
Section ReportTree.
Import WptReport.
Implicit Types (t : Row) (tests : list Row) (map root : PathMap).
Implicit Types (parts qs : list string) (currentPath : string).

Lemma children_count t map : children (count t map) = children map.
Proof. by destruct map as [? ? [] ?]. Qed.

Lemma group_count t map : group (count t map) = group map.
Proof. by destruct map as [? ? [] ?]. Qed.

Lemma test_count t map : test (count t map) = test map.
Proof. by destruct map as [? ? [] ?]. Qed.

Lemma descend_count qs t map :
  qs ≠ [] → descend qs (count t map) = descend qs map.
Proof. destruct qs; [done|]. intros _. simpl. by rewrite children_count. Qed.

Lemma group_addTest parts currentPath t map :
  group (addTest parts currentPath t map) = group map.
Proof. by destruct parts. Qed.

Lemma stat_addTest parts currentPath t map :
  stat (addTest parts currentPath t map) = stat map.
Proof. by destruct parts. Qed.

Lemma test_addTest parts currentPath t map :
  test (addTest parts currentPath t map)
  = match parts with [] => Some t | _ => test map end.
Proof. by destruct parts. Qed.

Lemma children_addTest_NoDup parts currentPath t map :
  NoDup (jm_keys (children map)) →
  NoDup (jm_keys (children (addTest parts currentPath t map))).
Proof.
  intros Hnd. destruct parts as [|part parts]; [done|]. simpl.
  apply jm_keys_set_NoDup. case_match; [done|]. by apply jm_keys_set_NoDup.
Qed.

Lemma pathFrom_cons currentPath part parts :
  pathFrom currentPath (part :: parts)
  = pathFrom (currentPath +:+ "/" +:+ part) parts.
Proof. done. Qed.

(** The node found through [qs] after a row went in: a node on the way
    of the row is the node that was there, or a new one, counted and
    with the rest of the row below it; any other node is as it was. *)
Lemma descend_addTest parts : ∀ currentPath t map qs,
  qs ≠ [] →
  descend qs (addTest parts currentPath t map)
  = if decide (qs `prefix_of` parts)
    then Some (addTest (drop (length qs) parts) (pathFrom currentPath qs) t
                 (count t (default (newNode (pathFrom currentPath qs))
                             (descend qs map))))
    else descend qs map.
Proof.
  induction parts as [|part parts IH]; intros currentPath t map [|q qs] Hqs;
    try done.
  cbn [addTest descend children].
  set (currentPath' := currentPath +:+ "/" +:+ part).
  set (children1 := if jm_has part (children map) then children map
                    else jm_set part (newNode currentPath') (children map)).
  assert (default (newNode currentPath') (jm_get part children1)
          = default (newNode currentPath') (jm_get part (children map)))
    as Hchild.
  { unfold children1. destruct (jm_has part (children map)) eqn:Hhas; [done|].
    apply jm_has_false in Hhas. by rewrite Hhas, jm_get_set_eq. }
  destruct (decide (q = part)) as [->|Hne].
  + rewrite jm_get_set_eq, Hchild. cbn [mbind option_bind].
    rewrite pathFrom_cons. fold currentPath'. cbn [length drop].
    destruct qs as [|q' qs'].
    * cbn [descend]. rewrite decide_True by (apply prefix_cons, prefix_nil).
      cbn [pathFrom foldl drop length].
      by destruct (jm_get part (children map)).
    * rewrite IH by done. rewrite descend_count by done.
      assert (descend (q' :: qs')
                (default (newNode currentPath') (jm_get part (children map)))
              = jm_get part (children map) ≫= descend (q' :: qs')) as ->.
      { by destruct (jm_get part (children map)). }
      destruct (decide (q' :: qs' `prefix_of` parts)) as [Hp|Hp].
      -- by rewrite decide_True by by apply prefix_cons.
      -- rewrite decide_False; [done|].
         by intros ?%prefix_cons_inv_2.
  + rewrite jm_get_set_ne by done.
    assert (jm_get q children1 = jm_get q (children map)) as ->.
    { unfold children1. case_match; [done|]. by apply jm_get_set_ne. }
    rewrite decide_False; [done|]. by intros ?%prefix_cons_inv_1.
Qed.

Lemma view_addTest_count parts currentPath t map total passing :
  stat map = NodeStat total passing →
  view (addTest parts currentPath t (count t map))
  = (group map,
     NodeStat (S total)
       (passing + if decide (status t = "PASS") then 1 else 0),
     match parts with [] => Some t | _ => test map end).
Proof.
  intros Hstat. unfold view.
  rewrite group_addTest, stat_addTest, test_addTest, group_count, test_count.
  destruct map as [? ? st ?]. simpl in Hstat. by subst st.
Qed.

Lemma below_snoc qs tests t :
  below qs (tests ++ [t])
  = below qs tests ++ (if decide (qs `prefix_of` partsOf t) then [t] else []).
Proof.
  unfold below. by rewrite filter_app.
Qed.

Lemma withParts_snoc qs tests t :
  withParts qs (tests ++ [t])
  = withParts qs tests ++ (if decide (partsOf t = qs) then [t] else []).
Proof.
  unfold withParts. by rewrite filter_app.
Qed.

Lemma passing_snoc tests t :
  length (passing (tests ++ [t]))
  = length (passing tests) + (if decide (status t = "PASS") then 1 else 0).
Proof.
  unfold passing. rewrite filter_app, length_app, filter_cons, filter_nil.
  by case_decide.
Qed.

Lemma withParts_below qs tests : below qs tests = [] → withParts qs tests = [].
Proof.
  unfold below, withParts. induction tests as [|t tests IH]; [done|].
  rewrite !filter_cons. destruct (decide (qs `prefix_of` partsOf t)); [done|].
  intros Hnil. rewrite IH by done. rewrite decide_False; [done|].
  by intros <-.
Qed.

Lemma last_withParts_snoc qs tests t :
  qs `prefix_of` partsOf t →
  last (withParts qs (tests ++ [t]))
  = match drop (length qs) (partsOf t) with
    | [] => Some t
    | _ => last (withParts qs tests)
    end.
Proof.
  intros [k Hk]. rewrite withParts_snoc, Hk, drop_app_length.
  destruct k as [|part k].
  - rewrite app_nil_r, decide_True by done. apply last_snoc.
  - rewrite decide_False, app_nil_r; [done|].
    intros Heq. apply (f_equal length) in Heq. rewrite length_app in Heq.
    simpl in Heq. lia.
Qed.

Lemma descend_empty qs group stat test :
  qs ≠ [] → descend qs (Node group [] stat test) = None.
Proof. by destruct qs. Qed.

Lemma counted_empty : counted [] (Node "" [] (RootStat 0 0) None).
Proof.
  repeat split; try done.
  - intros qs Hqs. by rewrite descend_empty.
  - intros [|q qs] map; [|done]. intros [= <-]. constructor.
Qed.

Lemma counted_addTest tests root t :
  counted tests root →
  counted (tests ++ [t]) (addTest (partsOf t) "" t root).
Proof.
  intros (Hgroup & Hstat & Htest & Hview & Hkeys).
  split; [by rewrite group_addTest|]. split; [by rewrite stat_addTest|].
  split; [|split].
  - rewrite test_addTest, (last_withParts_snoc [] tests t) by apply prefix_nil.
    simpl. by rewrite Htest.
  - intros qs Hqs. rewrite descend_addTest by done.
    specialize (Hview qs Hqs). unfold expected in *. rewrite below_snoc.
    destruct (decide (qs `prefix_of` partsOf t)) as [Hp|Hp].
    + cbn [fmap option_fmap option_map].
      rewrite last_withParts_snoc by done.
      destruct (below qs tests) as [|r rs] eqn:Hbelow.
      * destruct (descend qs root) as [map|]; [done|].
        cbn [default from_option app]. f_equal.
        rewrite (view_addTest_count _ _ _ _ 0 0) by done.
        rewrite (withParts_below _ _ Hbelow). cbn [group test newNode].
        repeat f_equal. unfold passing. rewrite filter_cons, filter_nil.
        by case_decide.
      * destruct (descend qs root) as [map|]; [|done].
        injection Hview as Hv1 Hv2 Hv3. cbn [default from_option id].
        rewrite (view_addTest_count _ _ _ _ _ _ Hv2), Hv1, Hv3.
        change (r :: rs ++ [t]) with ((r :: rs) ++ [t]).
        rewrite passing_snoc, length_app. simpl.
        repeat f_equal; lia.
    + rewrite app_nil_r, Hview, withParts_snoc.
      rewrite decide_False, app_nil_r; [done|]. by intros <-.
  - intros [|q qs] map.
    + intros [= <-]. apply children_addTest_NoDup. by apply (Hkeys []).
    + rewrite descend_addTest by done. case_decide; [|apply Hkeys].
      intros [= <-]. apply children_addTest_NoDup. rewrite children_count.
      destruct (descend (q :: qs) root) as [map|] eqn:Hmap;
        cbn [descend] in Hmap |- *; rewrite Hmap; simpl.
      * by apply (Hkeys (q :: qs)).
      * constructor.
Qed.

Lemma counted_pathMap tests : counted tests (pathMap tests).
Proof.
  unfold pathMap.
  cut (∀ done root, counted done root →
         counted (done ++ tests)
           (foldl (λ map t, addTest (partsOf t) "" t map) root tests)).
  { intros Hall. apply (Hall [] _ counted_empty). }
  induction tests as [|t tests IH]; intros done root Hroot.
  - by rewrite app_nil_r.
  - cbn [foldl]. rewrite (assoc_L (++) done [t] tests : done ++ t :: tests = _).
    by apply IH, counted_addTest.
Qed.

(** ** [mergeSingleChildren] *)

Lemma mergeSingleChildren_unfold map :
  mergeSingleChildren map
  = match test map with
    | Some t => Leaf t
    | None =>
        let merged :=
          Group (group map) (stat map)
            ((λ kv, mergeSingleChildren kv.2) <$> children map) in
        match children map with
        | [(_, child)] =>
            match test child with
            | None => mergeSingleChildren child
            | Some _ => merged
            end
        | _ => merged
        end
    end.
Proof.
  destruct map as [g ch st [t|]]; [done|]. cbn [test children group stat].
  cbn [mergeSingleChildren].
  assert ((fix each (l : list (string * PathMap)) : list Merged :=
             match l with
             | [] => []
             | (_, child) :: l => mergeSingleChildren child :: each l
             end) ch
          = (λ kv, mergeSingleChildren kv.2) <$> ch) as ->; [|done].
  induction ch as [|[k c] ch IH]; [done|]. by rewrite IH.
Qed.

Lemma rowsOf_Group g st (ms : list Merged) t :
  t ∈ rowsOf (Group g st ms) ↔ ∃ m, m ∈ ms ∧ t ∈ rowsOf m.
Proof.
  cbn [rowsOf]. induction ms as [|m ms IH].
  - split; [by intros ?%elem_of_nil|]. by intros (m & Hm%elem_of_nil & _).
  - rewrite elem_of_app, IH. split.
    + intros [Ht|(m' & Hm' & Ht)]; [exists m|exists m'];
        (split; [|done]); apply elem_of_cons; auto.
    + intros (m' & [-> | Hm']%elem_of_cons & Ht); [by left|].
      right. by exists m'.
Qed.

Lemma groupsOf_Group g st (ms : list Merged) g' st' :
  (g', st') ∈ groupsOf (Group g st ms)
  ↔ (g' = g ∧ st' = st) ∨ ∃ m, m ∈ ms ∧ (g', st') ∈ groupsOf m.
Proof.
  cbn [groupsOf]. rewrite elem_of_cons.
  assert ((g', st') = (g, st) ↔ g' = g ∧ st' = st) as ->.
  { split; [by intros [= -> ->]|by intros [-> ->]]. }
  apply or_iff_compat_l.
  induction ms as [|m ms IH].
  - split; [by intros ?%elem_of_nil|]. by intros (m & Hm%elem_of_nil & _).
  - rewrite elem_of_app, IH. split.
    + intros [Ht|(m' & Hm' & Ht)]; [exists m|exists m'];
        (split; [|done]); apply elem_of_cons; auto.
    + intros (m' & [-> | Hm']%elem_of_cons & Ht); [by left|].
      right. by exists m'.
Qed.

Lemma jm_get_elem_of {V} (k : string) (v : V) (m : list (string * V)) :
  jm_get k m = Some v → (k, v) ∈ m.
Proof.
  induction m as [|[k' v'] m IH]; [done|]. simpl. case_decide.
  - intros [= ->]. subst. by apply elem_of_cons; left.
  - intros Hget. apply elem_of_cons; right. by apply IH.
Qed.

Lemma elem_of_jm_get {V} (k : string) (v : V) (m : list (string * V)) :
  NoDup (jm_keys m) → (k, v) ∈ m → jm_get k m = Some v.
Proof.
  unfold jm_keys. induction m as [|[k' v'] m IH]; [by intros _ ?%elem_of_nil|].
  rewrite fmap_cons, NoDup_cons, elem_of_cons. simpl. intros [Hnot Hnd] Hin.
  case_decide as Hk.
  - subst k'. destruct Hin as [[= ->]|Hin]; [done|]. destruct Hnot.
    apply list_elem_of_fmap. by exists (k, v).
  - destruct Hin as [[= -> ->]|Hin]; [done|]. by apply IH.
Qed.

Lemma distinctParts_child map part child :
  distinctParts map → (part, child) ∈ children map →
  jm_get part (children map) = Some child ∧ distinctParts child.
Proof.
  intros Hnd Hin.
  assert (jm_get part (children map) = Some child) as Hget.
  { apply elem_of_jm_get; [|done]. by apply (Hnd []). }
  split; [done|]. intros qs map' Hmap'. apply (Hnd (part :: qs)).
  cbn [descend]. by rewrite Hget.
Qed.

Lemma rows_shown map :
  distinctParts map →
  ∀ t, t ∈ rowsOf (mergeSingleChildren map) → ∃ parts, shown parts map t.
Proof.
  induction map as [g ch st tst IH] using PathMap_ind. intros Hnd t.
  rewrite mergeSingleChildren_unfold. cbn [test children group stat].
  destruct tst as [t0|].
  { cbn [rowsOf]. intros ->%list_elem_of_singleton. by exists []. }
  assert (t ∈ rowsOf (Group g st ((λ kv, mergeSingleChildren kv.2) <$> ch)) →
          ∃ parts, shown parts (Node g ch st None) t) as Hgroup.
  { intros (m & Hm & Ht)%rowsOf_Group.
    apply list_elem_of_fmap in Hm as ([part child] & -> & Hin).
    destruct (distinctParts_child _ _ _ Hnd Hin) as [Hget Hchild].
    rewrite Forall_forall in IH.
    destruct (IH _ Hin Hchild t Ht) as [parts Hshown].
    exists (part :: parts). split; [done|]. by exists child. }
  destruct ch as [|[part child] [|kv ch]]; try done.
  destruct (test child) eqn:Htest; [done|]. intros Ht.
  destruct (distinctParts_child (Node g [(part, child)] st None) part child
              Hnd) as [Hget Hchild]; [by apply list_elem_of_singleton|].
  apply Forall_inv in IH. cbn [snd] in IH.
  destruct (IH Hchild t Ht) as [parts Hshown].
  exists (part :: parts). split; [done|]. by exists child.
Qed.

Lemma shown_rows parts : ∀ map t,
  shown parts map t → t ∈ rowsOf (mergeSingleChildren map).
Proof.
  induction parts as [|part parts IH]; intros map t; cbn [shown];
    rewrite mergeSingleChildren_unfold.
  - intros ->. cbn [rowsOf]. by apply list_elem_of_singleton.
  - intros [-> (child & Hget & Hshown)]. apply IH in Hshown.
    assert (t ∈ rowsOf (Group (group map) (stat map)
                          ((λ kv, mergeSingleChildren kv.2) <$> children map)))
      as Hgroup.
    { apply rowsOf_Group. exists (mergeSingleChildren child). split; [|done].
      apply list_elem_of_fmap. exists (part, child). split; [done|].
      by apply jm_get_elem_of. }
    cbn zeta. destruct (children map) as [|[part' child'] [|kv ch]]; try done.
    destruct (test child') eqn:Htest; [done|].
    simpl in Hget. case_decide; [|done]. by injection Hget as ->.
Qed.

Lemma groups_found map :
  distinctParts map →
  ∀ g st, (g, st) ∈ groupsOf (mergeSingleChildren map) →
    ∃ parts map', descend parts map = Some map'
                  ∧ group map' = g ∧ stat map' = st.
Proof.
  induction map as [g ch st tst IH] using PathMap_ind. intros Hnd g' st'.
  rewrite mergeSingleChildren_unfold. cbn [test children group stat].
  destruct tst as [t0|].
  { cbn [groupsOf]. by intros ?%elem_of_nil. }
  assert ((g', st')
            ∈ groupsOf (Group g st ((λ kv, mergeSingleChildren kv.2) <$> ch)) →
          ∃ parts map', descend parts (Node g ch st None) = Some map'
                        ∧ group map' = g' ∧ stat map' = st') as Hgroup.
  { intros [[-> ->]|(m & Hm & Hin)]%groupsOf_Group.
    { by exists [], (Node g ch st None). }
    apply list_elem_of_fmap in Hm as ([part child] & -> & Hchild).
    destruct (distinctParts_child _ _ _ Hnd Hchild) as [Hget Hdistinct].
    rewrite Forall_forall in IH.
    destruct (IH _ Hchild Hdistinct _ _ Hin) as (parts & map' & Hmap' & Hview).
    exists (part :: parts), map'. split; [|done].
    cbn [descend]. by rewrite Hget. }
  destruct ch as [|[part child] [|kv ch]]; try done.
  destruct (test child) eqn:Htest; [done|]. intros Hin.
  destruct (distinctParts_child (Node g [(part, child)] st None) part child
              Hnd) as [Hget Hchild]; [by apply list_elem_of_singleton|].
  apply Forall_inv in IH. cbn [snd] in IH.
  destruct (IH Hchild _ _ Hin) as (parts & map' & Hmap' & Hview).
  exists (part :: parts), map'. split; [|done].
  cbn [descend]. by rewrite Hget.
Qed.

Lemma top_onlyWay map :
  ∀ g st ms, mergeSingleChildren map = Group g st ms →
    ∃ parts map', onlyWay parts map map' ∧ group map' = g ∧ stat map' = st.
Proof.
  induction map as [g ch st tst IH] using PathMap_ind. intros g' st' ms.
  rewrite mergeSingleChildren_unfold. cbn [test children group stat].
  destruct tst as [t0|]; [done|].
  assert (Group g st ((λ kv, mergeSingleChildren kv.2) <$> ch)
          = Group g' st' ms →
          ∃ parts map', onlyWay parts (Node g ch st None) map'
                        ∧ group map' = g' ∧ stat map' = st') as Hgroup.
  { intros [= <- <- _]. by exists [], (Node g ch st None). }
  destruct ch as [|[part child] [|kv ch]]; try done.
  destruct (test child) eqn:Htest; [done|]. intros Hmerged.
  apply Forall_inv in IH. cbn [snd] in IH.
  destruct (IH _ _ _ Hmerged) as (parts & map' & Hway & Hview).
  exists (part :: parts), map'. split; [|done]. split; [done|].
  by exists child.
Qed.

(** ** The result of [groupTests] *)

Lemma counted_distinctParts tests root : counted tests root → distinctParts root.
Proof. by intros (_ & _ & _ & _ & Hkeys). Qed.

Lemma counted_tracks tests root : counted tests root → tracks tests [] root.
Proof.
  intros (_ & _ & Htest & Hview & _). split.
  - intros [|q qs] map'; [by intros [= <-]|]. intros Hmap'.
    specialize (Hview (q :: qs) ltac:(done)). rewrite Hmap' in Hview.
    unfold expected in Hview.
    destruct (below (q :: qs) tests); [by discriminate Hview|].
    cbn in Hview. unfold view in Hview. by injection Hview as _ _ ->.
  - intros [|q qs] Hbelow; [done|]. specialize (Hview (q :: qs) ltac:(done)).
    unfold expected in Hview. cbn [app] in Hbelow.
    destruct (below (q :: qs) tests); [done|].
    destruct (descend (q :: qs) root); [done|]. by discriminate Hview.
Qed.

Lemma tracks_child tests above map part child :
  tracks tests above map → jm_get part (children map) = Some child →
  tracks tests (above ++ [part]) child.
Proof.
  intros [Hat Hex] Hget. split.
  - intros parts map' Hmap'. rewrite <-(assoc_L (++)). apply Hat.
    cbn [descend app]. by rewrite Hget.
  - intros parts Hbelow. rewrite <-(assoc_L (++)) in Hbelow.
    apply Hex in Hbelow. cbn [descend app] in Hbelow.
    by rewrite Hget in Hbelow.
Qed.

Lemma elem_of_withParts parts tests t :
  t ∈ withParts parts tests ↔ partsOf t = parts ∧ t ∈ tests.
Proof.
  unfold withParts. apply (list_elem_of_filter (λ t, partsOf t = parts)).
Qed.

Lemma elem_of_below parts tests t :
  t ∈ below parts tests ↔ parts `prefix_of` partsOf t ∧ t ∈ tests.
Proof.
  unfold below. apply (list_elem_of_filter (λ t, parts `prefix_of` partsOf t)).
Qed.

Lemma shown_tracks tests parts : ∀ above map t,
  tracks tests above map →
  shown parts map t
  ↔ last (withParts (above ++ parts) tests) = Some t
    ∧ ∀ qs, qs `prefix_of` parts → qs ≠ parts →
        withParts (above ++ qs) tests = [].
Proof.
  induction parts as [|part parts IH]; intros above map t Htracks;
    cbn [shown].
  - destruct Htracks as [Hat _]. rewrite (Hat [] map eq_refl). split.
    + intros Hlast. split; [done|]. by intros qs ->%prefix_nil_inv.
    + by intros [Hlast _].
  - assert (test map = last (withParts (above ++ []) tests)) as Htest.
    { destruct Htracks as [Hat _]. by apply Hat. }
    split.
    + intros [Hnone (child & Hget & Hshown)].
      apply (IH (above ++ [part])) in Hshown as [Hlast Habove];
        [|by eapply tracks_child].
      rewrite <-(assoc_L (++)) in Hlast. split; [done|].
      intros [|q qs] Hprefix Hne.
      * apply last_None. by rewrite <-Htest.
      * pose proof (prefix_cons_inv_1 _ _ _ _ Hprefix) as ->.
        apply prefix_cons_inv_2 in Hprefix.
        rewrite (assoc_L (++) above [part] qs : above ++ part :: qs = _).
        apply Habove; [done|]. by intros ->.
    + intros [Hlast Habove].
      assert (t ∈ withParts (above ++ part :: parts) tests) as Ht.
      { by apply last_Some_elem_of. }
      apply elem_of_withParts in Ht as [Hparts Ht].
      split.
      { rewrite Htest. apply last_None, Habove; [apply prefix_nil|done]. }
      destruct Htracks as [Hat Hex].
      destruct (Hex [part]) as [child Hchild].
      { intros Hnil. assert (t ∈ below (above ++ [part]) tests) as Hin.
        { apply elem_of_below. split; [|done]. rewrite Hparts.
          exists parts. by rewrite <-(assoc_L (++)). }
        rewrite Hnil in Hin. by apply elem_of_nil in Hin. }
      cbn [descend] in Hchild.
      destruct (jm_get part (children map)) as [child'|] eqn:Hget; [|done].
      injection Hchild as ->.
      exists child. split; [done|].
      apply (IH (above ++ [part])); [by eapply tracks_child; [split|]|].
      rewrite <-(assoc_L (++)). split; [done|].
      intros qs Hprefix Hne. rewrite <-(assoc_L (++)).
      apply Habove; [by apply prefix_cons|]. by intros [= ->].
Qed.

Lemma filter_agree {A} (P Q : A → Prop) `{!∀ x, Decision (P x)}
    `{!∀ x, Decision (Q x)} (l : list A) :
  (∀ x, x ∈ l → P x ↔ Q x) → filter P l = filter Q l.
Proof.
  induction l as [|x l IH]; [done|]. intros Hagree. rewrite !filter_cons.
  rewrite IH by (intros y Hy; apply Hagree; by apply elem_of_cons; right).
  pose proof (Hagree x (list_elem_of_here _ _)) as Hx.
  destruct (decide (P x)), (decide (Q x)); tauto || done.
Qed.

Lemma onlyWay_below tests parts : ∀ above map map',
  tracks tests above map → onlyWay parts map map' →
  below (above ++ parts) tests = below above tests.
Proof.
  induction parts as [|part parts IH]; intros above map map' Htracks;
    cbn [onlyWay].
  - by rewrite app_nil_r.
  - intros [Hnone (child & Hchildren & Hway)].
    assert (jm_get part (children map) = Some child) as Hget.
    { rewrite Hchildren. simpl. by rewrite decide_True. }
    rewrite (assoc_L (++) above [part] parts : above ++ part :: parts = _).
    rewrite (IH (above ++ [part]) child map');
      [|by eapply tracks_child|done].
    apply filter_agree. intros t Ht. split.
    + intros [k Hk]. exists ([part] ++ k). by rewrite Hk, <-(assoc_L (++)).
    + intros [k Hk]. destruct Htracks as [Hat Hex]. destruct k as [|part' k].
      * exfalso. rewrite app_nil_r in Hk.
        assert (t ∈ withParts (above ++ []) tests) as Hin.
        { apply elem_of_withParts. by rewrite app_nil_r. }
        rewrite (Hat [] map eq_refl) in Hnone. apply last_None in Hnone.
        rewrite Hnone in Hin. by apply elem_of_nil in Hin.
      * destruct (Hex [part']) as [child' Hchild'].
        { intros Hnil. assert (t ∈ below (above ++ [part']) tests) as Hin.
          { apply elem_of_below. split; [|done]. rewrite Hk. exists k.
            by rewrite <-(assoc_L (++)). }
          rewrite Hnil in Hin. by apply elem_of_nil in Hin. }
        cbn [descend] in Hchild'. rewrite Hchildren in Hchild'.
        simpl in Hchild'. case_decide as Heq; [|done]. subst part'.
        exists k. by rewrite Hk, <-(assoc_L (++)).
Qed.

Lemma onlyWay_descend parts : ∀ map map',
  onlyWay parts map map' → descend parts map = Some map'.
Proof.
  induction parts as [|part parts IH]; intros map map'; cbn [onlyWay descend].
  - by intros ->.
  - intros [_ (child & -> & Hway)]. simpl. rewrite decide_True by done.
    by apply IH.
Qed.

(** X19. The numbers of a group of the result are those of the rows of
    the report: a group other than the root stands for a path with rows
    below it, and its [stat] holds the number of those rows and the number
    of them with status [PASS].  The root, when it is in the result, has
    the counters [{all: 0, pass: 0}] it was made with. *)
Theorem groupTests_stats tests :
  ∃ m, groupTests (Some tests) = Some m
    ∧ Forall (λ gs,
                gs = ("", RootStat 0 0)
                ∨ ∃ parts,
                    parts ≠ [] ∧ below parts tests ≠ []
                    ∧ gs = (pathFrom "" parts,
                            NodeStat (length (below parts tests))
                              (length (passing (below parts tests)))))
        (groupsOf m).
Proof.
  eexists. split; [done|]. apply Forall_forall. intros [g st] Hin.
  pose proof (counted_pathMap tests) as Hcounted.
  apply groups_found in Hin as (parts & map' & Hmap' & <- & <-);
    [|by eapply counted_distinctParts].
  destruct Hcounted as (Hgroup & Hstat & _ & Hview & _).
  destruct parts as [|q qs].
  - left. injection Hmap' as <-. by rewrite Hgroup, Hstat.
  - right. exists (q :: qs). split; [done|].
    specialize (Hview (q :: qs) ltac:(done)). rewrite Hmap' in Hview.
    unfold expected in Hview.
    destruct (below (q :: qs) tests) eqn:Hbelow; [by discriminate Hview|].
    split; [done|]. by injection Hview as -> -> _.
Qed.

Lemma rows_characterised tests :
  ∃ m, groupTests (Some tests) = Some m
    ∧ ∀ t, t ∈ rowsOf m
           ↔ last (withParts (partsOf t) tests) = Some t
             ∧ ∀ t', t' ∈ tests → partsOf t' `prefix_of` partsOf t →
                 partsOf t' = partsOf t.
Proof.
  eexists. split; [done|]. intros t.
  pose proof (counted_pathMap tests) as Hcounted.
  pose proof (counted_tracks _ _ Hcounted) as Htracks.
  pose proof (counted_distinctParts _ _ Hcounted) as Hdistinct.
  split.
  - intros [parts Hshown]%rows_shown; [|done].
    apply (shown_tracks tests parts [] _ t Htracks) in Hshown
      as [Hlast Habove].
    cbn [app] in *.
    assert (partsOf t = parts) as Hparts.
    { apply last_Some_elem_of, elem_of_withParts in Hlast. by destruct Hlast. }
    rewrite Hparts. split; [done|]. intros t' Ht' Hprefix.
    destruct (decide (partsOf t' = parts)) as [|Hne]; [done|].
    assert (t' ∈ withParts (partsOf t') tests) as Hin
      by by apply elem_of_withParts.
    rewrite (Habove _ Hprefix Hne) in Hin. by apply elem_of_nil in Hin.
  - intros [Hlast Habove].
    apply (shown_rows (partsOf t)), (shown_tracks tests _ [] _ t Htracks).
    split; [done|]. intros qs Hprefix Hne. cbn [app].
    destruct (withParts qs tests) as [|t' l] eqn:Hqs; [done|].
    assert (t' ∈ withParts qs tests) as Hin
      by (rewrite Hqs; apply list_elem_of_here).
    apply elem_of_withParts in Hin as [<- Hin].
    destruct Hne. by apply Habove.
Qed.

(** X20. The rows of the result are rows of the report: a row is in the
    result exactly when it is the last row with its path and no row's
    path ends at a part above it. *)
Theorem groupTests_rows tests :
  ∃ m, groupTests (Some tests) = Some m
    ∧ ∀ t, t ∈ rowsOf m
           ↔ last (withParts (partsOf t) tests) = Some t
             ∧ ∀ t', t' ∈ tests → partsOf t' `prefix_of` partsOf t →
                 partsOf t' = partsOf t.
Proof. apply rows_characterised. Qed.

Lemma below_nil tests : below [] tests = tests.
Proof.
  unfold below. induction tests as [|t tests IH]; [done|].
  rewrite filter_cons, decide_True by apply prefix_nil. by rewrite IH.
Qed.

Lemma top_Leaf map t : mergeSingleChildren map = Leaf t → test map = Some t.
Proof.
  induction map as [g ch st tst IH] using PathMap_ind.
  rewrite mergeSingleChildren_unfold. cbn [test children group stat].
  destruct tst as [t0|]; [by intros [= ->]|]. cbn zeta.
  destruct ch as [|[part child] [|kv ch]]; try done.
  destruct (test child) eqn:Htest; [done|]. intros Hmerged.
  apply Forall_inv in IH. cbn [snd] in IH. apply IH in Hmerged. congruence.
Qed.

(** X21. The top of the result: the last row with the empty path when
    there is one; otherwise a group, which is the root with its counters
    [{all: 0, pass: 0}] or else counts all the rows of the report. *)
Theorem groupTests_top tests :
  ∃ m, groupTests (Some tests) = Some m
    ∧ match m with
      | Leaf t => last (withParts [] tests) = Some t
      | Group g st _ =>
          withParts [] tests = []
          ∧ ((g = "" ∧ st = RootStat 0 0)
             ∨ st = NodeStat (length tests) (length (passing tests)))
      end.
Proof.
  eexists. split; [done|]. cbn [compose].
  pose proof (counted_pathMap tests) as Hcounted.
  pose proof (counted_tracks _ _ Hcounted) as Htracks.
  destruct Hcounted as (Hgroup & Hstat & Htest & Hview & _).
  destruct (mergeSingleChildren (pathMap tests)) as [t|g st ms] eqn:Hmerged.
  - apply top_Leaf in Hmerged. by rewrite <-Htest.
  - split.
    { apply last_None. rewrite <-Htest.
      rewrite mergeSingleChildren_unfold in Hmerged.
      by destruct (test (pathMap tests)). }
    apply top_onlyWay in Hmerged as (parts & map' & Hway & <- & <-).
    destruct parts as [|q qs].
    + left. cbn [onlyWay] in Hway. by subst map'.
    + right. pose proof (onlyWay_below tests _ [] _ _ Htracks Hway) as Hall.
      cbn [app] in Hall. apply onlyWay_descend in Hway.
      specialize (Hview (q :: qs) ltac:(done)). rewrite Hway in Hview.
      unfold expected in Hview. rewrite Hall, below_nil in Hview.
      destruct tests; [by discriminate Hview|].
      cbn in Hview. unfold view in Hview. by injection Hview as _ -> _.
Qed.

Lemma rows_apart_shown tests :
  (∀ t t', t ∈ tests → t' ∈ tests →
     partsOf t' `prefix_of` partsOf t → t' = t) →
  ∃ m, groupTests (Some tests) = Some m ∧ ∀ t, t ∈ rowsOf m ↔ t ∈ tests.
Proof.
  intros Hapart. destruct (rows_characterised tests) as (m & Hm & Hrows).
  exists m. split; [done|]. intros t. rewrite Hrows. split.
  - intros [Hlast _]. apply last_Some_elem_of, elem_of_withParts in Hlast.
    by destruct Hlast.
  - intros Ht. split.
    + destruct (last (withParts (partsOf t) tests)) as [t'|] eqn:Hlast.
      * f_equal. apply last_Some_elem_of, elem_of_withParts in Hlast
          as [Hparts Ht'].
        apply Hapart; [done..|]. by rewrite Hparts.
      * apply last_None in Hlast.
        assert (t ∈ withParts (partsOf t) tests) as Hin
          by by apply elem_of_withParts.
        rewrite Hlast in Hin. by apply elem_of_nil in Hin.
    + intros t' Ht' Hprefix. by rewrite (Hapart t t').
Qed.

(** X22. When no row's path parts are the beginning of another row's,
    its own apart, the result of [groupTests] shows exactly the rows of
    the report. *)
Theorem groupTests_complete tests :
  (∀ t t', t ∈ tests → t' ∈ tests →
     partsOf t' `prefix_of` partsOf t → t' = t) →
  ∃ m, groupTests (Some tests) = Some m ∧ ∀ t, t ∈ rowsOf m ↔ t ∈ tests.
Proof. apply rows_apart_shown. Qed.

Lemma partsOf_subtest_row str name n st msg :
  partsOf {| path := str +:+ "/" +:+ escapeHtml name; name := n;
             status := st; message := msg |}
  = match split "/" str with
    | EmptyString :: parts => parts
    | parts => parts
    end ++ [escapeHtml name].
Proof.
  unfold partsOf. cbn [path]. rewrite split_subtest_path.
  pose proof (split_nonempty "/" str) as Hne.
  destruct (split "/" str) as [|[|a part] parts]; done.
Qed.

(** X23. The rows [flattenSingleTest] makes of a test whose subtests have
    different names are all shown by [groupTests], and nothing else is:
    escaped names keep the rows apart. *)
Theorem flattenSingleTest_all_shown test :
  NoDup (subtest_name <$> test_subtests test) →
  ∃ m, groupTests (Some (flattenSingleTest test)) = Some m
    ∧ ∀ t, t ∈ rowsOf m ↔ t ∈ flattenSingleTest test.
Proof.
  intros Hnames. apply rows_apart_shown.
  unfold flattenSingleTest. case_decide.
  { by intros t1 t2 ->%list_elem_of_singleton ->%list_elem_of_singleton. }
  intros t1 t2 (s1 & -> & Hs1)%list_elem_of_fmap
    (s2 & -> & Hs2)%list_elem_of_fmap.
  rewrite !partsOf_subtest_row. intros Hprefix%prefix_app_inv.
  destruct Hprefix as [k Hk]. injection Hk as Hk _.
  apply escapeHtml_eq in Hk.
  assert (s1 = s2) as ->; [|done].
  clear -Hnames Hs1 Hs2 Hk. revert Hnames Hs1 Hs2.
  induction (test_subtests test) as [|s l IH]; [by intros _ ?%elem_of_nil|].
  rewrite fmap_cons, NoDup_cons, !elem_of_cons.
  intros [Hnot Hnd] [-> | Hs1] [-> | Hs2]; [done| | |by apply IH].
  - destruct Hnot. rewrite Hk. by apply list_elem_of_fmap_2.
  - destruct Hnot. rewrite <-Hk. by apply list_elem_of_fmap_2.
Qed.
End ReportTree.

(** * The further properties on the sample instances *)
Section ManagerSamples.
Import SubscriptionManager Reachable.

Ltac evaluate_decision := apply (bool_decide_unpack _); by vm_compute.

Lemma two_channels_reachable :
  reachable Sample.protocol Sample.storage Sample.two_channels.
Proof.
  apply (reachable_subscribe _ _ 1 "network.fetchError" None (Some "ch")
           {| subscriptionPriority := 2;
              channelToContextToEventMap :=
                [(None, {[None := {["network.fetchError" := 0%N]}]});
                 (Some "ch",
                  {[Some "top" := {["network.fetchError" := 1%N]}]})] |});
    [|by vm_compute].
  apply (reachable_subscribe _ _ 1 "network.fetchError" (Some "frame")
           (Some "ch")
           {| subscriptionPriority := 1;
              channelToContextToEventMap :=
                [(None, {[None := {["network.fetchError" := 0%N]}]})] |});
    [|by vm_compute].
  apply (reachable_subscribe _ _ 1 "network.fetchError" None None
           empty_manager); [|by vm_compute].
  apply reachable_empty.
Qed.

Lemma reachable_wellFormed_sample :
  NoDup (jm_keys (channelToContextToEventMap Sample.two_channels))
  ∧ (∀ channel contextId event p,
       subscription Sample.two_channels channel contextId event = Some p →
       (p < 3)%N)
  ∧ (∀ channel1 contextId1 event1 channel2 contextId2 event2 p,
       subscription Sample.two_channels channel1 contextId1 event1 = Some p →
       subscription Sample.two_channels channel2 contextId2 event2 = Some p →
       channel1 = channel2 ∧ contextId1 = contextId2 ∧ event1 = event2).
Proof.
  apply (reachable_wellFormed Sample.protocol Sample.storage
           Sample.two_channels).
  - exact two_channels_reachable.
  - reflexivity.
Defined.

Lemma subscribe_atomic_postcondition_sample :
  ∃ s1,
    subscribe Sample.protocol Sample.storage 1 "log.entryAdded" (Some "frame")
      (Some "ch") (Sample.subscribed_once None)
    = Some s1
    ∧ subscription s1 (Some "ch") (Some "top") "log.entryAdded" = Some 1%N
    ∧ (∀ channel' contextId' event',
         ¬ (channel' = Some "ch" ∧ contextId' = Some "top"
            ∧ event' = "log.entryAdded") →
         subscription s1 channel' contextId' event'
         = subscription (Sample.subscribed_once None) channel' contextId'
             event')
    ∧ subscriptionPriority s1 = 2%N.
Proof.
  apply (subscribe_atomic_postcondition Sample.protocol Sample.storage 0 "log.entryAdded" (Some "frame")
           (Some "ch") (Sample.subscribed_once None)).
  unfold isGroup. intros [H|[H|[H|H]]]; discriminate H.
Defined.

Lemma subscribe_group_postcondition_sample :
  ∃ s1,
    subscribe Sample.protocol Sample.storage 2 "network" (Some "frame") None
      empty_manager
    = Some s1
    ∧ extends empty_manager s1
    ∧ ∀ channel' contextId' event',
        is_Some (subscription s1 channel' contextId' event')
        ↔ is_Some (subscription empty_manager channel' contextId' event')
          ∨ (channel' = None ∧ contextId' = Some "top"
             ∧ event' ∈ expand Sample.protocol "network").
Proof.
  apply (subscribe_group_postcondition Sample.protocol Sample.storage 0 "network" (Some "frame") None
           empty_manager).
  - unfold tablesAtomic, isGroup. apply (bool_decide_unpack _). by vm_compute.
  - unfold isGroup. simpl. auto.
Defined.

Lemma getChannels_strictly_ascending_sample :
  ∃ priorities,
    Forall2 (leastApplying Sample.storage Sample.two_channels
               "network.fetchError" (Some "frame"))
      (getChannelsSubscribedToEvent Sample.storage Sample.two_channels
         "network.fetchError" (Some "frame"))
      priorities
    ∧ StronglySorted N.lt priorities.
Proof.
  apply (getChannels_strictly_ascending Sample.storage Sample.two_channels
           "network.fetchError" (Some "frame")).
  - evaluate_decision.
  - apply (reachable_invariant Sample.protocol Sample.storage);
      [exact two_channels_reachable|reflexivity].
Defined.

Lemma subscribe_then_delivered_sample :
  ∃ s1,
    subscribe Sample.protocol Sample.storage 1 "log.entryAdded" (Some "frame")
      (Some "ch") empty_manager
    = Some s1
    ∧ ∀ channel' eventMethod contextId',
        channel' ∈ getChannelsSubscribedToEvent Sample.storage s1 eventMethod
                     contextId'
        ↔ channel' ∈ getChannelsSubscribedToEvent Sample.storage empty_manager
                       eventMethod contextId'
          ∨ (channel' = Some "ch" ∧ eventMethod = "log.entryAdded"
             ∧ (findTopLevelContextId Sample.storage (Some "frame") = None
                ∨ findTopLevelContextId Sample.storage (Some "frame")
                  = findTopLevelContextId Sample.storage contextId')).
Proof.
  apply (subscribe_then_delivered Sample.protocol Sample.storage 0
           "log.entryAdded" (Some "frame") (Some "ch") empty_manager).
  unfold isGroup. intros [H|[H|[H|H]]]; discriminate H.
Defined.

(** The manager [subscribed_once None] after its subscription is gone. *)
Lemma unsubscribed_once :
  unsubscribeAll Sample.protocol Sample.storage ["log.entryAdded"]
    [Some "frame"] None (Sample.subscribed_once None)
  = (Normal (),
     {| subscriptionPriority := 1;
        channelToContextToEventMap := [(None, {[Some "top" := ∅]})] |}).
Proof. by vm_compute. Qed.

Lemma unsubscribeAll_exact_sample :
  contextsOf
    {| subscriptionPriority := 1;
       channelToContextToEventMap := [(None, {[Some "top" := ∅]})] |} None
  = contextsOf (Sample.subscribed_once None) None.
Proof.
  apply (unsubscribeAll_exact Sample.protocol Sample.storage
           ["log.entryAdded"] [Some "frame"] None
           (Sample.subscribed_once None)).
  - exact unsubscribed_once.
  - intros event Hevent. vm_compute in Hevent.
    apply list_elem_of_singleton in Hevent as ->. evaluate_decision.
Defined.

Lemma unsubscribe_then_not_delivered_sample :
  None ∉ getChannelsSubscribedToEvent Sample.storage
           {| subscriptionPriority := 1;
              channelToContextToEventMap := [(None, {[Some "top" := ∅]})] |}
           "log.entryAdded" (Some "top").
Proof.
  apply (unsubscribe_then_not_delivered Sample.protocol Sample.storage
           ["log.entryAdded"] [Some "frame"] None
           (Sample.subscribed_once None) _ "log.entryAdded" (Some "frame")
           (Some "top") unsubscribed_once).
  - evaluate_decision.
  - reflexivity.
  - reflexivity.
Defined.

Lemma unsubscribeAll_nothing_to_do_sample :
  unsubscribeAll Sample.protocol Sample.storage [] [Some "top"] None
    (Sample.subscribed_once None)
  = (Normal (), Sample.subscribed_once None).
Proof.
  apply (unsubscribeAll_nothing_to_do Sample.protocol Sample.storage []
           [Some "top"] None (Sample.subscribed_once None)).
  - repeat constructor.
  - by left.
Defined.

Lemma unsubscribeAll_names_first_missing_sample :
  unsubscribeAll Sample.protocol Sample.storage ["log.entryAdded"; "script"]
    [Some "frame"] None (Sample.subscribed_once None)
  = (Throw (InvalidArgumentException
              ("Cannot unsubscribe from " +:+ "script.message" +:+ ", "
               +:+ "top" +:+ ". No subscription found.")),
     Sample.subscribed_once None).
Proof.
  apply (unsubscribeAll_names_first_missing Sample.protocol Sample.storage
           ["log.entryAdded"; "script"] [Some "frame"] None
           (Sample.subscribed_once None)
           [("log.entryAdded", Some "frame")] ("script.message", Some "frame")
           []).
  - repeat constructor.
  - reflexivity.
  - repeat constructor. unfold recorded. vm_compute. by eexists.
  - unfold recorded. vm_compute. by intros [? ?].
Defined.

Lemma subscribe_unsubscribe_round_trip_sample :
  ∃ s1 s2,
    subscribe Sample.protocol Sample.storage 1 "log.entryAdded" (Some "frame")
      (Some "ch") Sample.two_channels
    = Some s1
    ∧ unsubscribe Sample.protocol Sample.storage "log.entryAdded"
        (Some "frame") (Some "ch") s1
      = (Normal (), s2)
    ∧ (∀ channel' contextId' event',
         subscription s2 channel' contextId' event'
         = subscription Sample.two_channels channel' contextId' event')
    ∧ (∀ eventMethod contextId',
         getChannelsSubscribedToEvent Sample.storage s2 eventMethod contextId'
         = getChannelsSubscribedToEvent Sample.storage Sample.two_channels
             eventMethod contextId')
    ∧ subscriptionPriority s2
      = next_priority (subscriptionPriority Sample.two_channels)
    ∧ findTopLevelContextId Sample.storage (Some "frame")
      ∈ contextsOf s2 (Some "ch").
Proof.
  apply (subscribe_unsubscribe_round_trip Sample.protocol Sample.storage 0
           "log.entryAdded" (Some "frame") (Some "ch") Sample.two_channels).
  - unfold isGroup. intros [H|[H|[H|H]]]; discriminate H.
  - reflexivity.
  - reflexivity.
  - discriminate.
  - evaluate_decision.
Defined.

End ManagerSamples.

Section ReportSamples.
Import WptReport.

Lemma escapeHtml_inj_sample : "a<b & c" = "a<b & c".
Proof. apply (escapeHtml_inj "a<b & c" "a<b & c"). reflexivity. Defined.
Lemma groupTests_complete_sample :
  ∃ m,
    groupTests
      (Some [{| path := "/a/b.py/x"; name := Some "x"; status := "PASS";
                message := None |};
             {| path := "/a/c.py"; name := None; status := "ERROR";
                message := Some "timeout" |}])
    = Some m
    ∧ ∀ t, t ∈ rowsOf m
           ↔ t ∈ [{| path := "/a/b.py/x"; name := Some "x";
                     status := "PASS"; message := None |};
                  {| path := "/a/c.py"; name := None; status := "ERROR";
                     message := Some "timeout" |}].
Proof.
  apply (groupTests_complete
           [{| path := "/a/b.py/x"; name := Some "x"; status := "PASS";
               message := None |};
            {| path := "/a/c.py"; name := None; status := "ERROR";
               message := Some "timeout" |}]).
  intros t t' Ht Ht'.
  apply elem_of_cons in Ht as [-> | Ht];
    [|apply list_elem_of_singleton in Ht as ->];
    (apply elem_of_cons in Ht' as [-> | Ht'];
     [|apply list_elem_of_singleton in Ht' as ->]);
    intros Hprefix; try done; exfalso; revert Hprefix;
    apply (bool_decide_unpack _); by vm_compute.
Defined.

Lemma flattenSingleTest_all_shown_sample :
  ∃ m,
    groupTests
      (Some (flattenSingleTest
               {| test_test := "/webdriver/tests/bidi/session/new.py";
                  test_status := "OK"; test_message := None;
                  test_subtests :=
                    [{| subtest_name := "test_new[a/b]";
                        subtest_status := "PASS";
                        subtest_message := None |};
                     {| subtest_name := "test_new[<c>]";
                        subtest_status := "FAIL";
                        subtest_message := Some "assert" |}] |}))
    = Some m
    ∧ ∀ t, t ∈ rowsOf m
           ↔ t ∈ flattenSingleTest
                   {| test_test := "/webdriver/tests/bidi/session/new.py";
                      test_status := "OK"; test_message := None;
                      test_subtests :=
                        [{| subtest_name := "test_new[a/b]";
                            subtest_status := "PASS";
                            subtest_message := None |};
                         {| subtest_name := "test_new[<c>]";
                            subtest_status := "FAIL";
                            subtest_message := Some "assert" |}] |}.
Proof.
  apply (flattenSingleTest_all_shown
           {| test_test := "/webdriver/tests/bidi/session/new.py";
              test_status := "OK"; test_message := None;
              test_subtests :=
                [{| subtest_name := "test_new[a/b]";
                    subtest_status := "PASS";
                    subtest_message := None |};
                 {| subtest_name := "test_new[<c>]";
                    subtest_status := "FAIL";
                    subtest_message := Some "assert" |}] |}).
  apply (bool_decide_unpack _). by vm_compute.
Defined.
End ReportSamples.
